(** * caimel-stack: job dispatch, rate limiting and DNS reconciliation

    A shallow embedding of the coordination code of the repository:

    - [RateLimiter]: [infrastructure/redis-ratelimiter/main.py], the
      sliding-window and fixed-window admission handler over a model of
      the Redis commands it issues;
    - [Reconciler]: [infrastructure/cloudflare-sync/sync_cloudflare.py]
      and [lightweight_check.py], the full pass over the provider's
      record list and the checksum-driven tick;
    - [Worker]: [workers/asr/worker.py] and
      [workers/diarization/worker.py], the queue scan, the claim and the
      terminal writes on the [Job] table;
    - [Extraction]: the hostnames read from the Traefik configuration
      and the external address, of [sync_cloudflare.py];
    - [WorkerLoop]: the main loop of the three workers with its
      metrics;
    - [Diarization] and [Transcript]: the results the diarization and
      the ASR worker build and save.

    Python integers are unbounded and are modelled by [Z]; Python [//]
    on integers is [Z.div] (both round towards minus infinity), with the
    division by zero written out as an error. *)

From Stdlib Require Import ZArith Lia List Bool Ascii String Sorted.
From stdpp Require Import base option list gmap strings pretty.

Local Open Scope string_scope.
Local Open Scope Z_scope.

(** ** Python string helpers *)

Module PyStr.

(** A Python string is kept as the bytes of its UTF-8 form: a
    character of the ASCII range is one byte below 128, every other
    character a sequence of bytes from 128 on. *)

Definition is_ascii_byte (c : ascii) : bool := (N_of_ascii c <? 128)%N.

(** [s.isascii()] *)
Fixpoint is_ascii (s : string) : bool :=
  match s with
  | EmptyString => true
  | String c s' => is_ascii_byte c && is_ascii s'
  end.

(** [str.lower()] of a string of the ASCII range: the letters A-Z are
    folded, every other byte is kept.  Outside the ASCII range
    [str.lower()] folds other letters too; what is proved of a name
    that goes through [lower] is proved of ASCII names. *)
Definition lower_ascii (c : ascii) : ascii :=
  let n := N_of_ascii c in
  if ((65 <=? n) && (n <=? 90))%N then ascii_of_N (n + 32) else c.

Fixpoint lower (s : string) : string :=
  match s with
  | EmptyString => EmptyString
  | String c s' => String (lower_ascii c) (lower s')
  end.

(** The characters [str.strip()] removes, those for which
    [str.isspace()] holds.  Of one byte: TAB, LF, VT, FF, CR, the
    separators FS, GS, RS, US, and space. *)
Definition is_space (c : ascii) : bool :=
  let n := N_of_ascii c in
  (((9 <=? n) && (n <=? 13)) || ((28 <=? n) && (n <=? 32)))%N.

(** Of two bytes: U+0085 (C2 85) and U+00A0 (C2 A0). *)
Definition is_space2 (c d : ascii) : bool :=
  let m := N_of_ascii c in
  let n := N_of_ascii d in
  ((m =? 194) && ((n =? 133) || (n =? 160)))%N.

(** Of three bytes: U+1680 (E1 9A 80), U+2000 to U+200A (E2 80 80 to
    E2 80 8A), U+2028, U+2029, U+202F (E2 80 A8, A9, AF), U+205F
    (E2 81 9F) and U+3000 (E3 80 80). *)
Definition is_space3 (c d e : ascii) : bool :=
  let l := N_of_ascii c in
  let m := N_of_ascii d in
  let n := N_of_ascii e in
  (((l =? 225) && (m =? 154) && (n =? 128))
   || ((l =? 226) && (m =? 128)
       && (((128 <=? n) && (n <=? 138)) || (n =? 168) || (n =? 169) || (n =? 175)))
   || ((l =? 226) && (m =? 129) && (n =? 159))
   || ((l =? 227) && (m =? 128) && (n =? 128)))%N.

(** [s] starts with a whitespace character. *)
Definition at_space (s : string) : bool :=
  match s with
  | EmptyString => false
  | String c s1 =>
      is_space c
      || match s1 with
         | EmptyString => false
         | String d s2 =>
             is_space2 c d
             || match s2 with
                | EmptyString => false
                | String e _ => is_space3 c d e
                end
         end
  end.

(** [str.lstrip()] *)
Fixpoint lstrip (s : string) : string :=
  match s with
  | EmptyString => EmptyString
  | String c s1 =>
      if is_space c then lstrip s1
      else
        match s1 with
        | EmptyString => s
        | String d s2 =>
            if is_space2 c d then lstrip s2
            else
              match s2 with
              | EmptyString => s
              | String e s3 => if is_space3 c d e then lstrip s3 else s
              end
        end
  end.

(** [str.rstrip()]: nothing is left of a string of whitespace; of any
    other string the first byte stays and the rest is stripped. *)
Fixpoint rstrip (s : string) : string :=
  match s with
  | EmptyString => EmptyString
  | String c s1 =>
      match lstrip (String c s1) with
      | EmptyString => EmptyString
      | String _ _ => String c (rstrip s1)
      end
  end.

(** [str.strip()] *)
Definition strip (s : string) : string := rstrip (lstrip s).

(** [s.endswith(suffix)] *)
Definition endswith (s suffix : string) : bool :=
  let n := String.length s in
  let m := String.length suffix in
  if (m <=? n)%nat then String.eqb (substring (n - m) m s) suffix else false.

(** [str(n)] for an integer. *)
Definition str_int (n : Z) : string := pretty n.

End PyStr.

(** ** Integer ceiling of a quotient

    [math.ceil(a / b)] for integers [a] and positive [b].  The source
    divides in floating point: [a / 1000] is the double nearest to the
    quotient.  For [a] below 2^53 that double is within 2^-10 of the
    quotient, which is less than the 1/1000 that separates a quotient
    from the integers it is not equal to, so its ceiling is the exact
    one, which is what this definition computes.  From 2^53 on the
    two can differ; what is proved of a [retryAfter] is proved below
    that bound. *)

Definition ceil_div (a b : Z) : Z := - ((- a) / b).

(** ** The rate limiter service *)

Module RateLimiter.

(** *** Redis: the commands the service issues

    A key holds an integer (created by INCR) or a sorted set, with an
    optional expiry instant.  An expired key is absent.  The sorted
    set is kept as the list of its (member, score) pairs, members
    distinct; its order by (score, member) is computed on demand.
    Every command takes the instant [now] at which it runs: the clock
    the handler reads is the clock Redis expires keys by.  Counters are
    unbounded here; Redis refuses to count past 2^63 - 1. *)

Inductive rvalue : Type :=
| RInt (n : Z)
| RZset (z : list (string * Z)).

Record entry : Type := mkEntry { val : rvalue; expire_at : option Z }.

Abbreviation redis := (gmap string entry).

Definition expired (now : Z) (e : entry) : bool :=
  match expire_at e with
  | Some t => t <=? now
  | None => false
  end.

(** The entry a command sees at instant [now]. *)
Definition live (now : Z) (st : redis) (key : string) : option entry :=
  match st !! key with
  | Some e => if expired now e then None else Some e
  | None => None
  end.

(** A command either answers or fails with WRONGTYPE. *)
Inductive reply (A : Type) : Type :=
| Reply (a : A)
| WrongType.
Arguments Reply {A} a.
Arguments WrongType {A}.

Definition in_range (lo hi s : Z) : bool := (lo <=? s) && (s <=? hi).

(** Writes a sorted set back; Redis drops a key whose set is empty. *)
Definition put_zset (key : string) (z : list (string * Z)) (ex : option Z)
    (st : redis) : redis :=
  match z with
  | [] => delete key st
  | _ => <[key := mkEntry (RZset z) ex]> st
  end.

(** ZREMRANGEBYSCORE key lo hi *)
Definition zremrangebyscore (now : Z) (key : string) (lo hi : Z) (st : redis)
    : reply Z * redis :=
  match live now st key with
  | None => (Reply 0, st)
  | Some e =>
      match val e with
      | RInt _ => (WrongType, st)
      | RZset z =>
          let keep := filter (fun p => negb (in_range lo hi (snd p))) z in
          (Reply (Z.of_nat (length z) - Z.of_nat (length keep)),
           put_zset key keep (expire_at e) st)
      end
  end.

(** ZCARD key *)
Definition zcard (now : Z) (key : string) (st : redis) : reply Z :=
  match live now st key with
  | None => Reply 0
  | Some e =>
      match val e with
      | RInt _ => WrongType
      | RZset z => Reply (Z.of_nat (length z))
      end
  end.

(** Order of a sorted set: by score, then by member. *)
Definition zlt (p q : string * Z) : bool :=
  (snd p <? snd q) || ((snd p =? snd q) && negb (String.leb (fst q) (fst p))).

Fixpoint zfirst (z : list (string * Z)) : option (string * Z) :=
  match z with
  | [] => None
  | p :: z' =>
      match zfirst z' with
      | None => Some p
      | Some q => if zlt q p then Some q else Some p
      end
  end.

(** ZRANGE key 0 0 WITHSCORES: the list holding the first element. *)
Definition zrange_0_0 (now : Z) (key : string) (st : redis)
    : reply (list (string * Z)) :=
  match live now st key with
  | None => Reply []
  | Some e =>
      match val e with
      | RInt _ => WrongType
      | RZset z => Reply (option_list (zfirst z))
      end
  end.

(** ZADD key score member: a member already present gets the new score. *)
Definition zadd (now : Z) (key member : string) (score : Z) (st : redis)
    : reply Z * redis :=
  match live now st key with
  | None => (Reply 1, <[key := mkEntry (RZset [(member, score)]) None]> st)
  | Some e =>
      match val e with
      | RInt _ => (WrongType, st)
      | RZset z =>
          if existsb (fun p => String.eqb (fst p) member) z
          then (Reply 0,
                <[key := mkEntry
                   (RZset (map (fun p => if String.eqb (fst p) member
                                         then (member, score) else p) z))
                   (expire_at e)]> st)
          else (Reply 1,
                <[key := mkEntry (RZset (z ++ [(member, score)])) (expire_at e)]> st)
      end
  end.

(** PEXPIRE key ms: a timeout that is not positive deletes the key. *)
Definition pexpire (now : Z) (key : string) (ms : Z) (st : redis)
    : reply Z * redis :=
  match live now st key with
  | None => (Reply 0, st)
  | Some e =>
      if ms <=? 0 then (Reply 1, delete key st)
      else (Reply 1, <[key := mkEntry (val e) (Some (now + ms))]> st)
  end.

(** INCR key: an absent key counts from zero and has no expiry. *)
Definition incr (now : Z) (key : string) (st : redis) : reply Z * redis :=
  match live now st key with
  | None => (Reply 1, <[key := mkEntry (RInt 1) None]> st)
  | Some e =>
      match val e with
      | RInt n => (Reply (n + 1), <[key := mkEntry (RInt (n + 1)) (expire_at e)]> st)
      | RZset _ => (WrongType, st)
      end
  end.

(** *** Responses *)

Record result : Type := mkResult {
  allow : bool;
  limit : Z;
  remaining : Z;
  reset : Z;
  retryAfter : option Z
}.

(** [Answer] is the 200 response; [HttpError] carries the status of an
    [HTTPException], or 500 for an exception the handler leaves
    uncaught. *)
Inductive response : Type :=
| Answer (r : result)
| HttpError (status : Z) (detail : string).

(** The decoded JSON body.  A body that is a JSON object is kept as
    its four fields, each by what the handler's reading of it gives,
    whatever JSON value the field holds. *)

(** [str(body.get("id", ""))]: the key is missing, the value is a
    string, or it is any other value, of which [str()] gives the text
    ([None], [True], the digits of a number, the [repr] of an array or
    an object). *)
Inductive id_field : Type :=
| IdMissing
| IdString (s : string)
| IdOther (str : string).

(** [int(body.get(key, default))]: the key is missing, the value is one
    that [int()] turns into [n] (an integer, a boolean, a finite float,
    a string that denotes an integer), or one that [int()] raises on
    ([null], an array, an object, any other string, nan, an
    infinity). *)
Inductive int_field : Type :=
| IntMissing
| IntOf (n : Z)
| IntRaises.

(** [(body.get("algo") or "sliding").lower()]: the value is missing or
    falsy ([null], [false], zero, an empty array or object), it is a
    string, or it is any other value, which has no [lower]. *)
Inductive algo_field : Type :=
| AlgoFalsy
| AlgoString (s : string)
| AlgoOther.

Record body : Type := mkBody {
  b_id : id_field;
  b_limit : int_field;
  b_windowMs : int_field;
  b_algo : algo_field
}.

(** The request body: not JSON, JSON that is not an object (it has no
    [get]), or an object. *)
Inductive request : Type :=
| BadJson
| NotObject
| Json (b : body).

(** [str(body.get("id", "")).strip()] *)
Definition read_id (f : id_field) : string :=
  PyStr.strip (match f with
               | IdMissing => ""
               | IdString s => s
               | IdOther str => str
               end).

(** [int(body.get(key, default))]; [None] when [int()] raises. *)
Definition read_int (default : Z) (f : int_field) : option Z :=
  match f with
  | IntMissing => Some default
  | IntOf n => Some n
  | IntRaises => None
  end.

(** [(body.get("algo") or "sliding").lower()]; [None] when the value
    has no [lower].  The result is only compared with the words sliding
    and fixed, which no string outside the ASCII range folds to. *)
Definition read_algo (f : algo_field) : option string :=
  match f with
  | AlgoFalsy | AlgoString "" => Some (PyStr.lower "sliding")
  | AlgoString a => Some (PyStr.lower a)
  | AlgoOther => None
  end.

Section Service.

(** [NAMESPACE = os.getenv("NAMESPACE_PREFIX", "ratelimit:")] *)
Variable NAMESPACE : string.

Definition k (id_ : string) : string := NAMESPACE +:+ id_.

(** [reset_ms] from the answer of ZRANGE: the fallback unless the
    list is non-empty. *)
Definition reset_of (oldest : list (string * Z)) (now window_ms : Z) : Z :=
  match oldest with
  | [] => now + window_ms
  | p :: _ => snd p + window_ms
  end.

(** [_sliding_window]; [nonce] is the string of [uuid.uuid4()].  The
    outcome is [None] when a Redis command raised. *)
Definition _sliding_window (now : Z) (nonce : string)
    (id_ : string) (limit window_ms : Z) (st : redis)
    : option result * redis :=
  let key := k id_ in
  let '(trimmed, st1) := zremrangebyscore now key 0 (now - window_ms) st in
  match trimmed, zcard now key st1 with
  | Reply _, Reply count =>
      if limit <=? count then
        match zrange_0_0 now key st1 with
        | WrongType => (None, st1)
        | Reply oldest =>
            let reset_ms := reset_of oldest now window_ms in
            let retry_after := Z.max 0 (ceil_div (reset_ms - now) 1000) in
            (Some (mkResult false limit 0 reset_ms (Some retry_after)), st1)
        end
      else
        let member := PyStr.str_int now +:+ "-" +:+ nonce in
        let '(added, st2) := zadd now key member now st1 in
        let '(_, st3) := pexpire now key (window_ms + 60000) st2 in
        match added with
        | WrongType => (None, st3)
        | Reply _ =>
            let remaining := Z.max 0 (limit - (count + 1)) in
            match zrange_0_0 now key st3 with
            | WrongType => (None, st3)
            | Reply oldest =>
                let reset_ms := reset_of oldest now window_ms in
                (Some (mkResult true limit remaining reset_ms None), st3)
            end
        end
  | _, _ => (None, st1)
  end.

(** The fixed-window branch of [ratelimit]: INCR and PEXPIRE in one
    pipeline, both executed before an error is raised. *)
Definition fixed_window (now : Z) (id_ : string) (limit window_ms : Z)
    (st : redis) : option result * redis :=
  let bucket := now / window_ms in
  let key := k ("fw:" +:+ id_ +:+ ":" +:+ PyStr.str_int bucket) in
  let '(value, st1) := incr now key st in
  let '(_, st2) := pexpire now key window_ms st1 in
  match value with
  | WrongType => (None, st2)
  | Reply value =>
      let remaining := Z.max 0 (limit - value) in
      let allow := value <=? limit in
      let bucket_end := (now / window_ms + 1) * window_ms in
      (Some (mkResult allow limit (if allow then remaining else 0) bucket_end
               (if allow then None
                else Some (Z.max 0 (ceil_div (bucket_end - now) 1000)))),
       st2)
  end.

Definition answer (o : option result) : response :=
  match o with
  | Some r => Answer r
  | None => HttpError 500 "Internal Server Error"
  end.

(** [ratelimit], the POST /ratelimit handler at instant [now].  The
    four fields are read in the order id, limit, windowMs, algo, before
    anything is checked; an exception there is answered 500.  The 2 s
    timeout around the sliding branch (status 504) is a matter of real
    time and is left out. *)
Definition ratelimit (now : Z) (nonce : string) (req : request) (st : redis)
    : response * redis :=
  match req with
  | BadJson => (HttpError 400 "invalid JSON", st)
  | NotObject => (HttpError 500 "Internal Server Error", st)
  | Json b =>
      let id_ := read_id (b_id b) in
      match read_int 5 (b_limit b), read_int 10000 (b_windowMs b),
            read_algo (b_algo b) with
      | Some limit, Some window_ms, Some algo =>
          if String.eqb id_ "" then (HttpError 400 "missing id", st)
          else if String.eqb algo "sliding" then
            let '(o, st') := _sliding_window now nonce id_ limit window_ms st in
            (answer o, st')
          else if String.eqb algo "fixed" then
            if window_ms =? 0 then (HttpError 500 "Internal Server Error", st)
            else
              let '(o, st') := fixed_window now id_ limit window_ms st in
              (answer o, st')
          else (HttpError 400 "unsupported algo", st)
      | _, _, _ => (HttpError 500 "Internal Server Error", st)
      end
  end.

(** Synchronous calls, one after the other; each carries its instant
    and its nonce. *)
Fixpoint run_calls (calls : list (Z * string * request)) (st : redis)
    : list response * redis :=
  match calls with
  | [] => ([], st)
  | (now, nonce, req) :: rest =>
      let '(r, st1) := ratelimit now nonce req st in
      let '(rs, st2) := run_calls rest st1 in
      (r :: rs, st2)
  end.

End Service.

(** *** Vocabulary of the specification *)

(** The sorted set a command sees under [key]; empty for an absent key. *)
Definition zset_at (now : Z) (st : redis) (key : string) : list (string * Z) :=
  match live now st key with
  | Some e => match val e with RZset z => z | RInt _ => [] end
  | None => []
  end.

(** [key] is absent or holds a sorted set. *)
Definition holds_zset (now : Z) (st : redis) (key : string) : Prop :=
  forall e, live now st key = Some e -> exists z, val e = RZset z.

(** What the service maintains under a sliding-window key: a sorted set
    whose scores are instants, hence not negative. *)
Definition scores_sound (st : redis) (key : string) : Prop :=
  forall e, st !! key = Some e ->
    exists z, val e = RZset z /\ Forall (fun p => 0 <= snd p) z.

(** The entries that survive the trim: score outside [0, now - w]. *)
Definition in_window (now w : Z) (z : list (string * Z)) : list (string * Z) :=
  filter (fun p => ~ (0 <= snd p <= now - w)) z.

(** Least score of a set. *)
Fixpoint oldest_score (z : list (string * Z)) : option Z :=
  match z with
  | [] => None
  | p :: z' =>
      Some (match oldest_score z' with
            | None => snd p
            | Some m => Z.min (snd p) m
            end)
  end.

(** [reset]: the oldest score plus the window, or [now + w] for an
    empty set. *)
Definition reset_at (now w : Z) (z : list (string * Z)) : Z :=
  match oldest_score z with
  | Some s => s + w
  | None => now + w
  end.

(** The body of a well-formed request. *)
Definition mk_request (id_ : string) (limit window_ms : Z) (algo : string)
    : request :=
  Json (mkBody (IdString id_) (IntOf limit) (IntOf window_ms) (AlgoString algo)).

Definition is_400 (r : response) : Prop :=
  match r with
  | HttpError 400 _ => True
  | _ => False
  end.

(** The inputs of the contract: a non-empty id, a limit and a window
    of at least 1, and one of the two algorithms when one is named. *)
Definition valid_inputs (b : body) : Prop :=
  (exists i, b_id b = IdString i /\ i <> "") /\
  (exists l, b_limit b = IntOf l /\ 1 <= l) /\
  (exists w, b_windowMs b = IntOf w /\ 1 <= w) /\
  (b_algo b = AlgoFalsy \/ b_algo b = AlgoString "sliding" \/
   b_algo b = AlgoString "fixed").

(** The text of the id: empty when the key is missing, of a value that
    is no string what [str()] makes of it. *)
Definition id_text (b : body) : string :=
  match b_id b with
  | IdMissing => ""
  | IdString s => s
  | IdOther str => str
  end.

(** The limit, the window and the algorithm can be read: the numbers
    are missing or convert, the algorithm is missing, falsy or a
    string. *)
Definition readable (b : body) : Prop :=
  b_limit b <> IntRaises /\ b_windowMs b <> IntRaises /\ b_algo b <> AlgoOther.

(** The algorithm the handler goes by: lower-cased, sliding when the
    field is missing, falsy or empty. *)
Definition effective_algo (b : body) : string :=
  PyStr.lower (match b_algo b with
               | AlgoString (String c a) => String c a
               | _ => "sliding"
               end).

(** The requests the handler turns down. *)
Definition rejected (req : request) : Prop :=
  match req with
  | BadJson => True
  | NotObject => False
  | Json b =>
      readable b /\
      (PyStr.strip (id_text b) = "" \/
       (effective_algo b <> "sliding" /\ effective_algo b <> "fixed"))
  end.

(** The requests the handler cannot read: JSON that is no object, or an
    object whose limit, window or algorithm cannot be read. *)
Definition unreadable (req : request) : Prop :=
  match req with
  | BadJson => False
  | NotObject => True
  | Json b => ~ readable b
  end.

(** Every input outside the contract is answered 400 and leaves the
    store as it was. *)
Definition invalid_inputs_refused (NAMESPACE : string) : Prop :=
  forall (now : Z) (nonce : string) (b : body) (st : redis),
    ~ valid_inputs b ->
    is_400 (ratelimit NAMESPACE now nonce (Json b) st).1 /\
    (ratelimit NAMESPACE now nonce (Json b) st).2 = st.

(** The counter key of bucket [b] of [id_]. *)
Definition fw_key (NAMESPACE id_ : string) (b : Z) : string :=
  k NAMESPACE ("fw:" +:+ id_ +:+ ":" +:+ PyStr.str_int b).

(** The counter of a bucket of width [W] after [c] calls: absent
    before the first, then [c] with an expiry not before the bucket's
    end. *)
Definition bucket_counts (key : string) (b W c : Z) (st : redis) : Prop :=
  (c = 0 /\ st !! key = None) \/
  (0 < c /\ exists e, st !! key = Some (mkEntry (RInt c) (Some e)) /\
                     (b + 1) * W <= e).

(** What the fixed window answers at instant [t] when the counter
    stood at [c]: the decision is on the incremented value. *)
Definition fixed_answer (N W b c t : Z) : result :=
  let value := c + 1 in
  {| allow := value <=? N;
     limit := N;
     remaining := if value <=? N then Z.max 0 (N - value) else 0;
     reset := (b + 1) * W;
     retryAfter := if value <=? N then None
                   else Some (ceil_div ((b + 1) * W - t) 1000) |}.

Fixpoint fixed_answers (N W b c : Z) (calls : list (Z * string)) : list result :=
  match calls with
  | [] => []
  | call :: rest => fixed_answer N W b c (fst call) :: fixed_answers N W b (c + 1) rest
  end.

End RateLimiter.

(** *** Start-up of the rate limiter (module initialisation) *)

Module RateLimiterBoot.

(** What running the module's top level leads to: [sys.exit(code)]
    or the Redis client and the application being created. *)
Inductive boot : Type :=
| Exit (code : Z)
| Serving (host : string) (port db : Z) (password namespace : string).

(** Python truthiness of [os.getenv(name)]: set and not empty. *)
Definition truthy (v : option string) : bool :=
  match v with
  | None | Some "" => false
  | Some _ => true
  end.

Section Init.

(** [int(s)] on a string: the integer, or [None] for [ValueError]. *)
Variable py_int : string -> option Z.

Definition module_init (environ : gmap string string) : boot :=
  let REDIS_HOST := environ !! "REDIS_HOST" in
  let REDIS_PASSWORD := environ !! "REDIS_PASSWORD" in
  let NAMESPACE := default "ratelimit:" (environ !! "NAMESPACE_PREFIX") in
  if negb (truthy REDIS_HOST) then Exit 1
  else if negb (truthy REDIS_PASSWORD) then Exit 1
  else
    let port :=
      if truthy (environ !! "REDIS_PORT")
      then py_int (default "" (environ !! "REDIS_PORT"))
      else Some 6379 in
    match port with
    | None => Exit 1
    | Some REDIS_PORT =>
        let db :=
          if truthy (environ !! "REDIS_DB")
          then py_int (default "" (environ !! "REDIS_DB"))
          else Some 0 in
        match db with
        | None => Exit 1
        | Some REDIS_DB =>
            Serving (default "" REDIS_HOST) REDIS_PORT REDIS_DB
                    (default "" REDIS_PASSWORD) NAMESPACE
        end
    end.

End Init.

End RateLimiterBoot.

(** ** The DNS reconciler *)

Module Reconciler.

(** A record of the provider's listing; [proxied] may be missing, and
    is then read as [True] ([record.get('proxied', True)]). *)
Record dns_record : Type := mkRecord {
  r_id : string;
  r_type : string;
  r_name : string;
  r_content : string;
  r_proxied : option bool
}.

(** The three writing calls; the zone id, the same in all of them, is
    left out. *)
Inductive api_call : Type :=
| Update (record_id hostname ip : string) (proxied : bool)
| Create (hostname ip : string) (proxied : bool)
| Delete (record_id : string).

(** What a call comes back with: [success] true in the decoded answer;
    [success] false, with [errors] missing or holding an entry, from
    which the failure is logged; [success] false with an empty [errors]
    list (or a first entry that is no object), on which the line that
    logs [errors[0]] raises; or an exception of the call itself
    (network, decoding, no [success] in the answer). *)
Inductive api_outcome : Type :=
| Succeeded
| Failed
| FailedUnlogged
| Raised.

Record pass_state : Type := mkPass {
  calls : list api_call;
  success : bool;
  processed_records : list string
}.

(** The pass threads its log of calls, [success] and
    [processed_records]; an exception stops it and keeps the state. *)
Definition M (A : Type) : Type := pass_state -> option A * pass_state.

Definition ret {A : Type} (a : A) : M A := fun s => (Some a, s).

Definition bind {A B : Type} (m : M A) (f : A -> M B) : M B :=
  fun s =>
    match m s with
    | (Some a, s') => f a s'
    | (None, s') => (None, s')
    end.

Notation "m >>> n" := (bind m (fun _ => n))
  (at level 90, right associativity).

Fixpoint for_each {A : Type} (f : A -> M unit) (l : list A) : M unit :=
  match l with
  | [] => ret tt
  | x :: l' => f x >>> for_each f l'
  end.

Definition get_proxied (record : dns_record) : bool :=
  default true (r_proxied record).

(** The first A-record of the listing with the given name. *)
Definition find_a_record (name : string) (records : list dns_record)
    : option dns_record :=
  List.find (fun record => String.eqb (r_type record) "A"
                           && String.eqb (r_name record) name) records.

Definition member (x : string) (l : list string) : bool :=
  existsb (String.eqb x) l.

Section Pass.

Variable DOMAIN_BASE : string.

(** The provider's answer to the [n]-th writing call of the pass. *)
Variable outcome_of : nat -> api_outcome.

(** [result = call(...)] followed by
    [if not result['success']: logger.error(...); success = False];
    the log line is built before [success] is set. *)
Definition api (c : api_call) : M unit :=
  fun s =>
    let s' := mkPass (calls s ++ [c]) (success s) (processed_records s) in
    match outcome_of (length (calls s)) with
    | Succeeded => (Some tt, s')
    | Failed => (Some tt, mkPass (calls s') false (processed_records s'))
    | FailedUnlogged => (None, s')
    | Raised => (None, s')
    end.

Definition mark_processed (name : string) : M unit :=
  fun s => (Some tt, mkPass (calls s) (success s) (processed_records s ++ [name])).

Definition ssh_hostname : string :=
  PyStr.lower ("ssh-3afb6505." +:+ DOMAIN_BASE).

(** The root record: updated when its content differs, created when
    absent. *)
Definition sync_root (external_ip : string) (existing_records : list dns_record)
    : M unit :=
  match find_a_record DOMAIN_BASE existing_records with
  | Some root_record =>
      if negb (String.eqb (r_content root_record) external_ip)
      then api (Update (r_id root_record) DOMAIN_BASE external_ip true)
      else ret tt
  | None => api (Create DOMAIN_BASE external_ip true)
  end.

(** The SSH helper record, always unproxied. *)
Definition sync_ssh (external_ip : string) (existing_records : list dns_record)
    : M unit :=
  let ssh_record := find_a_record ssh_hostname existing_records in
  mark_processed ssh_hostname >>>
  match ssh_record with
  | Some ssh_record =>
      if negb (String.eqb (r_content ssh_record) external_ip)
         || negb (Bool.eqb (get_proxied ssh_record) false)
      then api (Update (r_id ssh_record) ssh_hostname external_ip false)
      else ret tt
  | None => api (Create ssh_hostname external_ip false)
  end.

Definition should_proxy_of (hostname_lower : string) : bool :=
  negb (PyStr.endswith hostname_lower ("-d." +:+ DOMAIN_BASE)).

(** One turn of the loop over the hostnames of the Traefik config. *)
Definition sync_hostname (external_ip : string)
    (existing_records : list dns_record) (hostname : string) : M unit :=
  let hostname_lower := PyStr.lower hostname in
  if String.eqb hostname_lower ssh_hostname then ret tt
  else
    let should_proxy := should_proxy_of hostname_lower in
    match find_a_record hostname_lower existing_records with
    | Some record =>
        mark_processed hostname_lower >>>
        if negb (String.eqb (r_content record) external_ip)
           || negb (Bool.eqb (get_proxied record) should_proxy)
        then api (Update (r_id record) hostname_lower external_ip should_proxy)
        else ret tt
    | None =>
        api (Create hostname_lower external_ip should_proxy) >>>
        mark_processed hostname_lower
    end.

(** One turn of the loop that removes orphaned records. *)
Definition prune_record (record : dns_record) : M unit :=
  fun s =>
    if String.eqb (r_type record) "A"
       && PyStr.endswith (r_name record) ("." +:+ DOMAIN_BASE)
       && negb (member (r_name record) (processed_records s))
    then api (Delete (r_id record)) s
    else ret tt s.

(** The body of the [try] once the address, the zone and the listing
    are known. *)
Definition sync_body (external_ip : string)
    (existing_records : list dns_record) (hostnames : list string) : M unit :=
  sync_root external_ip existing_records >>>
  (fun s => (Some tt, mkPass (calls s) (success s) [DOMAIN_BASE])) >>>
  sync_ssh external_ip existing_records >>>
  for_each (sync_hostname external_ip existing_records) hostnames >>>
  match hostnames with
  | [] => ret tt
  | _ => for_each prune_record existing_records
  end.

End Pass.

(** What the pass reads before it writes; [None] stands for the
    exception of the corresponding helper. *)
Record lookups : Type := mkLookups {
  external_ip : option string;
  zone_id : option string;
  existing_records : option (list dns_record)
}.

Inductive sync_result : Type :=
| SyncRaised
| SyncDone (issued : list api_call) (ok : bool).

(** [sync_dns_records(hostnames)] *)
Definition sync_dns_records (DOMAIN_BASE : string) (remote : lookups)
    (outcome_of : nat -> api_outcome) (hostnames : list string) : sync_result :=
  if String.eqb DOMAIN_BASE "" then SyncRaised
  else
    match external_ip remote, zone_id remote, existing_records remote with
    | Some ip, Some _, Some records =>
        match sync_body DOMAIN_BASE outcome_of ip records hostnames
                (mkPass [] true []) with
        | (Some _, s) => SyncDone (calls s) (success s)
        | (None, s) => SyncDone (calls s) false
        end
    | _, _, _ => SyncDone [] false
    end.

(** Everything [sync_cloudflare.py] depends on when it is run. *)
Record world : Type := mkWorld {
  CLOUDFLARE_API_TOKEN : option string;
  DOMAIN_BASE : string;
  config_exists : bool;
  extracted : option (list string);
  remote : lookups;
  outcome_of : nat -> api_outcome
}.

Record outcome : Type := mkOutcome {
  exit_code : Z;
  issued_calls : list api_call;
  health_written : bool
}.

Definition truthy (v : option string) : bool :=
  match v with
  | None | Some "" => false
  | Some _ => true
  end.

(** [main()] of [sync_cloudflare.py] *)
Definition main (w : world) : outcome :=
  if negb (config_exists w) then mkOutcome 1 [] false
  else if negb (truthy (CLOUDFLARE_API_TOKEN w)) then mkOutcome 0 [] false
  else if String.eqb (DOMAIN_BASE w) "" then mkOutcome 0 [] false
  else
    match extracted w with
    | None => mkOutcome 1 [] false
    | Some hostnames =>
        match sync_dns_records (DOMAIN_BASE w) (remote w) (outcome_of w) hostnames with
        | SyncRaised => mkOutcome 1 [] false
        | SyncDone issued ok => mkOutcome 0 issued ok
        end
    end.

(** *** The lightweight check *)

Record files : Type := mkFiles {
  checksum_file : option string;
  health_touched : bool
}.

(** What the tick observes: the digest [md5sum] prints when the config
    is compared and when it is stored ([None]: the command failed),
    and whether port 22 of the helper answers. *)
Record probe : Type := mkProbe {
  checksum_at_check : option string;
  checksum_at_update : option string;
  ssh_reachable : bool
}.

Definition has_traefik_config_changed (pr : probe) (fs : files) : bool :=
  match checksum_at_check pr with
  | None | Some "" => true
  | Some current_checksum =>
      match checksum_file fs with
      | None => true
      | Some previous => negb (String.eqb current_checksum (PyStr.strip previous))
      end
  end.

Definition update_traefik_checksum (pr : probe) (fs : files) : files :=
  match checksum_at_update pr with
  | None | Some "" => fs
  | Some checksum => mkFiles (Some checksum) (health_touched fs)
  end.

Definition update_health_check (fs : files) : files :=
  mkFiles (checksum_file fs) true.

(** [run_full_sync()]: the sync script is run as a child process (which
    is taken to start) and judged by its return code. *)
Definition run_full_sync (w : world) (pr : probe) (fs : files) : bool * files :=
  if exit_code (main w) =? 0 then (true, update_traefik_checksum pr fs)
  else (false, fs).

Definition check_ssh_connectivity (w : world) (pr : probe) : bool :=
  if String.eqb (DOMAIN_BASE w) "" then false else ssh_reachable pr.

(** [main()] of [lightweight_check.py]: the return code and the files. *)
Definition tick (w : world) (pr : probe) (fs : files) : Z * files :=
  if has_traefik_config_changed pr fs then
    match run_full_sync w pr fs with
    | (true, fs') => (0, update_health_check fs')
    | (false, fs') => (1, fs')
    end
  else if check_ssh_connectivity w pr then (0, update_health_check fs)
  else
    match run_full_sync w pr fs with
    | (true, fs') => (0, update_health_check fs')
    | (false, fs') => (1, fs')
    end.

(** *** Vocabulary of the specification *)

(** The proxy-flag rule: unproxied iff the reserved helper name or a
    name ending in [-d.<base>]. *)
Definition unproxied (base hostname : string) : bool :=
  String.eqb hostname (ssh_hostname base)
  || PyStr.endswith hostname ("-d." +:+ base).

(** The desired names: the root, the helper and the extracted ones. *)
Definition desired (base : string) (hostnames : list string) : list string :=
  base :: ssh_hostname base :: map PyStr.lower hostnames.

(** The records pruning has to delete. *)
Definition orphaned (base : string) (hostnames : list string)
    (records : list dns_record) : list dns_record :=
  List.filter (fun record =>
                 String.eqb (r_type record) "A"
                 && PyStr.endswith (r_name record) ("." +:+ base)
                 && negb (member (r_name record) (desired base hostnames)))
              records.

Definition is_delete (c : api_call) : bool :=
  match c with
  | Delete _ => true
  | _ => false
  end.

(** [record] is an A-record under [name]. *)
Definition a_record_named (name : string) (record : dns_record) : Prop :=
  r_type record = "A" /\ r_name record = name.

(** The listing holds no A-record under [name]. *)
Definition none_named (name : string) (records : list dns_record) : Prop :=
  Forall (fun r => ~ a_record_named name r) records.

(** [record] is the A-record under [name] that comes first in the
    listing. *)
Definition first_named (name : string) (records : list dns_record)
    (record : dns_record) : Prop :=
  exists before after,
    records = (before ++ record :: after)%list /\
    a_record_named name record /\ none_named name before.

(** A call that writes the root or the helper record: a creation
    under one of the two names, or an update of the first listed
    A-record of that name. *)
Definition static_call (base : string) (records : list dns_record)
    (c : api_call) : Prop :=
  match c with
  | Create hostname _ _ => hostname = base \/ hostname = ssh_hostname base
  | Update record_id hostname _ _ =>
      (hostname = base \/ hostname = ssh_hostname base) /\
      exists record, first_named hostname records record /\
                     r_id record = record_id
  | Delete _ => False
  end.

(** [s] ends with [suffix]. *)
Definition ends_with (s suffix : string) : Prop :=
  exists prefix, s = prefix +:+ suffix.

(** A record pruning has to delete: an A-record of the managed suffix
    whose name is not a desired one. *)
Definition orphan (base : string) (hostnames : list string) (r : dns_record)
    : Prop :=
  r_type r = "A" /\ ends_with (r_name r) ("." +:+ base) /\
  ~ In (r_name r) (desired base hostnames).

(** [picked] holds the items of [l] that satisfy [P], in the order of
    [l]. *)
Inductive selected {A : Type} (P : A -> Prop) : list A -> list A -> Prop :=
| selected_nil : selected P [] []
| selected_take (x : A) (l picked : list A) :
    P x -> selected P l picked -> selected P (x :: l) (x :: picked)
| selected_skip (x : A) (l picked : list A) :
    ~ P x -> selected P l picked -> selected P (x :: l) picked.

(** A writing call that carries the flag of the proxy-flag rule. *)
Definition proxy_rule_call (base : string) (c : api_call) : Prop :=
  match c with
  | Create hostname _ proxied => proxied = negb (unproxied base hostname)
  | Update _ hostname _ proxied => proxied = negb (unproxied base hostname)
  | Delete _ => True
  end.

(** No call raises and every failure can be logged: the pass runs to
    its end. *)
Definition never_raises (outcome_of : nat -> api_outcome) : Prop :=
  forall n, outcome_of n = Succeeded \/ outcome_of n = Failed.

(** The calls a pass issued. *)
Definition issued_by (r : sync_result) : list api_call :=
  match r with
  | SyncRaised => []
  | SyncDone issued _ => issued
  end.

(** The root record is seen to: created when the listing holds no
    A-record under the base, and otherwise the first of them updated
    when its content differs from the address. *)
Definition root_ensured (base ip : string) (records : list dns_record)
    (issued : list api_call) : Prop :=
  (none_named base records -> In (Create base ip true) issued) /\
  (forall record,
     first_named base records record -> r_content record <> ip ->
     In (Update (r_id record) base ip true) issued).

(** The helper record is seen to: created unproxied when the listing
    holds no A-record under its name, and otherwise the first of them
    updated to unproxied when its content differs from the address or
    its flag is anything but [false]. *)
Definition helper_ensured (base ip : string) (records : list dns_record)
    (issued : list api_call) : Prop :=
  (none_named (ssh_hostname base) records ->
   In (Create (ssh_hostname base) ip false) issued) /\
  (forall record,
     first_named (ssh_hostname base) records record ->
     r_content record <> ip \/ r_proxied record <> Some false ->
     In (Update (r_id record) (ssh_hostname base) ip false) issued).

(** Every run of [m] appends calls that satisfy [Q] to the log. *)
Definition emits (m : M unit) (Q : api_call -> Prop) : Prop :=
  forall s, exists extra,
    calls (m s).2 = (calls s ++ extra)%list /\ Forall Q extra.

(** [success] after a call that did not raise. *)
Definition api_ok (outcome_of : nat -> api_outcome) (s : pass_state) : bool :=
  match outcome_of (length (calls s)) with
  | Failed => false
  | _ => success s
  end.

End Reconciler.

(** ** The workers *)

Module Worker.

Inductive status : Type :=
| QUEUED
| RUNNING
| COMPLETED
| FAILED
| CANCELLED.

Global Instance status_eq_dec : EqDecision status.
Proof. solve_decision. Defined.

(** A value of a job's input, as far as a worker reads it: a string,
    or any other JSON value with the text [str] makes of it. *)
Inductive value : Type :=
| Text (s : string)
| Other (str : string).

(** [str(v)] *)
Definition py_str (v : value) : string :=
  match v with
  | Text s => s
  | Other str => str
  end.

(** [v == s] for a string [s] *)
Definition is_text (v : value) (s : string) : bool :=
  match v with
  | Text t => String.eqb t s
  | Other _ => false
  end.

(** The [inputData] column as [**json.loads(...)] takes it: the
    dictionary of a JSON object by its keys, each once, or a content on
    which [json.loads] or the unpacking raises (a value that is no
    text, a text that is no JSON, or JSON that is no object). *)
Inductive input : Type :=
| Fields (fields : list (string * value))
| Malformed.

Definition lookup_field (key : string) (fields : list (string * value))
    : option value :=
  snd <$> List.find (fun kv => String.eqb (fst kv) key) fields.

(** A row of the [Job] table. *)
Record job : Type := mkJob {
  j_type : string;
  inputData : input;
  j_status : status;
  progress : Z;
  workerId : option string;
  startedAt : option Z;
  completedAt : option Z;
  outputData : option string;
  errorMessage : option string
}.

(** The table by id, and the Redis lists by key; the head of a list is
    its left end. *)
Abbreviation table := (gmap string job).
Abbreviation queues := (gmap string (list string)).

(** LPUSH key value *)
Definition lpush (queue job_id : string) (qs : queues) : queues :=
  <[queue := job_id :: default [] (qs !! queue)]> qs.

(** BRPOP key timeout, while nobody pushes: the right end of the list,
    or nothing once the timeout has passed.  Redis drops the key of a
    list that becomes empty. *)
Definition brpop (queue : string) (timeout : Z) (qs : queues)
    : option (string * queues) :=
  match reverse (default [] (qs !! queue)) with
  | [] => None
  | job_id :: rest =>
      Some (job_id,
            match rest with
            | [] => delete queue qs
            | _ => <[queue := reverse rest]> qs
            end)
  end.

(** [SELECT ... WHERE id = :job_id AND status = 'QUEUED'] *)
Definition select_queued (job_id : string) (db : table) : option job :=
  match db !! job_id with
  | Some row => if decide (j_status row = QUEUED) then Some row else None
  | None => None
  end.

(** [UPDATE "Job" SET status = 'RUNNING', "startedAt" = NOW(),
    "workerId" = :worker_id WHERE id = :job_id] *)
Definition update_running (job_id worker_id : string) (now : Z) (db : table)
    : table :=
  alter (fun row => mkJob (j_type row) (inputData row) RUNNING (progress row)
                      (Some worker_id) (Some now) (completedAt row)
                      (outputData row) (errorMessage row))
        job_id db.

(** [UPDATE "Job" SET status = 'COMPLETED', progress = 100,
    "completedAt" = NOW(), "outputData" = :output WHERE id = :job_id] *)
Definition update_completed (job_id output : string) (now : Z) (db : table)
    : table :=
  alter (fun row => mkJob (j_type row) (inputData row) COMPLETED 100
                      (workerId row) (startedAt row) (Some now)
                      (Some output) (errorMessage row))
        job_id db.

(** [UPDATE "Job" SET status = 'FAILED', "errorMessage" = :error,
    "completedAt" = NOW() WHERE id = :job_id] *)
Definition update_failed (job_id error : string) (now : Z) (db : table)
    : table :=
  alter (fun row => mkJob (j_type row) (inputData row) FAILED (progress row)
                      (workerId row) (startedAt row) (Some now)
                      (outputData row) (Some error))
        job_id db.

(** The stores, and the blocking pops attempted so far, each with its
    queue and its timeout in seconds. *)
Record sys : Type := mkSys {
  db : table;
  qs : queues;
  pops : list (string * Z)
}.

(** The dictionary [get_next_job] returns, by the keys the workers
    read: ['jobId'], ['type'], and the keys of the input. *)
Record claimed : Type := mkClaimed {
  jobId : value;
  c_type : value;
  c_input : list (string * value)
}.

(** [{'jobId': result[0], 'type': result[1], **fields}]: a key of the
    input replaces the one written before it. *)
Definition job_dict (job_id job_type : string) (fields : list (string * value))
    : claimed :=
  mkClaimed (default (Text job_id) (lookup_field "jobId" fields))
            (default (Text job_type) (lookup_field "type" fields))
            fields.

(** What [get_next_job] does once the row is marked RUNNING and the
    transaction committed: it returns the dictionary, or raises on the
    input ([None]). *)
Definition build_job (job_id : string) (result : job) : option (option claimed) :=
  match inputData result with
  | Fields fields => Some (Some (job_dict job_id (j_type result) fields))
  | Malformed => None
  end.

Section GetNextJob.

Variable worker_id : string.
Variable now : Z.

(** The body of the loop for one queue: pop, look the row up if it
    is still QUEUED, mark it RUNNING, commit, and return the
    dictionary.  [Some None] lets the loop go on; [None] is the
    exception of [json.loads] or of the unpacking, which leaves the
    function with the row already marked.  Redis and the database are
    taken not to raise. *)
Definition try_queue (queue : string) (s : sys) : option (option claimed) * sys :=
  let s0 := mkSys (db s) (qs s) (pops s ++ [(queue, 1)]) in
  match brpop queue 1 (qs s) with
  | None => (Some None, s0)
  | Some (job_id, qs') =>
      let s1 := mkSys (db s) qs' (pops s0) in
      match select_queued job_id (db s1) with
      | Some result =>
          (build_job job_id result,
           mkSys (update_running job_id worker_id now (db s1)) qs' (pops s0))
      | None => (Some None, s1)
      end
  end.

(** [for queue in queues: ...; return None] *)
Fixpoint scan (queue_names : list string) (s : sys)
    : option (option claimed) * sys :=
  match queue_names with
  | [] => (Some None, s)
  | queue :: rest =>
      match try_queue queue s with
      | (Some None, s') => scan rest s'
      | r => r
      end
  end.

(** [ASRWorker.get_next_job] *)
Definition asr_queues : list string :=
  ["queue:TRANSCRIPTION:URGENT"; "queue:TRANSCRIPTION:HIGH";
   "queue:TRANSCRIPTION:NORMAL"; "queue:TRANSCRIPTION:LOW"].

Definition asr_get_next_job (s : sys) : option (option claimed) * sys :=
  scan asr_queues s.

(** [DiarizationWorker.get_next_job]: the loop over the priorities
    inside the loop over the job types. *)
Definition job_types : list string :=
  ["DIARIZATION"; "EMBEDDING_EXTRACTION"; "SPEAKER_CLUSTERING"].

Definition priorities : list string := ["URGENT"; "HIGH"; "NORMAL"; "LOW"].

Definition queue_name (job_type priority : string) : string :=
  "queue:" +:+ job_type +:+ ":" +:+ priority.

Fixpoint scan_priorities (job_type : string) (ps : list string) (s : sys)
    : option (option claimed) * sys :=
  match ps with
  | [] => (Some None, s)
  | priority :: rest =>
      match try_queue (queue_name job_type priority) s with
      | (Some None, s') => scan_priorities job_type rest s'
      | r => r
      end
  end.

Fixpoint scan_types (ts : list string) (s : sys)
    : option (option claimed) * sys :=
  match ts with
  | [] => (Some None, s)
  | job_type :: rest =>
      match scan_priorities job_type priorities s with
      | (Some None, s') => scan_types rest s'
      | r => r
      end
  end.

Definition diarization_get_next_job (s : sys) : option (option claimed) * sys :=
  scan_types job_types s.

End GetNextJob.

(** The terminal writes of [run_worker]: what the adapter returned, or
    the text of the exception it raised. *)
Inductive adapter_outcome : Type :=
| Returned (output : string)
| Threw (error : string).

Definition terminal_write (job_id : string) (o : adapter_outcome) (now : Z)
    (tb : table) : table :=
  match o with
  | Returned output => update_completed job_id output now tb
  | Threw error => update_failed job_id error now tb
  end.

(** *** Workers side by side

    Each worker is a process of its own with its own connections: the
    pop, the SELECT and the UPDATE of [get_next_job] are three
    statements, and statements of other workers may run in between.
    A worker is at a queue it is about to pop, holds a popped id,
    holds the row its SELECT found, or has left [get_next_job], with
    a dictionary, with nothing, or by an exception ([None]). *)

Inductive pc : Type :=
| AtQueue (remaining : list string)
| Popped (job_id : string) (remaining : list string)
| Selected (job_id : string) (result : job) (remaining : list string)
| Left (r : option (option claimed)).

Record cluster : Type := mkCluster {
  store : sys;
  workers : gmap string pc
}.

(** The next statement of a worker positioned at [p]. *)
Definition statement (worker_id : string) (now : Z) (p : pc) (s : sys) : pc * sys :=
  match p with
  | AtQueue [] => (Left (Some None), s)
  | AtQueue (queue :: rest) =>
      let s0 := mkSys (db s) (qs s) (pops s ++ [(queue, 1)]) in
      match brpop queue 1 (qs s) with
      | None => (AtQueue rest, s0)
      | Some (job_id, qs') => (Popped job_id rest, mkSys (db s) qs' (pops s0))
      end
  | Popped job_id rest =>
      match select_queued job_id (db s) with
      | Some result => (Selected job_id result rest, s)
      | None => (AtQueue rest, s)
      end
  | Selected job_id result rest =>
      (Left (build_job job_id result),
       mkSys (update_running job_id worker_id now (db s)) (qs s) (pops s))
  | Left r => (Left r, s)
  end.

(** The worker named in the schedule runs its next statement. *)
Definition step (now : Z) (worker_id : string) (c : cluster) : cluster :=
  match workers c !! worker_id with
  | None => c
  | Some p =>
      let '(p', s') := statement worker_id now p (store c) in
      mkCluster s' (<[worker_id := p']> (workers c))
  end.

Definition run (now : Z) (schedule : list string) (c : cluster) : cluster :=
  foldl (fun c worker_id => step now worker_id c) c schedule.

(** The workers that came back from [get_next_job] with [job_id]. *)
Definition observed (job_id : string) (p : pc) : bool :=
  match p with
  | Left (Some (Some j)) => is_text (jobId j) job_id
  | _ => false
  end.

Definition observers (job_id : string) (c : cluster) : list string :=
  map fst (List.filter (fun kv => observed job_id (snd kv))
                       (map_to_list (workers c))).

(** Modelled from the spec: [Enqueue], which the producers (not part
    of the sources) perform: the row is inserted QUEUED and its id is
    pushed on the left of [queue:<type>:<priority>]. *)
Definition enqueue (job_id job_type priority : string) (data : input) (s : sys)
    : sys :=
  mkSys (<[job_id := mkJob job_type data QUEUED 0 None None None None None]> (db s))
        (lpush (queue_name job_type priority) job_id (qs s))
        (pops s).

(** *** Vocabulary of the specification *)

(** A terminal write only touches a row that is RUNNING under the
    writing worker's id. *)
Definition terminal_writes_guarded : Prop :=
  forall (worker_id job_id : string) (o : adapter_outcome) (now : Z)
         (tb : table) (row : job),
    tb !! job_id = Some row ->
    terminal_write job_id o now tb !! job_id <> Some row ->
    j_status row = RUNNING /\ workerId row = Some worker_id.

(** The row a terminal write leaves behind. *)
Definition terminated (o : adapter_outcome) (now : Z) (row : job) : job :=
  match o with
  | Returned output =>
      mkJob (j_type row) (inputData row) COMPLETED 100 (workerId row)
            (startedAt row) (Some now) (Some output) (errorMessage row)
  | Threw error =>
      mkJob (j_type row) (inputData row) FAILED (progress row) (workerId row)
            (startedAt row) (Some now) (outputData row) (Some error)
  end.

(** The queue names of a heterogeneous worker: outer by type, inner by
    priority. *)
Definition product_queues (types prios : list string) : list string :=
  job_type ← types; priority ← prios; [queue_name job_type priority].

Definition is_empty_queue (s : sys) (queue : string) : Prop :=
  default [] (qs s !! queue) = [].

(** The queues once the right end of [queue] is taken: [queue] holds
    the ids [l] that were to the left of it, every other queue is as
    it was. *)
Definition popped (queue : string) (l : list string) (before after : queues)
    : Prop :=
  default [] (after !! queue) = l /\
  forall other, other <> queue -> after !! other = before !! other.

(** The row of a claim: RUNNING under the worker since the instant of
    the claim, its other columns as they were. *)
Definition claimed_row (worker_id : string) (now : Z) (row : job) : job :=
  mkJob (j_type row) (inputData row) RUNNING (progress row) (Some worker_id)
        (Some now) (completedAt row) (outputData row) (errorMessage row).

(** An id whose row is gone or no longer QUEUED. *)
Definition stale (tb : table) (job_id : string) : Prop :=
  match tb !! job_id with
  | Some row => j_status row <> QUEUED
  | None => True
  end.

(** The specification's wording of the fetch: it returns the first id
    its pops obtain, that is the right end of the first queue of the
    scan that is not empty. *)
Definition returns_first_id_obtained : Prop :=
  forall (worker_id : string) (now : Z) (before : list string) (queue : string)
         (after : list string) (s : sys) (l : list string) (job_id : string),
    Forall (is_empty_queue s) before ->
    qs s !! queue = Some (l ++ [job_id])%list ->
    exists j,
      (scan worker_id now (before ++ queue :: after) s).1 = Some (Some j) /\
      jobId j = Text job_id.

(** The store after a series of fetches run one after the other, each
    by some worker at some instant over some list of queues. *)
Definition after_fetches (fetches : list (string * Z * list string)) (s : sys) : sys :=
  foldl (fun s f => (scan (fst (fst f)) (snd (fst f)) (snd f) s).2) s fetches.

End Worker.

(** ** Runs of the rate limiter: vocabulary *)

Module RateLimiterRuns.
Import RateLimiter.

(** The member a sliding call adds, [f"{now}-{uuid.uuid4()}"], and the
    entry it makes. *)
Definition member_of (call : Z * string) : string :=
  PyStr.str_int (fst call) +:+ "-" +:+ snd call.

Definition entry_of (call : Z * string) : string * Z := (member_of call, fst call).

(** The store during a window that opens at [T]: the key is absent
    while nothing is recorded, and afterwards holds the recorded entries
    with an expiry after the window's end. *)
Definition window_state (key : string) (T W : Z) (zs : list (string * Z))
    (st : redis) : Prop :=
  match zs with
  | [] => st !! key = None
  | _ => exists e, st !! key = Some (mkEntry (RZset zs) (Some e)) /\ T + W <= e
  end.

(** The two answers of a sliding call at [t], given the entries in the
    window after the call. *)
Definition sliding_deny (N W t : Z) (zs : list (string * Z)) : result :=
  {| allow := false; limit := N; remaining := 0;
     reset := reset_at t W zs;
     retryAfter := Some (ceil_div (reset_at t W zs - t) 1000) |}.

Definition sliding_allow (N W t : Z) (zs : list (string * Z)) : result :=
  {| allow := true; limit := N;
     remaining := Z.max 0 (N - Z.of_nat (length zs));
     reset := reset_at t W zs;
     retryAfter := None |}.

(** The answers to a series of calls, from the entries [zs] on. *)
Fixpoint sliding_answers (N W : Z) (zs : list (string * Z))
    (calls : list (Z * string)) : list result :=
  match calls with
  | [] => []
  | call :: rest =>
      if N <=? Z.of_nat (length zs)
      then sliding_deny N W (fst call) zs :: sliding_answers N W zs rest
      else sliding_allow N W (fst call) (zs ++ [entry_of call])
           :: sliding_answers N W (zs ++ [entry_of call]) rest
  end.

(** The keys a request may write: the sorted set of its id and the
    counter of its id's current bucket. *)
Definition own_keys (NAMESPACE : string) (now : Z) (b : body) : list string :=
  let id_ := PyStr.strip (id_text b) in
  let window_ms := match b_windowMs b with
                   | IntOf w => w
                   | _ => 10000
                   end in
  [k NAMESPACE id_; fw_key NAMESPACE id_ (now / window_ms)].

End RateLimiterRuns.

(** ** The reconciler: more vocabulary *)

Module ReconcilerSpec.
Import Reconciler.

Definition succeeded (o : api_outcome) : bool :=
  match o with
  | Succeeded => true
  | _ => false
  end.

(** The first [n] calls of the pass all came back with [success] true. *)
Definition all_succeeded (answers : nat -> api_outcome) (n : nat) : bool :=
  forallb (fun i => succeeded (answers i)) (seq 0 n).

(** [success] follows the answers: it holds exactly while every call
    issued so far succeeded; a pass that stops on an exception has seen
    a call that did not succeed. *)
Definition tracks (answers : nat -> api_outcome) (m : M unit) : Prop :=
  forall s,
    success s = all_succeeded answers (length (calls s)) ->
    match m s with
    | (Some _, s') => success s' = all_succeeded answers (length (calls s'))
    | (None, s') => all_succeeded answers (length (calls s')) = false
    end.

(** The flag of [record] is [flag]; a record without the field counts
    as proxied. *)
Definition carries_flag (record : dns_record) (flag : bool) : Prop :=
  r_proxied record = Some flag \/ (r_proxied record = None /\ flag = true).

(** A listing the pass has nothing to do on: the first A-record of
    the root has the address, the first of the helper has the address
    and is unproxied, the first of every hostname has the address and
    is unproxied exactly when the name ends with [-d.<base>], and no
    listed record is an orphan. *)
Definition converged (base ip : string) (records : list dns_record)
    (hostnames : list string) : Prop :=
  (exists r, first_named base records r /\ r_content r = ip) /\
  (exists r, first_named (ssh_hostname base) records r /\
             r_content r = ip /\ r_proxied r = Some false) /\
  Forall (fun h =>
            PyStr.lower h = ssh_hostname base \/
            exists r flag,
              first_named (PyStr.lower h) records r /\ r_content r = ip /\
              carries_flag r flag /\
              (flag = false <-> ends_with (PyStr.lower h) ("-d." +:+ base)))
         hostnames /\
  Forall (fun r => ~ orphan base hostnames r) records.

(** What the lookups and the tests of the pass find on such a
    listing. *)
Definition lookups_converged (base ip : string) (records : list dns_record)
    (hostnames : list string) : Prop :=
  (exists r, find_a_record base records = Some r /\ r_content r = ip) /\
  (exists r, find_a_record (ssh_hostname base) records = Some r /\
             r_content r = ip /\ get_proxied r = false) /\
  Forall (fun h =>
            PyStr.lower h = ssh_hostname base \/
            exists r, find_a_record (PyStr.lower h) records = Some r /\
                      r_content r = ip /\
                      get_proxied r = should_proxy_of base (PyStr.lower h))
         hostnames /\
  orphaned base hostnames records = [].

(** A call that, if it is a deletion, deletes an orphaned record. *)
Definition deletes_orphan (base : string) (hostnames : list string)
    (records : list dns_record) (c : api_call) : Prop :=
  match c with
  | Delete record_id =>
      exists r, In r (orphaned base hostnames records) /\ r_id r = record_id
  | _ => True
  end.

(** From a state that satisfies [I], every run of [m] appends calls
    that satisfy [Q]. *)
Definition emits_from (I : pass_state -> Prop) (m : M unit)
    (Q : api_call -> Prop) : Prop :=
  forall s, I s ->
    exists extra, calls (m s).2 = (calls s ++ extra)%list /\ Forall Q extra.

(** The names a pass has processed when it reaches pruning. *)
Definition processed_by (base : string) (hostnames : list string) : list string :=
  ([base] ++ [ssh_hostname base]
   ++ List.filter (fun h => negb (String.eqb h (ssh_hostname base)))
        (map PyStr.lower hostnames))%list.

(** The test of the pruning loop, on the names processed so far. *)
Definition prunable (base : string) (processed : list string)
    (r : dns_record) : bool :=
  String.eqb (r_type r) "A"
  && PyStr.endswith (r_name r) ("." +:+ base)
  && negb (member (r_name r) processed).

(** No whitespace, as in a word [str.split()] returns. *)
Fixpoint no_space (s : string) : bool :=
  match s with
  | EmptyString => true
  | String c s' => negb (PyStr.at_space (String c s')) && no_space s'
  end.

End ReconcilerSpec.

(** ** The reconciler: what it reads

    [extract_hostnames] and [get_external_ip] of [sync_cloudflare.py].
    Strings are byte strings; character classes are taken on the ASCII
    range. *)

Module Extraction.

(** *** [re.findall(r'Host\(`([^`]+)`\)', rule)] *)

Definition is_backtick (c : ascii) : bool := Ascii.eqb c "`"%char.

(** The longest run of characters other than the backtick, and the
    rest. *)
Fixpoint span_plain (s : string) : string * string :=
  match s with
  | EmptyString => (EmptyString, EmptyString)
  | String c s' =>
      if is_backtick c then (EmptyString, s)
      else let '(x, r) := span_plain s' in (String c x, r)
  end.

(** [s] without the prefix [p], when it starts with it. *)
Fixpoint strip_prefix (p s : string) : option string :=
  match p with
  | EmptyString => Some s
  | String a p' =>
      match s with
      | EmptyString => None
      | String b s' => if Ascii.eqb a b then strip_prefix p' s' else None
      end
  end.

(** A match of the pattern at the very start of [s]: the group and the
    length of the match.  The group is the whole run up to the next
    backtick: a shorter one would have to be followed by a backtick. *)
Definition match_host (s : string) : option (string * nat) :=
  match strip_prefix "Host(`" s with
  | None => None
  | Some s1 =>
      let '(x, r) := span_plain s1 in
      match x, strip_prefix "`)" r with
      | String _ _, Some _ => Some (x, (6 + String.length x + 2)%nat)
      | _, _ => None
      end
  end.

(** The groups of the matches from left to right, matches not
    overlapping: [skip] characters still belong to the last match. *)
Fixpoint findall_from (skip : nat) (s : string) : list string :=
  match s with
  | EmptyString => []
  | String _ s' =>
      match skip with
      | S n => findall_from n s'
      | O =>
          match match_host s with
          | Some (x, len) => x :: findall_from (len - 1) s'
          | None => findall_from 0 s'
          end
      end
  end.

Definition findall (rule : string) : list string := findall_from 0 rule.

(** The parsed YAML, as far as it is read: the document may be empty,
    and [http], [routers] and a router's [rule] may be missing. *)
Record router : Type := mkRouter { rule : option string }.

Record http_section : Type := mkHttp {
  routers : option (list (string * router))
}.

Record traefik_config : Type := mkConfig { http : option http_section }.

(** [extract_hostnames(config_file)], from the parsed document on. *)
Definition extract_hostnames (config : option traefik_config) : list string :=
  match config with
  | None => []
  | Some c =>
      match http c with
      | None => []
      | Some h =>
          match routers h with
          | None => []
          | Some rs =>
              flat_map (fun named : string * router =>
                          match rule (snd named) with
                          | Some r => findall r
                          | None => []
                          end) rs
          end
      end
  end.

(** *** [get_external_ip()] *)

Record response : Type := mkResponse { status_code : Z; text : string }.

(** [\d] on a text of the ASCII range: the digits 0 to 9.  (On other
    texts [\d] also matches the decimal digits of other scripts; what
    is proved of [get_external_ip] is proved of answers of the ASCII
    range.) *)
Definition is_digit (c : ascii) : bool :=
  let n := N_of_ascii c in ((48 <=? n) && (n <=? 57))%N.

Fixpoint span_digits (s : string) : string * string :=
  match s with
  | EmptyString => (EmptyString, EmptyString)
  | String c s' =>
      if is_digit c
      then let '(d, r) := span_digits s' in (String c d, r)
      else (EmptyString, s)
  end.

(** One or more digits and a dot: what is left after them. *)
Definition digits_dot (s : string) : option string :=
  match span_digits s with
  | (String _ _, String c r) => if Ascii.eqb c "."%char then Some r else None
  | _ => None
  end.

(** [re.match(r'^\d+\.\d+\.\d+\.\d+$', ip)]; [$] also matches just
    before a newline that ends the string. *)
Definition is_ip (ip : string) : bool :=
  match digits_dot ip with
  | None => false
  | Some s1 =>
      match digits_dot s1 with
      | None => false
      | Some s2 =>
          match digits_dot s2 with
          | None => false
          | Some s3 =>
              match span_digits s3 with
              | (String _ _, EmptyString) => true
              | (String _ _, String c EmptyString) => Ascii.eqb c "010"%char
              | _ => false
              end
          end
      end
  end.

Definition services : list string :=
  ["https://api.ipify.org"; "https://ifconfig.me"; "https://ipinfo.io/ip"].

(** The address in the answer of one service, if it gives one; [None]
    for an exception, another status or another text. *)
Definition address_of (o : option response) : option string :=
  match o with
  | None => None
  | Some r =>
      if status_code r =? 200
      then let ip := PyStr.strip (text r) in
           if is_ip ip then Some ip else None
      else None
  end.

Fixpoint first_address (get : string -> option response)
    (urls : list string) : option string :=
  match urls with
  | [] => None
  | url :: rest =>
      match address_of (get url) with
      | Some ip => Some ip
      | None => first_address get rest
      end
  end.

(** [get_external_ip()], [get] being [requests.get(service, timeout=5)];
    [None] is the final [raise]. *)
Definition get_external_ip (get : string -> option response) : option string :=
  first_address get services.

(** *** Vocabulary of the specification *)

Fixpoint plain (s : string) : bool :=
  match s with
  | EmptyString => true
  | String c s' => negb (is_backtick c) && plain s'
  end.

(** A hostname a rule can carry: not empty, no backtick. *)
Definition hostname_ok (h : string) : Prop := h <> "" /\ plain h = true.

Definition host_clause (h : string) : string := "Host(`" +:+ h +:+ "`)".

(** A rule that names the hostnames, joined by [sep]. *)
Definition rule_of (sep : string) (hostnames : list string) : string :=
  String.concat sep (map host_clause hostnames).

Fixpoint no_H (s : string) : bool :=
  match s with
  | EmptyString => true
  | String c s' => negb (Ascii.eqb c "H"%char) && no_H s'
  end.

(** The document with one router per entry, each with the rule that
    names its hostnames. *)
Definition config_of (sep : string) (sites : list (string * list string))
    : option traefik_config :=
  Some (mkConfig (Some (mkHttp (Some
    (map (fun site => (fst site, mkRouter (Some (rule_of sep (snd site)))))
         sites))))).

Fixpoint all_digits (s : string) : bool :=
  match s with
  | EmptyString => true
  | String c s' => is_digit c && all_digits s'
  end.

(** Four groups of one or more digits with dots in between. *)
Definition dotted_quad (ip : string) : Prop :=
  exists a b c d : string,
    (a <> "" /\ all_digits a = true) /\ (b <> "" /\ all_digits b = true) /\
    (c <> "" /\ all_digits c = true) /\ (d <> "" /\ all_digits d = true) /\
    ip = a +:+ "." +:+ b +:+ "." +:+ c +:+ "." +:+ d.

Fixpoint last_char (s : string) : option ascii :=
  match s with
  | EmptyString => None
  | String c EmptyString => Some c
  | String _ s' => last_char s'
  end.

End Extraction.

(** ** The workers: the main loop

    [run_worker] of the three workers: one pass of the loop body per
    element of a schedule. *)

Module WorkerLoop.
Import Worker.

(** The Prometheus metrics of a worker: the gauge, the counter, and
    the number of observations of the histogram. *)
Record metrics : Type := mkMetrics {
  ACTIVE_JOBS : Z;
  JOBS_PROCESSED : Z;
  JOB_DURATION : Z
}.

Definition inc_active (m : metrics) : metrics :=
  mkMetrics (ACTIVE_JOBS m + 1) (JOBS_PROCESSED m) (JOB_DURATION m).

Definition dec_active (m : metrics) : metrics :=
  mkMetrics (ACTIVE_JOBS m - 1) (JOBS_PROCESSED m) (JOB_DURATION m).

Definition inc_processed (m : metrics) : metrics :=
  mkMetrics (ACTIVE_JOBS m) (JOBS_PROCESSED m + 1) (JOB_DURATION m).

Definition observe_duration (m : metrics) : metrics :=
  mkMetrics (ACTIVE_JOBS m) (JOBS_PROCESSED m) (JOB_DURATION m + 1).

Record worker : Type := mkWorker {
  w_sys : sys;
  w_metrics : metrics
}.

(** What one pass meets: the instant of the fetch and of the terminal
    write, and whether marking the row COMPLETED (serialising the
    result, connecting, executing, committing) or marking it FAILED
    raises, with the text of the exception.  A write that raises
    leaves the table as it was. *)
Record pass : Type := mkPass {
  fetched_at : Z;
  written_at : Z;
  completed_write : option string;
  failed_write : option string
}.

(** The job is marked by the statement [set_row]. *)
Definition write_row (set_row : table -> table) (s : sys) : sys :=
  mkSys (set_row (db s)) (qs s) (pops s).

(** [WHERE id = :job_id] with [job['jobId']] as the id: a value that
    is no string is the id of no row. *)
Definition where_id (job_id : value) (set_row : string -> table -> table)
    (tb : table) : table :=
  match job_id with
  | Text job_id => set_row job_id tb
  | Other _ => tb
  end.

Section Loop.

(** [get_next_job] at an instant: [None] when it raises, with the
    stores as it left them. *)
Variable get_next_job : Z -> sys -> option (option claimed) * sys.

(** The adapter with its dispatch on the job type: what it returns,
    serialised, or the text of the exception it raises. *)
Variable process : claimed -> adapter_outcome.

(** The body of [while self.running]. *)
Definition iteration (p : pass) (w : worker) : worker :=
  let m := inc_active (w_metrics w) in
  match get_next_job (fetched_at p) (w_sys w) with
  | (None, s) => mkWorker s (dec_active m)
  | (Some None, s) => mkWorker s (dec_active m)
  | (Some (Some job), s) =>
      let failed (e : string) :=
        match failed_write p with
        | Some _ => mkWorker s (dec_active m)
        | None =>
            mkWorker
              (write_row
                 (where_id (jobId job)
                    (fun job_id => update_failed job_id e (written_at p))) s)
              (dec_active (observe_duration m))
        end in
      match process job with
      | Threw e => failed e
      | Returned output =>
          match completed_write p with
          | Some e => failed e
          | None =>
              mkWorker
                (write_row
                   (where_id (jobId job)
                      (fun job_id => update_completed job_id output (written_at p)))
                   s)
                (dec_active (observe_duration (inc_processed m)))
          end
      end
  end.

Definition run_worker (passes : list pass) (w : worker) : worker :=
  foldl (fun w p => iteration p w) w passes.

End Loop.

Section Dispatch.

(** [json.dumps({'message': m})] *)
Variable dumps_message : string -> string.

(** [{'message': f"Job type {job['type']} not yet implemented"}] *)
Definition not_implemented (job_type : value) : string :=
  dumps_message ("Job type " +:+ py_str job_type +:+ " not yet implemented").

(** The dispatch of [DiarizationWorker.run_worker] *)
Definition diarization_process (process_diarization_job : claimed -> adapter_outcome)
    (job : claimed) : adapter_outcome :=
  if is_text (c_type job) "DIARIZATION"
  then process_diarization_job job
  else Returned (not_implemented (c_type job)).

(** The dispatch of [TTSWorker.run_worker] *)
Definition tts_process
    (process_tts_synthesis_job process_tts_training_job : claimed -> adapter_outcome)
    (job : claimed) : adapter_outcome :=
  if is_text (c_type job) "TTS_SYNTHESIS" then process_tts_synthesis_job job
  else if is_text (c_type job) "TTS_TRAINING" then process_tts_training_job job
  else Returned (not_implemented (c_type job)).

End Dispatch.

(** [ASRWorker.run_worker] has no dispatch. *)
Definition asr_run_worker (worker_id : string)
    (process_transcription_job : claimed -> adapter_outcome) :=
  run_worker (asr_get_next_job worker_id) process_transcription_job.

Definition diarization_run_worker (worker_id : string)
    (dumps_message : string -> string)
    (process_diarization_job : claimed -> adapter_outcome) :=
  run_worker (diarization_get_next_job worker_id)
             (diarization_process dumps_message process_diarization_job).

(** [TTSWorker.get_next_job] and [TTSWorker.run_worker] *)
Definition tts_job_types : list string := ["TTS_SYNTHESIS"; "TTS_TRAINING"].

Definition tts_get_next_job (worker_id : string) (now : Z) (s : sys)
    : option (option claimed) * sys :=
  scan_types worker_id now tts_job_types s.

Definition tts_run_worker (worker_id : string)
    (dumps_message : string -> string)
    (process_tts_synthesis_job process_tts_training_job
       : claimed -> adapter_outcome) :=
  run_worker (tts_get_next_job worker_id)
             (tts_process dumps_message process_tts_synthesis_job
                          process_tts_training_job).

(** *** Vocabulary of the specification *)

Definition status_of (tb : table) (job_id : string) : option status :=
  j_status <$> tb !! job_id.

(** No job's input carries a key [jobId] of its own. *)
Definition no_id_override (tb : table) : Prop :=
  forall job_id row fields,
    tb !! job_id = Some row -> inputData row = Fields fields ->
    lookup_field "jobId" fields = None.

(** The type the dispatch sees: the row's, unless the input carries a
    key [type] of its own. *)
Definition dispatched_type (row : job) (fields : list (string * value)) : value :=
  default (Text (j_type row)) (lookup_field "type" fields).

End WorkerLoop.

(** ** The diarization worker: the result and what is saved

    [process_diarization_result], [extract_speaker_embeddings] and
    [save_diarization_results] of [workers/diarization/worker.py].
    Instants are floats; only their order and their difference are
    used, and the order is taken to be one ([list.sort] is then the
    stable sort).  The statistics of a speaker, sums and means of
    floats, are left out of the rows. *)

Module Diarization.

Record track (time : Type) : Type := mkTrack {
  t_start : time;
  t_end : time;
  label : string
}.

(** The constant [confidence] of 0.9 is left out. *)
Record segment (time : Type) : Type := mkSegment {
  episodeId : string;
  startTime : time;
  endTime : time;
  speakerId : string;
  duration : time
}.

Record embedding : Type := mkEmbedding {
  e_speakerId : string;
  e_episodeId : string;
  embeddingHash : string;
  s3Key : string;
  segmentCount : nat
}.

(** The statements [save_diarization_results] executes in its one
    transaction. *)
Inductive statement (time : Type) : Type :=
| UpsertSpeaker (episode_id auto_id : string) (segment_count : nat)
| InsertSegment (episode_id : string) (start_time end_time : time)
    (speaker_id : string)
| InsertEmbedding (speaker_id episode_id embedding_hash s3_key : string).

Arguments mkTrack {time}.
Arguments t_start {time}.
Arguments t_end {time}.
Arguments label {time}.
Arguments mkSegment {time}.
Arguments episodeId {time}.
Arguments startTime {time}.
Arguments endTime {time}.
Arguments speakerId {time}.
Arguments duration {time}.
Arguments UpsertSpeaker {time}.
Arguments InsertSegment {time}.
Arguments InsertEmbedding {time}.

Section Result.

Context {time : Type}.

(** [<] and [-] on floats *)
Variable lt : time -> time -> bool.
Variable sub : time -> time -> time.

(** One item of [itertracks(yield_label=True)] as the dictionary
    appended for it. *)
Definition to_segment (episode_id : string) (tr : track time) : segment time :=
  mkSegment episode_id (t_start tr) (t_end tr) ("spk_" +:+ label tr)
            (sub (t_end tr) (t_start tr)).

(** [x] is put before the first segment that does not start before
    it: among equal keys the order of arrival is kept. *)
Fixpoint insert_by_start (x : segment time) (sorted : list (segment time))
    : list (segment time) :=
  match sorted with
  | [] => [x]
  | y :: rest =>
      if lt (startTime y) (startTime x)
      then y :: insert_by_start x rest
      else x :: y :: rest
  end.

(** [segments.sort(key=lambda x: x['startTime'])] *)
Definition sort_by_start (segments : list (segment time)) : list (segment time) :=
  foldr insert_by_start [] segments.

Definition process_diarization_result (diarization_result : list (track time))
    (episode_id : string) : list (segment time) :=
  sort_by_start (map (to_segment episode_id) diarization_result).

(** The dictionary [speaker_segments]: the labels in the order of
    their first track, each with its (start, end) pairs. *)
Fixpoint add_segment (speaker : string) (span : time * time)
    (groups : list (string * list (time * time)))
    : list (string * list (time * time)) :=
  match groups with
  | [] => [(speaker, [span])]
  | (sp, spans) :: rest =>
      if String.eqb sp speaker
      then (sp, (spans ++ [span])%list) :: rest
      else (sp, spans) :: add_segment speaker span rest
  end.

Definition speaker_segments (diarization_result : list (track time))
    : list (string * list (time * time)) :=
  foldl (fun groups tr => add_segment (label tr) (t_start tr, t_end tr) groups)
        [] diarization_result.

(** The SHA-256 digest of the mean embedding over those of the given
    segments that are half a second long; [None] when none is. *)
Variable embed : list (time * time) -> option string.

Definition extract_speaker_embeddings (diarization_result : list (track time))
    (episode_id : string) : list embedding :=
  flat_map
    (fun group : string * list (time * time) =>
       match embed (take 10 (snd group)) with
       | Some embedding_hash =>
           [mkEmbedding (fst group) episode_id embedding_hash
              ("embeddings/" +:+ episode_id +:+ "/spk-" +:+ embedding_hash
               +:+ ".npy")
              (length (snd group))]
       | None => []
       end)
    (speaker_segments diarization_result).

(** The order in which a [set] of strings is iterated. *)
Variable set_of : list string -> list string.

(** The id the upsert of a speaker returns. *)
Variable speaker_db_id : string -> string.

Definition save_diarization_results (episode_id : string)
    (segments : list (segment time)) (embeddings_data : list embedding)
    : list (statement time) :=
  flat_map
    (fun speaker_id : string =>
       let speaker_segs :=
         List.filter (fun seg => String.eqb (speakerId seg) speaker_id) segments in
       let speaker_embeddings :=
         List.filter (fun emb => String.eqb (e_speakerId emb) speaker_id)
                     embeddings_data in
       (UpsertSpeaker episode_id speaker_id (length speaker_segs)
        :: map (fun seg => InsertSegment episode_id (startTime seg) (endTime seg)
                             (speaker_db_id speaker_id))
               speaker_segs
        ++ map (fun emb => InsertEmbedding (speaker_db_id speaker_id) episode_id
                             (embeddingHash emb) (s3Key emb))
               speaker_embeddings)%list)
    (set_of (map speakerId segments)).

(** What [process_diarization_job] saves for a diarization result. *)
Definition saved (diarization_result : list (track time)) (episode_id : string)
    : list (statement time) :=
  save_diarization_results episode_id
    (process_diarization_result diarization_result episode_id)
    (extract_speaker_embeddings diarization_result episode_id).

(** *** Vocabulary of the specification *)

(** No segment starts before the one in front of it. *)
Definition in_start_order (a b : segment time) : Prop :=
  lt (startTime b) (startTime a) = false.

(** [set_of] lists the elements of the list, each once. *)
Definition is_set_order : Prop :=
  forall l, NoDup (set_of l) /\ forall x, x ∈ set_of l <-> x ∈ l.

(** The segment rows among the statements, with the speaker they are
    attached to. *)
Definition segment_rows (stmts : list (statement time))
    : list (time * time * string) :=
  flat_map (fun st => match st with
                      | InsertSegment _ a b sp => [(a, b, sp)]
                      | _ => []
                      end) stmts.

Definition embedding_rows (stmts : list (statement time)) : list string :=
  flat_map (fun st => match st with
                      | InsertEmbedding _ _ h _ => [h]
                      | _ => []
                      end) stmts.

(** No label is another label with [spk_] in front. *)
Definition labels_plain (diarization_result : list (track time)) : Prop :=
  forall tr tr', tr ∈ diarization_result -> tr' ∈ diarization_result ->
    label tr <> "spk_" +:+ label tr'.

End Result.

End Diarization.

(** ** The ASR worker: the transcript

    [process_whisper_result] of [workers/asr/worker.py].  Instants and
    scores are numbers of which only [>] is used; a key that is
    missing is [None].  [model_info] and [processed_at] are left
    out. *)

Module Transcript.

Record whisper_word (num : Type) : Type := mkWhisperWord {
  w_word : option string;
  w_start : option num;
  w_end : option num;
  w_score : option num
}.

Record whisper_segment (num : Type) : Type := mkWhisperSegment {
  words : option (list (whisper_word num));
  s_start : option num;
  s_end : option num;
  s_text : option string;
  avg_logprob : option num
}.

Record whisper_result (num : Type) : Type := mkWhisperResult {
  r_segments : option (list (whisper_segment num));
  r_language : option string
}.

Record word_timestamp (num : Type) : Type := mkWordTimestamp {
  word : string;
  wt_startTime : num;
  wt_endTime : num;
  wt_confidence : num
}.

Record transcript_segment (num : Type) : Type := mkTranscriptSegment {
  startTime : num;
  endTime : num;
  text : string;
  confidence : num;
  wordTimestamps : list (word_timestamp num)
}.

Record transcript (num : Type) : Type := mkTranscript {
  episodeId : string;
  language : string;
  segments : list (transcript_segment num);
  duration : num;
  word_count : nat
}.

Arguments mkWhisperWord {num}.
Arguments w_word {num}.
Arguments w_start {num}.
Arguments w_end {num}.
Arguments w_score {num}.
Arguments mkWhisperSegment {num}.
Arguments words {num}.
Arguments s_start {num}.
Arguments s_end {num}.
Arguments s_text {num}.
Arguments avg_logprob {num}.
Arguments mkWhisperResult {num}.
Arguments r_segments {num}.
Arguments r_language {num}.
Arguments mkWordTimestamp {num}.
Arguments word {num}.
Arguments wt_startTime {num}.
Arguments wt_endTime {num}.
Arguments wt_confidence {num}.
Arguments mkTranscriptSegment {num}.
Arguments startTime {num}.
Arguments endTime {num}.
Arguments text {num}.
Arguments confidence {num}.
Arguments wordTimestamps {num}.
Arguments mkTranscript {num}.
Arguments episodeId {num}.
Arguments language {num}.
Arguments segments {num}.
Arguments duration {num}.
Arguments word_count {num}.

Section Whisper.

Context {num : Type}.

(** The integer 0 and [>] *)
Variable zero : num.
Variable gt : num -> num -> bool.

Definition to_word_timestamp (w : whisper_word num) : word_timestamp num :=
  mkWordTimestamp (default "" (w_word w)) (default zero (w_start w))
                  (default zero (w_end w)) (default zero (w_score w)).

(** The body of [for segment in result.get('segments', [])] on
    [segments] and [total_words]. *)
Definition add_segment (acc : list (transcript_segment num) * nat)
    (segment : whisper_segment num) : list (transcript_segment num) * nat :=
  let word_timestamps :=
    match words segment with
    | Some ws => map to_word_timestamp ws
    | None => []
    end in
  let total_words :=
    match words segment with
    | Some _ => (snd acc + length word_timestamps)%nat
    | None => snd acc
    end in
  ((fst acc ++ [mkTranscriptSegment (default zero (s_start segment))
                  (default zero (s_end segment))
                  (PyStr.strip (default "" (s_text segment)))
                  (default zero (avg_logprob segment))
                  word_timestamps])%list,
   total_words).

(** [max(l)] of a list that is not empty: the first item no later one
    is greater than. *)
Definition py_max (first : num) (rest : list num) : num :=
  foldl (fun m item => if gt item m then item else m) first rest.

Definition process_whisper_result (result : whisper_result num)
    (episode_id : string) : transcript num :=
  let '(segs, total_words) :=
    foldl add_segment ([], 0%nat) (default [] (r_segments result)) in
  let duration :=
    match map endTime segs with
    | [] => zero
    | first :: rest => py_max first rest
    end in
  mkTranscript episode_id (default "unknown" (r_language result)) segs duration
               total_words.

End Whisper.

End Transcript.

(** * Properties *)

Lemma ceil_div_spec (a b : Z) :
  0 < b -> (ceil_div a b - 1) * b < a <= ceil_div a b * b.
Proof.
  intros Hb. unfold ceil_div.
  pose proof (Z.div_mod (- a) b ltac:(lia)) as Hdm.
  pose proof (Z.mod_pos_bound (- a) b Hb) as Hm.
  nia.
Qed.

Lemma ceil_div_pos (a b : Z) : 0 < b -> 0 < a -> 0 < ceil_div a b.
Proof. intros Hb Ha. pose proof (ceil_div_spec a b Hb). nia. Qed.

Module RateLimiterFacts.
Import RateLimiter.

(** *** The Redis commands on a sorted-set key *)

Lemma live_insert now key e (st : redis) :
  live now (<[key := e]> st) key = if expired now e then None else Some e.
Proof. unfold live. by rewrite lookup_insert_eq. Qed.

Lemma live_delete now key (st : redis) : live now (delete key st) key = None.
Proof. unfold live. by rewrite lookup_delete_eq. Qed.

Lemma live_expired now (st : redis) key e :
  live now st key = Some e -> expired now e = false.
Proof.
  unfold live. destruct (st !! key) as [e'|]; [|done].
  destruct (expired now e') eqn:He; [done|]. by intros [= <-].
Qed.

Lemma trim_filter now w (z : list (string * Z)) :
  filter (fun p => negb (in_range 0 (now - w) (snd p))) z = in_window now w z.
Proof.
  unfold in_window. apply list_filter_iff. intros p. unfold in_range.
  rewrite negb_True, andb_True, !Is_true_true, Z.leb_le, Z.leb_le. done.
Qed.

Lemma zfirst_score (z : list (string * Z)) :
  snd <$> zfirst z = oldest_score z.
Proof.
  induction z as [|p z IH]; [done|]. simpl.
  destruct (zfirst z) as [q|]; simpl in *; rewrite <- IH; [|done].
  unfold zlt.
  destruct (snd q <? snd p) eqn:Hlt; simpl.
  - apply Z.ltb_lt in Hlt. f_equal. lia.
  - apply Z.ltb_ge in Hlt.
    destruct (snd q =? snd p) eqn:Heq; simpl.
    + apply Z.eqb_eq in Heq. destruct (negb _); simpl; f_equal; lia.
    + f_equal. lia.
Qed.

Lemma oldest_score_least (z : list (string * Z)) m :
  oldest_score z = Some m ->
  (exists p, p ∈ z /\ snd p = m) /\ Forall (fun p => m <= snd p) z.
Proof.
  revert m. induction z as [|p z IH]; [done|]. simpl. intros m [= <-].
  destruct (oldest_score z) as [m'|] eqn:Ho.
  - destruct (IH m' eq_refl) as [[q [Hq Hm]] Hall]. split.
    + destruct (Z.min_spec (snd p) m') as [[_ ->]|[_ ->]].
      * exists p. split; [apply list_elem_of_here|done].
      * exists q. split; [by apply list_elem_of_further|done].
    + constructor; [lia|].
      eapply Forall_impl; [exact Hall|]. simpl. lia.
  - destruct z; [|done]. split.
    + exists p. split; [apply list_elem_of_here|done].
    + by repeat constructor.
Qed.

Lemma reset_of_zfirst (z : list (string * Z)) now w :
  reset_of (option_list (zfirst z)) now w = reset_at now w z.
Proof.
  unfold reset_at. rewrite <- zfirst_score. by destruct (zfirst z).
Qed.

Lemma zcard_holds now key (st : redis) :
  holds_zset now st key ->
  zcard now key st = Reply (Z.of_nat (length (zset_at now st key))).
Proof.
  unfold holds_zset, zcard, zset_at. intros H.
  destruct (live now st key) as [e|]; [|done].
  destruct (H e eq_refl) as [z ->]. done.
Qed.

Lemma zrange_holds now key (st : redis) :
  holds_zset now st key ->
  zrange_0_0 now key st = Reply (option_list (zfirst (zset_at now st key))).
Proof.
  unfold holds_zset, zrange_0_0, zset_at. intros H.
  destruct (live now st key) as [e|]; [|done].
  destruct (H e eq_refl) as [z ->]. done.
Qed.

Lemma zrem_holds now key lo hi (st : redis) :
  holds_zset now st key ->
  exists n st1,
    zremrangebyscore now key lo hi st = (Reply n, st1) /\
    zset_at now st1 key
      = filter (fun p => negb (in_range lo hi (snd p))) (zset_at now st key) /\
    holds_zset now st1 key.
Proof.
  unfold holds_zset, zremrangebyscore, zset_at. intros H.
  destruct (live now st key) as [e|] eqn:Hl.
  - destruct (H e eq_refl) as [z Hz]. rewrite Hz.
    pose proof (live_expired _ _ _ _ Hl) as Hex.
    eexists _, _. split; [done|].
    destruct (filter _ z) as [|p keep] eqn:Hk; simpl.
    + rewrite live_delete. done.
    + rewrite live_insert. unfold expired in *. simpl. rewrite Hex.
      split; [done|]. intros e' [= <-]. by eexists.
  - eexists _, _. split; [done|]. rewrite Hl. done.
Qed.

Lemma existsb_fresh (member : string) (z : list (string * Z)) :
  member ∉ z.*1 ->
  existsb (fun p => String.eqb (fst p) member) z = false.
Proof.
  induction z as [|p z IH]; [done|]. simpl. intros Hn.
  apply not_elem_of_cons in Hn as [Hne Hn].
  rewrite (IH Hn), orb_false_r. apply String.eqb_neq. congruence.
Qed.

Lemma zadd_holds now key member score (st : redis) :
  holds_zset now st key ->
  member ∉ (zset_at now st key).*1 ->
  exists st2 ex,
    zadd now key member score st = (Reply 1, st2) /\
    live now st2 key
      = Some (mkEntry (RZset (zset_at now st key ++ [(member, score)])) ex).
Proof.
  unfold holds_zset, zadd, zset_at. intros H Hfresh.
  destruct (live now st key) as [e|] eqn:Hl.
  - destruct (H e eq_refl) as [z Hz]. rewrite Hz in *.
    rewrite (existsb_fresh _ _ Hfresh).
    pose proof (live_expired _ _ _ _ Hl) as Hex.
    eexists _, _. split; [done|].
    rewrite live_insert. unfold expired in *. simpl. by rewrite Hex.
  - eexists _, _. split; [done|]. by rewrite live_insert.
Qed.

Lemma pexpire_live now key ms (st : redis) e :
  live now st key = Some e -> 0 < ms ->
  pexpire now key ms st
    = (Reply 1, <[key := mkEntry (val e) (Some (now + ms))]> st).
Proof.
  unfold pexpire. intros -> Hms.
  destruct (ms <=? 0) eqn:Hle; [|done]. apply Z.leb_le in Hle. lia.
Qed.

(** Scores written by the service are instants, hence not negative;
    such a set, once trimmed, only holds scores inside the window. *)
Lemma reset_after_now now w (z : list (string * Z)) :
  1 <= w -> Forall (fun p => 0 <= snd p) z ->
  now < reset_at now w (in_window now w z).
Proof.
  intros Hw Hz. unfold reset_at.
  destruct (oldest_score _) as [m|] eqn:Ho; [|lia].
  apply oldest_score_least in Ho as [[p [Hp <-]] _].
  apply list_elem_of_filter in Hp as [Hout Hp].
  rewrite Forall_forall in Hz. specialize (Hz p Hp). simpl in *. lia.
Qed.

Lemma in_window_fresh now w member (z : list (string * Z)) :
  member ∉ z.*1 -> member ∉ (in_window now w z).*1.
Proof.
  intros Hn Hin. apply Hn.
  apply list_elem_of_fmap in Hin as [p [-> Hp]].
  apply list_elem_of_filter in Hp as [_ Hp].
  apply list_elem_of_fmap. eauto.
Qed.

(** The service keeps scores non-negative. *)
Lemma in_window_nonneg now w (z : list (string * Z)) :
  Forall (fun p => 0 <= snd p) z ->
  Forall (fun p => 0 <= snd p) (in_window now w z).
Proof.
  rewrite !Forall_forall. intros H p Hp.
  apply list_elem_of_filter in Hp as [_ Hp]. auto.
Qed.

Section Sliding.
Variable NAMESPACE : string.

(** C2.  A sliding-window check at instant [now], on a key that
    holds the service's sorted set (scores are past instants, the
    new member is fresh) and for a window of at least 1 ms: the
    entries with score in [0, now - windowMs] are removed and the
    rest counted; when [count >= limit] the call is denied with
    [remaining = 0], [reset] the oldest remaining score plus the
    window (or [now + windowMs] for an empty set) and
    [retryAfter = ceil((reset - now)/1000)], the set being left as
    trimmed ([reset - now] being below 2^53, where the quotient the
    code takes in floating point has the exact ceiling); otherwise
    exactly one member with score [now] is added, the key expires
    [windowMs + 60000] ms from [now], and the call is allowed with
    [remaining = max(0, limit - (count + 1))] and [reset] computed
    from the new oldest entry. *)
Theorem sliding_window_check (now : Z) (nonce id_ : string) (limit w : Z)
    (st : redis) :
  let key := k NAMESPACE id_ in
  let z1 := in_window now w (zset_at now st key) in
  let count := Z.of_nat (length z1) in
  let member := PyStr.str_int now +:+ "-" +:+ nonce in
  let out := _sliding_window NAMESPACE now nonce id_ limit w st in
  1 <= w ->
  holds_zset now st key ->
  Forall (fun p => 0 <= snd p) (zset_at now st key) ->
  member ∉ (zset_at now st key).*1 ->
  (limit <= count -> reset_at now w z1 - now < 2 ^ 53 ->
     out.1 = Some {| allow := false; limit := limit; remaining := 0;
                     reset := reset_at now w z1;
                     retryAfter :=
                       Some (ceil_div (reset_at now w z1 - now) 1000) |} /\
     zset_at now out.2 key = z1) /\
  (count < limit ->
     out.1 = Some {| allow := true; limit := limit;
                     remaining := Z.max 0 (limit - (count + 1));
                     reset := reset_at now w (z1 ++ [(member, now)])%list;
                     retryAfter := None |} /\
     zset_at now out.2 key = (z1 ++ [(member, now)])%list /\
     expire_at <$> out.2 !! key = Some (Some (now + (w + 60000)))).
Proof.
  intros key z1 count member out Hw Hholds Hpos Hfresh.
  subst out. unfold _sliding_window. fold key.
  destruct (zrem_holds now key 0 (now - w) st Hholds)
    as (n & st1 & -> & Hz1 & Hholds1).
  rewrite trim_filter in Hz1. fold z1 in Hz1.
  rewrite (zcard_holds _ _ _ Hholds1), Hz1. fold count.
  split; intros Hc.
  - intros _.
    destruct (limit <=? count) eqn:Hle; [|apply Z.leb_gt in Hle; lia].
    rewrite (zrange_holds _ _ _ Hholds1), Hz1, reset_of_zfirst. simpl.
    split; [|done]. do 2 f_equal.
    pose proof (reset_after_now now w _ Hw Hpos) as Hr. fold z1 in Hr.
    pose proof (ceil_div_pos (reset_at now w z1 - now) 1000).
    f_equal. lia.
  - destruct (limit <=? count) eqn:Hle; [apply Z.leb_le in Hle; lia|].
    assert (member ∉ (zset_at now st1 key).*1) as Hfresh1.
    { rewrite Hz1. by apply in_window_fresh. }
    fold member.
    destruct (zadd_holds now key member now st1 Hholds1 Hfresh1)
      as (st2 & ex & -> & Hl2).
    rewrite Hz1 in Hl2.
    rewrite (pexpire_live _ _ _ _ _ Hl2) by lia. simpl.
    unfold zrange_0_0, zset_at. rewrite live_insert.
    unfold expired. simpl.
    destruct (now + (w + 60000) <=? now) eqn:Hx;
      [apply Z.leb_le in Hx; lia|].
    simpl. rewrite reset_of_zfirst, lookup_insert_eq, live_insert.
    unfold expired. simpl. rewrite Hx. done.
Qed.

End Sliding.

Lemma sliding_window_check_witness :
  (_sliding_window "ratelimit:" 3 "d" "x" 3 10000
     {["ratelimit:x" :=
         mkEntry (RZset [("0-a", 0); ("1-b", 1); ("2-c", 2)]) (Some 70002)]}).1
  = Some {| allow := false; limit := 3; remaining := 0; reset := 10000;
            retryAfter := Some 10 |}.
Proof.
  refine (proj1 (proj1 (sliding_window_check "ratelimit:" 3 "d" "x" 3 10000
    {["ratelimit:x" :=
        mkEntry (RZset [("0-a", 0); ("1-b", 1); ("2-c", 2)]) (Some 70002)]}
    _ _ _ _) _ _)).
  - lia.
  - intros e He. vm_compute in He. injection He as <-. eexists. reflexivity.
  - vm_compute. repeat constructor; discriminate.
  - vm_compute. intros H. repeat (inversion H as [|? ? ? H']; clear H; rename H' into H).
  - vm_compute. discriminate.
  - vm_compute. reflexivity.
Defined.

(** *** The scores stay instants *)

Lemma scores_sound_view now (st : redis) key :
  scores_sound st key ->
  holds_zset now st key /\ Forall (fun p => 0 <= snd p) (zset_at now st key).
Proof.
  intros Hs. unfold holds_zset, zset_at, live. split.
  - intros e He. destruct (st !! key) as [e'|] eqn:Hk; [|done].
    destruct (expired now e'); [done|]. injection He as <-.
    destruct (Hs e' Hk) as (z & Hz & _). by exists z.
  - destruct (st !! key) as [e'|] eqn:Hk; [|by constructor].
    destruct (expired now e'); [by constructor|].
    destruct (Hs e' Hk) as (z & -> & Hz). done.
Qed.

Lemma scores_sound_insert (st : redis) key z ex :
  Forall (fun p => 0 <= snd p) z ->
  scores_sound (<[key := mkEntry (RZset z) ex]> st) key.
Proof. intros Hz e. rewrite lookup_insert_eq. intros [= <-]. by exists z. Qed.

Lemma scores_sound_delete (st : redis) key : scores_sound (delete key st) key.
Proof. intros e. by rewrite lookup_delete_eq. Qed.

Lemma live_lookup now (st : redis) key e :
  live now st key = Some e -> st !! key = Some e.
Proof.
  unfold live. destruct (st !! key) as [e'|]; [|done].
  destruct (expired now e'); [done|]. by intros [= <-].
Qed.

Lemma zrem_sound now key lo hi (st : redis) :
  scores_sound st key -> scores_sound (zremrangebyscore now key lo hi st).2 key.
Proof.
  intros Hs. unfold zremrangebyscore.
  destruct (live now st key) as [e|] eqn:Hl; [|done].
  destruct (Hs e (live_lookup _ _ _ _ Hl)) as (z & Hz & Hpos). rewrite Hz. simpl.
  unfold put_zset. destruct (filter _ z) as [|p keep] eqn:Hk.
  - apply scores_sound_delete.
  - apply scores_sound_insert. rewrite <- Hk.
    apply Forall_forall. intros q Hq. apply list_elem_of_filter in Hq as [_ Hq].
    rewrite Forall_forall in Hpos. auto.
Qed.

Lemma zadd_sound now key member score (st : redis) :
  0 <= score -> scores_sound st key ->
  scores_sound (zadd now key member score st).2 key.
Proof.
  intros Hscore Hs. unfold zadd.
  destruct (live now st key) as [e|] eqn:Hl.
  - destruct (Hs e (live_lookup _ _ _ _ Hl)) as (z & Hz & Hpos). rewrite Hz.
    destruct (existsb _ z); simpl; apply scores_sound_insert.
    + apply Forall_forall. intros q Hq.
      apply list_elem_of_In, in_map_iff in Hq as (q' & <- & Hq').
      destruct (String.eqb (fst q') member); [done|].
      rewrite Forall_forall in Hpos. apply Hpos. by apply list_elem_of_In.
    + apply Forall_app. split; [done|]. by repeat constructor.
  - simpl. apply scores_sound_insert. by repeat constructor.
Qed.

Lemma pexpire_sound now key ms (st : redis) :
  scores_sound st key -> scores_sound (pexpire now key ms st).2 key.
Proof.
  intros Hs. unfold pexpire.
  destruct (live now st key) as [e|] eqn:Hl; [|done].
  destruct (ms <=? 0); simpl; [apply scores_sound_delete|].
  destruct (Hs e (live_lookup _ _ _ _ Hl)) as (z & -> & Hpos).
  by apply scores_sound_insert.
Qed.

(** A sliding-window call at an instant that is not negative keeps the
    scores under its key sound, whatever its inputs. *)
Lemma sliding_keeps_scores (NAMESPACE : string) (now : Z) (nonce id_ : string)
    (limit w : Z) (st : redis) :
  0 <= now ->
  scores_sound st (k NAMESPACE id_) ->
  scores_sound (_sliding_window NAMESPACE now nonce id_ limit w st).2
    (k NAMESPACE id_).
Proof.
  intros Hnow Hs. unfold _sliding_window.
  pose proof (zrem_sound now (k NAMESPACE id_) 0 (now - w) st Hs) as Hs1.
  destruct (zremrangebyscore now (k NAMESPACE id_) 0 (now - w) st)
    as [trimmed st1]. simpl in Hs1.
  destruct trimmed as [n|]; [|done].
  destruct (zcard now (k NAMESPACE id_) st1) as [count|]; [|done].
  destruct (limit <=? count).
  - by destruct (zrange_0_0 now (k NAMESPACE id_) st1).
  - pose proof (zadd_sound now (k NAMESPACE id_)
                  (PyStr.str_int now +:+ "-" +:+ nonce) now st1 Hnow Hs1) as Hs2.
    destruct (zadd now (k NAMESPACE id_) _ now st1) as [added st2].
    simpl in Hs2.
    pose proof (pexpire_sound now (k NAMESPACE id_) (w + 60000) st2 Hs2) as Hs3.
    destruct (pexpire now (k NAMESPACE id_) (w + 60000) st2) as [r st3].
    simpl in Hs3. destruct added; [|done].
    by destruct (zrange_0_0 now (k NAMESPACE id_) st3).
Qed.

Section Fixed.
Variable NAMESPACE : string.

Lemma bucket_bounds (t W b : Z) :
  1 <= W -> t / W = b -> b * W <= t < (b + 1) * W.
Proof.
  intros HW <-.
  pose proof (Z.div_mod t W ltac:(lia)).
  pose proof (Z.mod_pos_bound t W ltac:(lia)). nia.
Qed.

Lemma fixed_window_step (t : Z) (id_ : string) (N W b c : Z) (st : redis) :
  1 <= W -> t / W = b -> 0 <= c ->
  bucket_counts (fw_key NAMESPACE id_ b) b W c st ->
  exists st',
    fixed_window NAMESPACE t id_ N W st = (Some (fixed_answer N W b c t), st') /\
    bucket_counts (fw_key NAMESPACE id_ b) b W (c + 1) st'.
Proof.
  intros HW Hb Hc Hinv.
  pose proof (bucket_bounds t W b HW Hb) as Ht.
  unfold fixed_window. rewrite Hb. fold (fw_key NAMESPACE id_ b).
  set (key := fw_key NAMESPACE id_ b) in *.
  assert (Z.max 0 (ceil_div ((b + 1) * W - t) 1000)
          = ceil_div ((b + 1) * W - t) 1000) as Hmax.
  { pose proof (ceil_div_pos ((b + 1) * W - t) 1000). lia. }
  assert ((W <=? 0) = false) as HW0 by (apply Z.leb_gt; lia).
  destruct Hinv as [[-> Hn]|[Hc' (e & He' & He)]].
  - unfold incr, live. rewrite Hn.
    unfold pexpire. rewrite live_insert. unfold expired. simpl.
    rewrite HW0. eexists. split.
    + unfold fixed_answer. simpl. rewrite Hmax. done.
    + right. split; [lia|]. eexists. rewrite lookup_insert_eq.
      split; [done|]. lia.
  - assert ((e <=? t) = false) as Hx by (apply Z.leb_gt; lia).
    unfold incr, live. rewrite He'. unfold expired. simpl. rewrite Hx.
    simpl. unfold pexpire. rewrite live_insert. unfold expired. simpl.
    rewrite Hx, HW0. eexists. split.
    + unfold fixed_answer. rewrite Hmax. done.
    + right. split; [lia|]. eexists. rewrite lookup_insert_eq.
      split; [done|]. lia.
Qed.

Lemma ratelimit_fixed (t : Z) (nonce id_ : string) (N W : Z) (st : redis) :
  PyStr.strip id_ <> "" -> W <> 0 ->
  ratelimit NAMESPACE t nonce (mk_request id_ N W "fixed") st
  = (answer (fixed_window NAMESPACE t (PyStr.strip id_) N W st).1,
     (fixed_window NAMESPACE t (PyStr.strip id_) N W st).2).
Proof.
  intros Hid HW. unfold ratelimit, mk_request.
  cbn [b_id b_limit b_windowMs b_algo read_int read_algo].
  change (read_id (IdString id_)) with (PyStr.strip id_).
  apply String.eqb_neq in Hid. rewrite Hid.
  change (PyStr.lower "fixed") with "fixed".
  change ("fixed" =? "sliding")%string with false.
  change ("fixed" =? "fixed")%string with true.
  cbn iota.
  apply Z.eqb_neq in HW. rewrite HW.
  by destruct (fixed_window _ _ _ _ _ _).
Qed.

Lemma run_fixed_calls (id_ : string) (N W b : Z) (calls : list (Z * string)) :
  1 <= W -> PyStr.strip id_ <> "" ->
  Forall (fun call => fst call / W = b) calls ->
  forall (c : Z) (st : redis),
    0 <= c ->
    bucket_counts (fw_key NAMESPACE (PyStr.strip id_) b) b W c st ->
    (run_calls NAMESPACE
       (map (fun call => (fst call, snd call, mk_request id_ N W "fixed")) calls)
       st).1
    = Answer <$> fixed_answers N W b c calls.
Proof.
  intros HW Hid Hcalls. induction Hcalls as [|[t nonce] calls Ht _ IH];
    intros c st Hc Hinv; [done|].
  simpl in Ht. cbn [map run_calls fst snd].
  rewrite ratelimit_fixed by (done || lia).
  destruct (fixed_window_step t (PyStr.strip id_) N W b c st HW Ht Hc Hinv)
    as (st' & -> & Hinv').
  simpl. specialize (IH (c + 1) st' ltac:(lia) Hinv').
  destruct (run_calls _ _ st') as [rs st2]. simpl in *. by rewrite IH.
Qed.

Lemma fixed_answers_length N W b c calls :
  length (fixed_answers N W b c calls) = length calls.
Proof. revert c. induction calls; intros c; simpl; auto. Qed.

Lemma fixed_answers_lookup N W b calls :
  forall c (i : nat) r,
    fixed_answers N W b c calls !! i = Some r ->
    exists call, calls !! i = Some call /\
                 r = fixed_answer N W b (c + Z.of_nat i) (fst call).
Proof.
  induction calls as [|call calls IH]; intros c i r; [done|].
  destruct i as [|i]; simpl.
  - intros [= <-]. exists call. split; [done|]. f_equal. lia.
  - intros Hr. destruct (IH _ _ _ Hr) as (call' & Hcall & ->).
    exists call'. split; [done|]. f_equal. lia.
Qed.

Lemma fixed_answers_denied N W b calls :
  forall c, N <= c ->
    allow <$> fixed_answers N W b c calls = replicate (length calls) false.
Proof.
  induction calls as [|call calls IH]; intros c Hc; [done|].
  simpl. rewrite IH by lia. f_equal. apply Z.leb_gt. lia.
Qed.

Lemma fixed_answers_allowed N W b (n : nat) :
  forall calls c (j : nat),
    0 <= c -> N - c = Z.of_nat n -> length calls = (n + j)%nat ->
    allow <$> fixed_answers N W b c calls
    = (replicate n true ++ replicate j false)%list.
Proof.
  induction n as [|n IH]; intros calls c j Hc HN Hlen.
  - simpl in *. rewrite fixed_answers_denied by lia. by rewrite Hlen.
  - destruct calls as [|call calls]; [done|]. simpl in Hlen.
    cbn [fixed_answers]. rewrite fmap_cons, (IH calls (c + 1) j) by lia.
    simpl. f_equal. apply Z.leb_le. lia.
Qed.

(** C3.  [N + k] synchronous fixed-window calls for one id, limit
    [N >= 1] and width [W >= 1] below 2^53 (where the quotient the
    code takes in floating point has the exact ceiling), at instants that all lie in bucket
    [b = floor(now / W)] whose counter key does not exist yet, are
    answered by exactly [N] allows followed by [k] denies; every
    answer carries [reset = (b + 1) * W]; every deny carries
    [remaining = 0] and [retryAfter = ceil((reset - now)/1000)];
    the [i]-th call (from 0) is allowed exactly when the
    incremented counter [i + 1] is at most the limit. *)
Theorem fixed_window_burst (id_ : string) (N W b : Z) (j : nat)
    (calls : list (Z * string)) (st : redis) :
  1 <= N -> 1 <= W < 2 ^ 53 -> (1 <= j)%nat ->
  PyStr.strip id_ <> "" ->
  length calls = (Z.to_nat N + j)%nat ->
  Forall (fun call => fst call / W = b) calls ->
  st !! fw_key NAMESPACE (PyStr.strip id_) b = None ->
  exists results : list result,
    (run_calls NAMESPACE
       (map (fun call => (fst call, snd call, mk_request id_ N W "fixed")) calls)
       st).1 = Answer <$> results /\
    allow <$> results
      = (replicate (Z.to_nat N) true ++ replicate j false)%list /\
    Forall (fun r => reset r = (b + 1) * W) results /\
    Forall2 (fun call r =>
               allow r = false ->
               remaining r = 0 /\
               retryAfter r = Some (ceil_div (reset r - fst call) 1000))
            calls results /\
    (forall (i : nat) r, results !! i = Some r ->
       allow r = bool_decide (Z.of_nat i + 1 <= N)).
Proof.
  intros HN [HW _] Hj Hid Hlen Hcalls Hfresh.
  exists (fixed_answers N W b 0 calls).
  split; [|split; [|split; [|split]]].
  - apply run_fixed_calls; [done..|lia|]. left. done.
  - apply fixed_answers_allowed; [lia|lia|done].
  - apply Forall_forall. intros r Hr.
    apply list_elem_of_lookup in Hr as [i Hr].
    apply fixed_answers_lookup in Hr as (call & _ & ->). done.
  - apply Forall2_same_length_lookup. split.
    + by rewrite fixed_answers_length.
    + intros i call r Hcall Hr.
      apply fixed_answers_lookup in Hr as (call' & Hcall' & ->).
      assert (call' = call) as -> by congruence.
      unfold fixed_answer. simpl.
      destruct (0 + Z.of_nat i + 1 <=? N); [done|]. done.
  - intros i r Hr.
    apply fixed_answers_lookup in Hr as (call & _ & ->).
    unfold fixed_answer. simpl.
    destruct (bool_decide_reflect (Z.of_nat i + 1 <= N)) as [Hd|Hd].
    + apply Z.leb_le. lia.
    + apply Z.leb_gt. lia.
Qed.

End Fixed.

Lemma fixed_window_burst_witness :
  exists results : list result,
    (run_calls "ratelimit:"
       (map (fun call => (fst call, snd call, mk_request "y" 2 1000 "fixed"))
            [(0, "a"); (1, "b"); (999, "c")]) ∅).1 = Answer <$> results /\
    allow <$> results = [true; true; false].
Proof.
  destruct (fixed_window_burst "ratelimit:" "y" 2 1000 0 1
              [(0, "a"); (1, "b"); (999, "c")] ∅)
    as (results & Hrun & Hallow & _).
  - lia.
  - lia.
  - lia.
  - vm_compute. discriminate.
  - reflexivity.
  - repeat constructor.
  - apply lookup_empty.
  - exists results. split; [exact Hrun|exact Hallow].
Defined.

(** *** Validation *)

Lemma not_400_answer (o : option result) : ~ is_400 (answer o).
Proof. destruct o; simpl; tauto. Qed.

(** What the handler does with a request it reads: the id is checked
    first, then the algorithm. *)
Lemma ratelimit_read (NAMESPACE : string) (now : Z) (nonce : string) (b : body)
    (st : redis) (limit window_ms : Z) (algo : string) :
  read_int 5 (b_limit b) = Some limit ->
  read_int 10000 (b_windowMs b) = Some window_ms ->
  read_algo (b_algo b) = Some algo ->
  let id_ := read_id (b_id b) in
  let r := ratelimit NAMESPACE now nonce (Json b) st in
  (id_ = "" \/ (algo <> "sliding" /\ algo <> "fixed") -> is_400 r.1 /\ r.2 = st) /\
  (id_ <> "" -> algo = "sliding" \/ algo = "fixed" -> ~ is_400 r.1).
Proof.
  intros Hl Hw Ha id_ r. subst r. unfold ratelimit. rewrite Hl, Hw, Ha.
  fold id_.
  destruct (String.eqb_spec id_ "") as [Hid|Hid]; [simpl; tauto|].
  destruct (String.eqb_spec algo "sliding") as [Hs|Hs].
  - destruct (_sliding_window _ _ _ _ _ _ _) as [o st'] eqn:Hrun. simpl.
    pose proof (not_400_answer o). split; [intros [?|[? ?]]; done|tauto].
  - destruct (String.eqb_spec algo "fixed") as [Hf|Hf].
    + destruct (window_ms =? 0); simpl.
      * split; [intros [?|[? ?]]; done|tauto].
      * destruct (fixed_window _ _ _ _ _ _) as [o st'] eqn:Hrun. simpl.
        pose proof (not_400_answer o). split; [intros [?|[? ?]]; done|tauto].
    + simpl. split; [done|]. intros _ [?|?]; done.
Qed.

Lemma classic_readable (b : body) : readable b \/ ~ readable b.
Proof.
  unfold readable. destruct b as [i l w a]. simpl.
  destruct l as [|l|]; [| |right; tauto];
    (destruct w as [|w|]; [| |right; tauto]);
    (destruct a as [|a|]; [| |right; tauto]); left; by repeat split.
Qed.

Lemma readable_reads (b : body) :
  readable b ->
  exists limit window_ms,
    read_int 5 (b_limit b) = Some limit /\
    read_int 10000 (b_windowMs b) = Some window_ms /\
    read_algo (b_algo b) = Some (effective_algo b).
Proof.
  unfold readable, effective_algo. destruct b as [i l w a]. simpl.
  intros (Hl & Hw & Ha).
  destruct l as [|l|]; [| |done]; destruct w as [|w|]; [| |done| | |done];
    (destruct a as [|[|c a]|]; [| | |done]); simpl; by eexists _, _.
Qed.

Lemma unreadable_500 (NAMESPACE : string) (now : Z) (nonce : string) (b : body)
    (st : redis) :
  ~ readable b ->
  ratelimit NAMESPACE now nonce (Json b) st
  = (HttpError 500 "Internal Server Error", st).
Proof.
  unfold readable, ratelimit. destruct b as [i l w a]. simpl. intros Hn.
  destruct l as [|l|]; destruct w as [|w|]; destruct a as [|[|c a]|]; simpl;
    try done; exfalso; apply Hn; by repeat split.
Qed.

(** A request answered 400 has changed nothing. *)
Lemma refused_keeps_store (NAMESPACE : string) (now : Z) (nonce : string)
    (req : request) (st : redis) :
  is_400 (ratelimit NAMESPACE now nonce req st).1 ->
  (ratelimit NAMESPACE now nonce req st).2 = st.
Proof.
  destruct req as [| |b]; [done..|].
  destruct (read_int 5 (b_limit b)) as [limit|] eqn:Hl;
    [|unfold ratelimit; by rewrite Hl].
  destruct (read_int 10000 (b_windowMs b)) as [window_ms|] eqn:Hw;
    [|unfold ratelimit; by rewrite Hl, Hw].
  destruct (read_algo (b_algo b)) as [algo|] eqn:Ha;
    [|unfold ratelimit; by rewrite Hl, Hw, Ha].
  destruct (ratelimit_read NAMESPACE now nonce b st _ _ _ Hl Hw Ha) as [Hyes Hno].
  intros H400.
  destruct (String.eqb_spec (read_id (b_id b)) "") as [Hid|Hid];
    [by apply Hyes; left|].
  destruct (String.eqb_spec algo "sliding") as [Hs|Hs];
    [by destruct (Hno Hid (or_introl Hs))|].
  destruct (String.eqb_spec algo "fixed") as [Hf|Hf];
    [by destruct (Hno Hid (or_intror Hf))|].
  apply Hyes. by right.
Qed.

(** C5, as the handler has it.  A request is answered 400 exactly
    when its body is not JSON, or is an object whose limit, window and
    algorithm can be read and whose id is missing or empty once the
    surrounding whitespace is stripped, or whose algorithm
    (lower-cased, sliding when missing, falsy or empty) is neither
    sliding nor fixed; such a request leaves the store as it was.  A
    body that is JSON but no object, or whose limit, window or
    algorithm cannot be read, is answered 500 before the id is
    looked at, and leaves the store as it was too.  The limit and the
    window are not range-checked. *)
Theorem validation_rejects (NAMESPACE : string) (now : Z) (nonce : string)
    (req : request) (st : redis) :
  (is_400 (ratelimit NAMESPACE now nonce req st).1 <-> rejected req) /\
  (rejected req -> (ratelimit NAMESPACE now nonce req st).2 = st) /\
  (unreadable req ->
   ratelimit NAMESPACE now nonce req st
   = (HttpError 500 "Internal Server Error", st)).
Proof.
  destruct req as [| |b].
  - simpl. tauto.
  - simpl. tauto.
  - cbn [rejected unreadable].
    split; [|split; [|apply unreadable_500]].
    + split.
      * intros H400. assert (readable b) as Hr.
        { destruct (classic_readable b) as [Hr|Hr]; [done|].
          rewrite (unreadable_500 _ _ _ _ _ Hr) in H400. done. }
        split; [done|]. destruct (readable_reads b Hr) as (l & w & Hl & Hw & Ha).
        destruct (ratelimit_read NAMESPACE now nonce b st _ _ _ Hl Hw Ha)
          as [_ Hno].
        change (read_id (b_id b)) with (PyStr.strip (id_text b)) in Hno.
        destruct (String.eqb_spec (PyStr.strip (id_text b)) "") as [Hid|Hid];
          [by left|].
        right. split; intros Heq; apply (Hno Hid); auto.
      * intros [Hr Hbad]. destruct (readable_reads b Hr) as (l & w & Hl & Hw & Ha).
        destruct (ratelimit_read NAMESPACE now nonce b st _ _ _ Hl Hw Ha)
          as [Hyes _].
        by apply Hyes.
    + intros [Hr Hbad]. destruct (readable_reads b Hr) as (l & w & Hl & Hw & Ha).
      destruct (ratelimit_read NAMESPACE now nonce b st _ _ _ Hl Hw Ha)
        as [Hyes _].
      by apply Hyes.
Qed.

(** C5, as the specification words it, fails: a limit of 0 is outside
    the contract, yet the request is answered 200 and the counter of
    its bucket is incremented. *)
Lemma limit_zero_not_refused : ~ invalid_inputs_refused "ratelimit:".
Proof.
  intros H.
  destruct (H 0 "n" (mkBody (IdString "x") (IntOf 0) (IntOf 1000)
                       (AlgoString "fixed")) ∅)
    as [H400 _].
  - intros (_ & (l & [= <-] & Hl) & _). lia.
  - vm_compute in H400. exact H400.
Qed.

Lemma validation_rejects_witness :
  (ratelimit "ratelimit:" 0 "n"
     (Json (mkBody (IdString "  ") (IntOf 3) (IntOf 1000) AlgoFalsy)) ∅).2 = ∅.
Proof.
  refine (proj1 (proj2 (validation_rejects "ratelimit:" 0 "n"
     (Json (mkBody (IdString "  ") (IntOf 3) (IntOf 1000) AlgoFalsy)) ∅)) _).
  split; [repeat split; discriminate|]. left. reflexivity.
Defined.

End RateLimiterFacts.

(** ** Start-up with missing configuration *)

Module BootFacts.

(** C10, as the components have it.  The rate limiter, when
    REDIS_HOST or REDIS_PASSWORD is missing or empty, exits with
    status 1 and creates neither its client nor its application.  The
    reconciler, when the provider token or the base domain is missing
    or empty, issues no call to the provider and writes no health
    file; it exits with status 0 (silently) when the Traefik config
    exists and with status 1 when it does not. *)
Theorem boot_without_config :
  (forall (py_int : string -> option Z) (environ : gmap string string),
      RateLimiterBoot.truthy (environ !! "REDIS_HOST") = false \/
      RateLimiterBoot.truthy (environ !! "REDIS_PASSWORD") = false ->
      RateLimiterBoot.module_init py_int environ = RateLimiterBoot.Exit 1) /\
  (forall w : Reconciler.world,
      Reconciler.truthy (Reconciler.CLOUDFLARE_API_TOKEN w) = false \/
      Reconciler.DOMAIN_BASE w = "" ->
      Reconciler.issued_calls (Reconciler.main w) = [] /\
      Reconciler.health_written (Reconciler.main w) = false /\
      Reconciler.exit_code (Reconciler.main w)
        = if Reconciler.config_exists w then 0 else 1).
Proof.
  split.
  - intros py_int environ H. unfold RateLimiterBoot.module_init.
    destruct (RateLimiterBoot.truthy (environ !! "REDIS_HOST")); [|done].
    destruct H as [H|H]; [done|]. by rewrite H.
  - intros w H. unfold Reconciler.main.
    destruct (Reconciler.config_exists w); [|done]. simpl.
    destruct (Reconciler.truthy (Reconciler.CLOUDFLARE_API_TOKEN w));
      [|done].
    destruct H as [H|H]; [done|]. rewrite H. done.
Qed.

(** C10, as the specification words it, fails for the reconciler:
    without a provider token it exits with status 0. *)
Lemma reconciler_exits_zero_without_token :
  let w := Reconciler.mkWorld None "example.com" true (Some [])
             (Reconciler.mkLookups None None None)
             (fun _ => Reconciler.Succeeded) in
  Reconciler.truthy (Reconciler.CLOUDFLARE_API_TOKEN w) = false /\
  ~ (Reconciler.exit_code (Reconciler.main w) <> 0).
Proof. split; [reflexivity|]. intros H. apply H. reflexivity. Qed.

Lemma boot_without_config_witness :
  RateLimiterBoot.module_init (fun _ => None)
    {["REDIS_PASSWORD" := "secret"]} = RateLimiterBoot.Exit 1.
Proof.
  refine (proj1 boot_without_config (fun _ => None)
            {["REDIS_PASSWORD" := "secret"]} _).
  left. reflexivity.
Defined.

End BootFacts.

(** ** The workers: claim and terminal writes *)

Module WorkerFacts.
Import Worker.

(** *** Terminal writes *)

(** C4, as the workers have it.  A terminal write applies to the row
    whose id is the job's, whatever its status and its worker id:
    COMPLETED with progress 100, completedAt and outputData, or FAILED
    with errorMessage and completedAt; a missing row stays missing and
    no other row changes. *)
Theorem terminal_write_unconditional (job_id : string) (o : adapter_outcome)
    (now : Z) (tb : table) :
  terminal_write job_id o now tb !! job_id = terminated o now <$> tb !! job_id /\
  (forall other, other <> job_id ->
     terminal_write job_id o now tb !! other = tb !! other).
Proof.
  split.
  - destruct o; simpl; unfold update_completed, update_failed;
      by rewrite lookup_alter_eq.
  - intros other Hne.
    destruct o; simpl; unfold update_completed, update_failed;
      by rewrite lookup_alter_ne.
Qed.

(** C4, as the specification words it, fails: a row cancelled while
    the adapter ran is overwritten by the COMPLETED write. *)
Lemma cancelled_row_overwritten : ~ terminal_writes_guarded.
Proof.
  intros H.
  destruct (H "asr-1-host" "j" (Returned "{}") 9
              {["j" := mkJob "TRANSCRIPTION" (Fields []) CANCELLED 0
                         (Some "asr-1-host") (Some 1) None None None]}
              (mkJob "TRANSCRIPTION" (Fields []) CANCELLED 0 (Some "asr-1-host")
                     (Some 1) None None None)) as [Hst _].
  - reflexivity.
  - vm_compute. discriminate.
  - discriminate.
Qed.

(** *** The claim *)

(** A popped id whose row is not QUEUED is dropped: nothing is
    returned and the table is as before. *)
Lemma try_queue_discards (worker_id : string) (now : Z) (queue : string)
    (s : sys) (job_id : string) (qs' : queues) :
  brpop queue 1 (qs s) = Some (job_id, qs') ->
  select_queued job_id (db s) = None ->
  try_queue worker_id now queue s
  = (Some None, mkSys (db s) qs' (pops s ++ [(queue, 1)])).
Proof. intros Hpop Hsel. unfold try_queue. rewrite Hpop. simpl. by rewrite Hsel. Qed.

Lemma update_running_lookup (job_id worker_id : string) (now : Z) (tb : table) :
  update_running job_id worker_id now tb !! job_id
  = claimed_row worker_id now <$> tb !! job_id.
Proof. unfold update_running. by rewrite lookup_alter_eq. Qed.

Lemma update_running_other (job_id worker_id : string) (now : Z) (tb : table)
    (other : string) :
  other <> job_id -> update_running job_id worker_id now tb !! other = tb !! other.
Proof. intros Hne. unfold update_running. by rewrite lookup_alter_ne. Qed.

(** A claim marks the row RUNNING under the worker's id, and then
    builds the dictionary. *)
Lemma try_queue_claims (worker_id : string) (now : Z) (queue : string)
    (s : sys) (job_id : string) (qs' : queues) (row : job) :
  brpop queue 1 (qs s) = Some (job_id, qs') ->
  db s !! job_id = Some row -> j_status row = QUEUED ->
  try_queue worker_id now queue s
  = (build_job job_id row,
     mkSys (update_running job_id worker_id now (db s)) qs'
           (pops s ++ [(queue, 1)])).
Proof.
  intros Hpop Hrow Hq. unfold try_queue, select_queued. rewrite Hpop. simpl.
  rewrite Hrow. by destruct (decide (j_status row = QUEUED)).
Qed.

Lemma build_job_cases (job_id : string) (row : job) :
  build_job job_id row = None \/
  exists fields,
    inputData row = Fields fields /\
    build_job job_id row = Some (Some (job_dict job_id (j_type row) fields)).
Proof.
  unfold build_job. destruct (inputData row) as [fields|]; [|by left].
  right. by exists fields.
Qed.

(** C1 at its failing input: the same id twice on one queue, two
    workers whose statements alternate.  Both SELECTs see the row
    QUEUED before either UPDATE runs, the UPDATE carries no condition
    on the status, and both workers leave [get_next_job] with the
    job. *)
Theorem two_workers_claim_one_job :
  let row := mkJob "TRANSCRIPTION" (Fields []) QUEUED 0 None None None None None in
  let c0 := mkCluster
              (mkSys {["j" := row]} {["queue:TRANSCRIPTION:NORMAL" := ["j"; "j"]]} [])
              {["w1" := AtQueue ["queue:TRANSCRIPTION:NORMAL"];
                "w2" := AtQueue ["queue:TRANSCRIPTION:NORMAL"]]} in
  let c := run 7 ["w1"; "w2"; "w1"; "w2"; "w1"; "w2"] c0 in
  observers "j" c = ["w1"; "w2"] /\
  (db (store c) !! "j") ≫= workerId = Some "w2".
Proof. vm_compute. done. Qed.

(** *** One fetch at a time

    When fetches do not overlap, the SELECT and the UPDATE of a fetch
    see the same row, and a row is claimed once. *)

(** What one queue does to the table: nothing, with the loop going
    on, or a claim of a QUEUED row, with the dictionary or the
    exception of its input. *)
Lemma try_queue_db (worker_id : string) (now : Z) (queue : string) (s : sys) :
  (exists s', try_queue worker_id now queue s = (Some None, s') /\ db s' = db s) \/
  exists job_id row s',
    db s !! job_id = Some row /\ j_status row = QUEUED /\
    try_queue worker_id now queue s = (build_job job_id row, s') /\
    db s' = update_running job_id worker_id now (db s).
Proof.
  unfold try_queue. destruct (brpop queue 1 (qs s)) as [[job_id qs']|];
    [|left; by eexists].
  simpl. unfold select_queued.
  destruct (db s !! job_id) as [row|] eqn:Hrow; [|left; by eexists].
  destruct (decide (j_status row = QUEUED)) as [Hq|]; [|left; by eexists].
  right. exists job_id, row. by eexists.
Qed.

Lemma try_queue_none_db (worker_id : string) (now : Z) (queue : string)
    (s s' : sys) :
  try_queue worker_id now queue s = (Some None, s') -> db s' = db s.
Proof.
  intros Htry.
  destruct (try_queue_db worker_id now queue s)
    as [(s1 & Heq & Hdb)|(job_id & row & s1 & _ & _ & Heq & _)];
    rewrite Heq in Htry.
  - by injection Htry as <-.
  - injection Htry as Hb _.
    by destruct (build_job_cases job_id row) as [Hc|(fields & _ & Hc)];
      rewrite Hc in Hb.
Qed.

Lemma scan_db (worker_id : string) (now : Z) (names : list string) :
  forall s,
    (exists s', scan worker_id now names s = (Some None, s') /\ db s' = db s) \/
    exists job_id row s',
      db s !! job_id = Some row /\ j_status row = QUEUED /\
      scan worker_id now names s = (build_job job_id row, s') /\
      db s' = update_running job_id worker_id now (db s).
Proof.
  induction names as [|queue names IH]; intros s; simpl; [left; by eexists|].
  destruct (try_queue_db worker_id now queue s)
    as [(s1 & -> & Hdb)|(job_id & row & s1 & Hrow & Hq & -> & Hdb)].
  - destruct (IH s1)
      as [(s2 & -> & Hdb2)|(job_id & row & s2 & Hrow & Hq & -> & Hdb2)].
    + left. eexists. split; [done|]. by rewrite Hdb2.
    + right. exists job_id, row, s2. rewrite <- Hdb. done.
  - right. exists job_id, row, s1. repeat (split; [done|]). split; [|done].
    by destruct (build_job_cases job_id row) as [->|(fields & _ & ->)].
Qed.

Lemma update_running_not_queued (job_id worker_id : string) (now : Z)
    (tb : table) (other : string) :
  j_status <$> tb !! other <> Some QUEUED ->
  j_status <$> update_running job_id worker_id now tb !! other <> Some QUEUED.
Proof.
  intros Hother. unfold update_running.
  destruct (decide (job_id = other)) as [->|Hne].
  - rewrite lookup_alter_eq. by destruct (tb !! other).
  - by rewrite lookup_alter_ne.
Qed.

Lemma scan_keeps_not_queued (worker_id : string) (now : Z) (names : list string)
    (s : sys) (other : string) :
  j_status <$> db s !! other <> Some QUEUED ->
  j_status <$> db (scan worker_id now names s).2 !! other <> Some QUEUED.
Proof.
  intros Hother.
  destruct (scan_db worker_id now names s)
    as [(s' & -> & Hdb)|(job_id & row & s' & _ & _ & -> & Hdb)]; simpl;
    rewrite Hdb; [done|].
  by apply update_running_not_queued.
Qed.

(** A fetch leaves every row alone that is not QUEUED. *)
Lemma scan_keeps_row (worker_id : string) (now : Z) (names : list string)
    (s : sys) (other : string) :
  j_status <$> db s !! other <> Some QUEUED ->
  db (scan worker_id now names s).2 !! other = db s !! other.
Proof.
  intros Hother.
  destruct (scan_db worker_id now names s)
    as [(s' & -> & Hdb)|(job_id & row & s' & Hrow & Hq & -> & Hdb)]; simpl;
    rewrite Hdb; [done|].
  apply update_running_other. intros ->. rewrite Hrow in Hother.
  simpl in Hother. by rewrite Hq in Hother.
Qed.

Lemma after_fetches_keeps_not_queued (fetches : list (string * Z * list string))
    (s : sys) (other : string) :
  j_status <$> db s !! other <> Some QUEUED ->
  j_status <$> db (after_fetches fetches s) !! other <> Some QUEUED.
Proof.
  revert s. induction fetches as [|[[w t] names] fetches IH]; intros s Hs; [done|].
  simpl. apply IH. by apply scan_keeps_not_queued.
Qed.

(** A row claimed by one fetch is claimed by no later fetch, as long
    as fetches run one after the other: the later fetch leaves the row
    as it finds it. *)
Lemma claimed_once_in_sequence (worker_id : string) (now : Z)
    (names : list string) (s : sys) (job_id : string)
    (fetches : list (string * Z * list string))
    (worker_id' : string) (now' : Z) (names' : list string) :
  let s1 := (scan worker_id now names s).2 in
  db s1 !! job_id <> db s !! job_id ->
  let s2 := after_fetches fetches s1 in
  db (scan worker_id' now' names' s2).2 !! job_id = db s2 !! job_id.
Proof.
  cbn zeta. intros Hclaimed. apply scan_keeps_row.
  apply after_fetches_keeps_not_queued.
  destruct (scan_db worker_id now names s)
    as [(s' & Heq & Hdb)|(claimed_id & row & s' & Hrow & Hq & Heq & Hdb)];
    rewrite Heq in *; simpl in *; rewrite Hdb in *; [done|].
  destruct (decide (job_id = claimed_id)) as [->|Hne].
  - rewrite update_running_lookup, Hrow. done.
  - by rewrite update_running_other in Hclaimed.
Qed.

(** *** The scan of the queues *)

Lemma brpop_empty (queue : string) (s : sys) :
  is_empty_queue s queue -> brpop queue 1 (qs s) = None.
Proof. unfold is_empty_queue, brpop. by intros ->. Qed.

(** A pop takes the right end of the list and leaves the rest. *)
Lemma brpop_tail (queue : string) (q : queues) (l : list string) (job_id : string) :
  q !! queue = Some (l ++ [job_id])%list ->
  exists q', brpop queue 1 q = Some (job_id, q') /\ popped queue l q q'.
Proof.
  intros Hq. unfold brpop. rewrite Hq. simpl.
  rewrite reverse_app. simpl.
  eexists. split; [reflexivity|]. split.
  - destruct (reverse l) as [|x rest] eqn:Hrev.
    + rewrite lookup_delete_eq. simpl.
      apply (f_equal reverse) in Hrev. by rewrite reverse_involutive in Hrev.
    + rewrite lookup_insert_eq. simpl. rewrite <- Hrev.
      apply reverse_involutive.
  - intros other Hne. destruct (reverse l).
    + by rewrite lookup_delete_ne.
    + by rewrite lookup_insert_ne.
Qed.

Section Scan.
Variable worker_id : string.
Variable now : Z.

Lemma scan_app (names1 names2 : list string) (s : sys) :
  scan worker_id now (names1 ++ names2) s
  = match scan worker_id now names1 s with
    | (Some None, s') => scan worker_id now names2 s'
    | r => r
    end.
Proof.
  revert s. induction names1 as [|queue names1 IH]; intros s; simpl; [done|].
  destruct (try_queue worker_id now queue s) as [[[j|]|] s']; [done| |done].
  apply IH.
Qed.

Lemma scan_priorities_flat (job_type : string) (ps : list string) (s : sys) :
  scan_priorities worker_id now job_type ps s
  = scan worker_id now (map (queue_name job_type) ps) s.
Proof.
  revert s. induction ps as [|priority ps IH]; intros s; simpl; [done|].
  destruct (try_queue _ _ _ s) as [[[j|]|] s']; [done| |done]. apply IH.
Qed.

Lemma scan_types_flat (ts : list string) (s : sys) :
  scan_types worker_id now ts s
  = scan worker_id now (product_queues ts priorities) s.
Proof.
  revert s. induction ts as [|job_type ts IH]; intros s; [done|].
  unfold product_queues in *. cbn [scan_types mbind list_bind].
  rewrite scan_app, scan_priorities_flat.
  replace (priority ← priorities; [queue_name job_type priority])
    with (map (queue_name job_type) priorities) by reflexivity.
  destruct (scan worker_id now _ s) as [[[j|]|] s']; [done| |done]. apply IH.
Qed.

Lemma try_queue_pops (queue : string) (s : sys) :
  pops (try_queue worker_id now queue s).2 = (pops s ++ [(queue, 1)])%list.
Proof.
  unfold try_queue. destruct (brpop queue 1 (qs s)) as [[job_id qs']|]; [|done].
  simpl. by destruct (select_queued job_id (db s)).
Qed.

(** The pops of a scan are attempted in the order of the list, each
    with a timeout of 1 s; a scan that returns nothing has tried
    them all. *)
Lemma scan_pops (names : list string) (s : sys) :
  exists attempted rest,
    names = (attempted ++ rest)%list /\
    pops (scan worker_id now names s).2
      = (pops s ++ map (fun queue => (queue, 1)) attempted)%list /\
    ((scan worker_id now names s).1 = Some None -> rest = []).
Proof.
  revert s. induction names as [|queue names IH]; intros s; simpl.
  - exists [], []. split; [done|]. simpl. split; [by rewrite app_nil_r|done].
  - pose proof (try_queue_pops queue s) as Hpop.
    destruct (try_queue worker_id now queue s) as [[[j|]|] s'] eqn:Htry;
      simpl in Hpop.
    + exists [queue], names. simpl. by rewrite Hpop.
    + destruct (IH s') as (attempted & rest & -> & Hpops & Hnone).
      exists (queue :: attempted), rest. split; [done|].
      split; [|done]. rewrite Hpops, Hpop. simpl. by rewrite <- app_assoc.
    + exists [queue], names. simpl. by rewrite Hpop.
Qed.

(** The queues that are empty are passed over. *)
Lemma scan_skips_empty (before names : list string) (s : sys) :
  Forall (is_empty_queue s) before ->
  scan worker_id now (before ++ names) s
  = scan worker_id now names
      (mkSys (db s) (qs s)
             (pops s ++ map (fun queue => (queue, 1)) before)).
Proof.
  revert s. induction before as [|q before IH]; intros s Hbefore; simpl.
  - rewrite app_nil_r. by destruct s.
  - apply Forall_cons in Hbefore as [Hempty Hbefore].
    unfold try_queue at 1. rewrite (brpop_empty _ _ Hempty).
    rewrite IH by done. simpl. by rewrite <- app_assoc.
Qed.

(** The id at the right end of the first queue that is not empty is
    taken off its queue; when its row is QUEUED, the row is marked
    RUNNING and the fetch ends, with the dictionary or with the
    exception of the input. *)
Lemma scan_first (before : list string) (queue : string)
    (after : list string) (s : sys) (l : list string) (job_id : string)
    (row : job) :
  Forall (is_empty_queue s) before ->
  qs s !! queue = Some (l ++ [job_id])%list ->
  db s !! job_id = Some row -> j_status row = QUEUED ->
  exists s',
    scan worker_id now (before ++ queue :: after) s = (build_job job_id row, s') /\
    popped queue l (qs s) (qs s') /\
    db s' = update_running job_id worker_id now (db s).
Proof.
  intros Hbefore Hq Hrow Hst. rewrite scan_skips_empty by done.
  destruct (brpop_tail _ _ _ _ Hq) as (qs' & Hpop & Hpopped).
  simpl. rewrite (try_queue_claims worker_id now queue _ job_id qs' row)
    by done.
  eexists. split;
    [by destruct (build_job_cases job_id row) as [->|(fields & _ & ->)]|done].
Qed.

(** When its row is gone or not QUEUED, the id is dropped, and the
    scan goes on with the queues after the one it came from. *)
Lemma scan_stale (before : list string) (queue : string)
    (after : list string) (s : sys) (l : list string) (job_id : string) :
  Forall (is_empty_queue s) before ->
  qs s !! queue = Some (l ++ [job_id])%list ->
  stale (db s) job_id ->
  exists s1,
    db s1 = db s /\ popped queue l (qs s) (qs s1) /\
    pops s1 = (pops s ++ map (fun queue => (queue, 1)) (before ++ [queue]))%list /\
    scan worker_id now (before ++ queue :: after) s = scan worker_id now after s1.
Proof.
  intros Hbefore Hq Hstale. rewrite scan_skips_empty by done.
  destruct (brpop_tail _ _ _ _ Hq) as (qs' & Hpop & Hpopped).
  assert (select_queued job_id (db s) = None) as Hsel.
  { unfold select_queued, stale in *. destruct (db s !! job_id) as [row|]; [|done].
    by destruct (decide (j_status row = QUEUED)). }
  simpl. rewrite (try_queue_discards worker_id now queue _ job_id qs') by done.
  eexists. split; [|split; [|split; [|reflexivity]]]; simpl; [done|done|].
  by rewrite map_app, app_assoc.
Qed.

End Scan.

(** C6, as the workers have it.  A fetch pops its queues in the order
    of its list, each pop blocking for 1 s at most: URGENT, HIGH,
    NORMAL, LOW for the transcription worker; for the diarization
    worker the queues of its three types, outer by type and inner by
    priority.  The first queue that is not empty loses the id at its
    right end.  When the row of that id is QUEUED, the row is marked
    RUNNING with the worker's id and the instant, no other row
    changes, and the fetch ends: with the dictionary of the row's id
    and type unless the input has keys [jobId] or [type] of its own,
    which replace them, or with an exception when the input is no JSON
    object.  When the row is gone or not QUEUED, the id is dropped,
    the table stays as it is, and the scan goes on with the queues
    after that one.  A transcription worker facing A at LOW, B at
    URGENT and C at NORMAL, enqueued in that order, claims B, then C,
    then A; a job whose input says [jobId] K comes back as K; and
    with U at URGENT behind an id without a row, and B at NORMAL, one
    fetch returns B and leaves U waiting. *)
Theorem priority_scan (worker_id : string) (now : Z) :
  asr_queues
    = map (queue_name "TRANSCRIPTION") ["URGENT"; "HIGH"; "NORMAL"; "LOW"] /\
  (forall s, diarization_get_next_job worker_id now s
             = scan worker_id now
                 (product_queues
                    ["DIARIZATION"; "EMBEDDING_EXTRACTION"; "SPEAKER_CLUSTERING"]
                    ["URGENT"; "HIGH"; "NORMAL"; "LOW"]) s) /\
  (forall names s,
      exists attempted rest,
        names = (attempted ++ rest)%list /\
        pops (scan worker_id now names s).2
          = (pops s ++ map (fun queue => (queue, 1)) attempted)%list /\
        ((scan worker_id now names s).1 = Some None -> rest = [])) /\
  (forall before queue after s l job_id row,
      Forall (is_empty_queue s) before ->
      qs s !! queue = Some (l ++ [job_id])%list ->
      db s !! job_id = Some row -> j_status row = QUEUED ->
      let r := scan worker_id now (before ++ queue :: after) s in
      (forall fields,
          inputData row = Fields fields ->
          r.1 = Some (Some (mkClaimed
                              (default (Text job_id) (lookup_field "jobId" fields))
                              (default (Text (j_type row))
                                       (lookup_field "type" fields))
                              fields))) /\
      (inputData row = Malformed -> r.1 = None) /\
      popped queue l (qs s) (qs r.2) /\
      db r.2 !! job_id = Some (claimed_row worker_id now row) /\
      (forall other, other <> job_id -> db r.2 !! other = db s !! other)) /\
  (forall before queue after s l job_id,
      Forall (is_empty_queue s) before ->
      qs s !! queue = Some (l ++ [job_id])%list ->
      stale (db s) job_id ->
      exists s1,
        db s1 = db s /\ popped queue l (qs s) (qs s1) /\
        pops s1
          = (pops s ++ map (fun queue => (queue, 1)) (before ++ [queue]))%list /\
        scan worker_id now (before ++ queue :: after) s
        = scan worker_id now after s1) /\
  (let s0 := enqueue "C" "TRANSCRIPTION" "NORMAL" (Fields [])
               (enqueue "B" "TRANSCRIPTION" "URGENT" (Fields [])
                  (enqueue "A" "TRANSCRIPTION" "LOW" (Fields []) (mkSys ∅ ∅ []))) in
   let r1 := asr_get_next_job worker_id now s0 in
   let r2 := asr_get_next_job worker_id now r1.2 in
   let r3 := asr_get_next_job worker_id now r2.2 in
   r1.1 = Some (Some (mkClaimed (Text "B") (Text "TRANSCRIPTION") [])) /\
   r2.1 = Some (Some (mkClaimed (Text "C") (Text "TRANSCRIPTION") [])) /\
   r3.1 = Some (Some (mkClaimed (Text "A") (Text "TRANSCRIPTION") []))) /\
  (let s0 := enqueue "J" "TRANSCRIPTION" "HIGH"
               (Fields [("audioUrl", Text "u"); ("jobId", Text "K")])
               (mkSys ∅ ∅ []) in
   let r := asr_get_next_job worker_id now s0 in
   r.1 = Some (Some (mkClaimed (Text "K") (Text "TRANSCRIPTION")
                       [("audioUrl", Text "u"); ("jobId", Text "K")])) /\
   j_status <$> db r.2 !! "J" = Some RUNNING) /\
  (let s0 := enqueue "B" "TRANSCRIPTION" "NORMAL" (Fields [])
               (enqueue "U" "TRANSCRIPTION" "URGENT" (Fields [])
                  (mkSys ∅ {["queue:TRANSCRIPTION:URGENT" := ["ghost"]]} [])) in
   let r := asr_get_next_job worker_id now s0 in
   r.1 = Some (Some (mkClaimed (Text "B") (Text "TRANSCRIPTION") [])) /\
   qs r.2 !! "queue:TRANSCRIPTION:URGENT" = Some ["U"] /\
   j_status <$> db r.2 !! "U" = Some QUEUED).
Proof.
  split; [reflexivity|]. split; [apply scan_types_flat|].
  split; [apply scan_pops|]. split; [|split; [apply scan_stale|]].
  - intros before queue after s l job_id row Hbefore Hq Hrow Hst. cbn zeta.
    destruct (scan_first worker_id now before queue after s l job_id row
                Hbefore Hq Hrow Hst) as (s' & -> & Hpopped & Hdb).
    simpl. rewrite Hdb, update_running_lookup, Hrow. unfold build_job.
    split; [by intros fields ->|]. split; [by intros ->|].
    split; [done|]. split; [done|].
    intros other Hne. by apply update_running_other.
  - split; [|split]; vm_compute; done.
Qed.

Lemma priority_scan_witness :
  let s := mkSys {["B" := mkJob "TRANSCRIPTION" (Fields []) QUEUED 0 None None
                            None None None]}
                 {["queue:TRANSCRIPTION:URGENT" := ["U"; "ghost"];
                   "queue:TRANSCRIPTION:NORMAL" := ["B"]]} [] in
  exists s1,
    db s1 = db s /\
    popped "queue:TRANSCRIPTION:URGENT" ["U"] (qs s) (qs s1) /\
    pops s1 = (pops s ++ [("queue:TRANSCRIPTION:URGENT", 1)])%list /\
    scan "asr-1-host" 5 asr_queues s
    = scan "asr-1-host" 5
        ["queue:TRANSCRIPTION:HIGH"; "queue:TRANSCRIPTION:NORMAL";
         "queue:TRANSCRIPTION:LOW"] s1.
Proof.
  refine (proj1 (proj2 (proj2 (proj2 (proj2 (priority_scan "asr-1-host" 5)))))
            [] "queue:TRANSCRIPTION:URGENT"
            ["queue:TRANSCRIPTION:HIGH"; "queue:TRANSCRIPTION:NORMAL";
             "queue:TRANSCRIPTION:LOW"]
            (mkSys {["B" := mkJob "TRANSCRIPTION" (Fields []) QUEUED 0 None None
                              None None None]}
                   {["queue:TRANSCRIPTION:URGENT" := ["U"; "ghost"];
                     "queue:TRANSCRIPTION:NORMAL" := ["B"]]} [])
            ["U"] "ghost" _ _ _).
  - constructor.
  - reflexivity.
  - vm_compute. exact I.
Defined.

(** C6, as the specification words it, fails: the fetch does not
    always return the first id its pops obtain.  URGENT holds U and,
    at its right end, an id whose row is gone; NORMAL holds B.  The
    fetch takes the id without a row, drops it, goes on to HIGH and
    NORMAL, and returns B; U is still waiting at URGENT. *)
Lemma stale_id_passed_over : ~ returns_first_id_obtained.
Proof.
  intros H.
  destruct (H "asr-1-host" 5 [] "queue:TRANSCRIPTION:URGENT"
              ["queue:TRANSCRIPTION:HIGH"; "queue:TRANSCRIPTION:NORMAL";
               "queue:TRANSCRIPTION:LOW"]
              (mkSys {["U" := mkJob "TRANSCRIPTION" (Fields []) QUEUED 0 None None
                                None None None;
                       "B" := mkJob "TRANSCRIPTION" (Fields []) QUEUED 0 None None
                                None None None]}
                     {["queue:TRANSCRIPTION:URGENT" := ["U"; "ghost"];
                       "queue:TRANSCRIPTION:NORMAL" := ["B"]]} [])
              ["U"] "ghost") as (j & Hj & Hid).
  - constructor.
  - reflexivity.
  - vm_compute in Hj. injection Hj as <-. discriminate.
Qed.

End WorkerFacts.

(** ** The reconciler *)

Module ReconcilerFacts.
Import Reconciler.

(** *** The root record and the fingerprint *)

(** C7 at its failing input: the root record is listed with the right
    address but unproxied.  The pass compares only the content of the
    root record (the helper and the subdomains are also compared on
    [proxied]); it issues no call for the root, which stays
    unproxied. *)
Theorem root_left_unproxied :
  let root := mkRecord "r0" "A" "example.com" "1.2.3.4" (Some false) in
  find_a_record "example.com" [root] = Some root /\
  get_proxied root = false /\
  sync_dns_records "example.com"
    (mkLookups (Some "1.2.3.4") (Some "zone") (Some [root]))
    (fun _ => Succeeded) []
  = SyncDone [Create "ssh-3afb6505.example.com" "1.2.3.4" false] true.
Proof. vm_compute. done. Qed.

(** C9 at its failing input: the creation of one record fails.  The
    pass returns [False], yet the script exits with status 0, and the
    tick, which goes by the return code, stores the new checksum. *)
Theorem checksum_advances_after_failed_pass :
  let answers := fun n : nat => if (n =? 2)%nat then Failed else Succeeded in
  let w := mkWorld (Some "token") "example.com" true
             (Some ["app.example.com"])
             (mkLookups (Some "1.2.3.4") (Some "zone") (Some []))
             answers in
  let pr := mkProbe (Some "new") (Some "new") true in
  let fs := mkFiles (Some "old") false in
  sync_dns_records "example.com" (remote w) answers ["app.example.com"]
    = SyncDone [Create "example.com" "1.2.3.4" true;
                Create "ssh-3afb6505.example.com" "1.2.3.4" false;
                Create "app.example.com" "1.2.3.4" true] false /\
  exit_code (main w) = 0 /\
  tick w pr fs = (0, mkFiles (Some "new") true).
Proof. vm_compute. done. Qed.

(** Whenever the script gets as far as the pass, it exits with status 0
    and the tick stores the checksum, whatever the pass returned. *)
Lemma exit_status_ignores_success (w : world) (hostnames : list string)
    (pr : probe) (fs : files) :
  config_exists w = true ->
  truthy (CLOUDFLARE_API_TOKEN w) = true ->
  DOMAIN_BASE w <> "" ->
  extracted w = Some hostnames ->
  exit_code (main w) = 0 /\
  run_full_sync w pr fs = (true, update_traefik_checksum pr fs).
Proof.
  intros Hconfig Htoken Hbase Hextracted.
  assert (exit_code (main w) = 0) as Hexit.
  { unfold main. rewrite Hconfig, Htoken, Hextracted. simpl.
    apply String.eqb_neq in Hbase. rewrite Hbase.
    unfold sync_dns_records. rewrite Hbase.
    destruct (external_ip (remote w)), (zone_id (remote w)),
      (existing_records (remote w)); try done.
    by destruct (sync_body _ _ _ _ _ _) as [[u|] st]. }
  split; [done|]. unfold run_full_sync. by rewrite Hexit.
Qed.

(** *** Calls of a pass *)

Lemma emits_ret (Q : api_call -> Prop) : emits (ret tt) Q.
Proof. intros s. exists []. simpl. by rewrite app_nil_r. Qed.

Lemma emits_bind (m : M unit) (f : unit -> M unit) (Q : api_call -> Prop) :
  emits m Q -> (forall a, emits (f a) Q) -> emits (bind m f) Q.
Proof.
  intros Hm Hf s. unfold bind. destruct (Hm s) as (e1 & H1 & F1).
  destruct (m s) as [[a|] s1]; simpl in *.
  - destruct (Hf a s1) as (e2 & H2 & F2). exists (e1 ++ e2)%list.
    rewrite H2, H1, app_assoc. split; [done|]. by apply Forall_app.
  - by exists e1.
Qed.

Lemma emits_api answers (c : api_call) (Q : api_call -> Prop) :
  Q c -> emits (api answers c) Q.
Proof.
  intros HQ s. exists [c]. split; [|by repeat constructor].
  unfold api. by destruct (answers _).
Qed.

Lemma emits_mark (name : string) (Q : api_call -> Prop) :
  emits (mark_processed name) Q.
Proof. intros s. exists []. simpl. by rewrite app_nil_r. Qed.

Lemma static_not_delete base records c :
  static_call base records c -> is_delete c = false.
Proof. by destruct c. Qed.

Lemma emits_for_each {A : Type} (f : A -> M unit) (Q : api_call -> Prop)
    (l : list A) :
  (forall x, emits (f x) Q) -> emits (for_each f l) Q.
Proof.
  intros Hf. induction l as [|x l IH]; simpl; [apply emits_ret|].
  apply emits_bind; [apply Hf|]. intros _. apply IH.
Qed.

Lemma length_append (s1 s2 : string) :
  String.length (s1 +:+ s2) = (String.length s1 + String.length s2)%nat.
Proof.
  induction s1 as [|c s1 IH]; [done|].
  change (String c s1 +:+ s2) with (String c (s1 +:+ s2)). simpl. by rewrite IH.
Qed.

Lemma length_lower (s : string) : String.length (PyStr.lower s) = String.length s.
Proof. induction s as [|c s IH]; simpl; [done|]. by rewrite IH. Qed.

Lemma endswith_longer (s suffix : string) :
  (String.length s < String.length suffix)%nat -> PyStr.endswith s suffix = false.
Proof.
  intros Hlt. unfold PyStr.endswith.
  destruct (String.length suffix <=? String.length s)%nat eqn:Hle; [|done].
  apply Nat.leb_le in Hle. lia.
Qed.

(** *** The lookup of a record *)

Lemma named_test (name : string) (r : dns_record) :
  String.eqb (r_type r) "A" && String.eqb (r_name r) name = true
  <-> a_record_named name r.
Proof.
  unfold a_record_named. rewrite andb_true_iff, !String.eqb_eq. done.
Qed.

Lemma find_a_record_found (name : string) (records : list dns_record)
    (r : dns_record) :
  find_a_record name records = Some r -> first_named name records r.
Proof.
  unfold find_a_record. induction records as [|x records IH]; [done|].
  cbn [List.find].
  destruct (String.eqb (r_type x) "A" && String.eqb (r_name x) name) eqn:Hx.
  - intros [= <-]. exists [], records. split; [done|].
    split; [by apply named_test|constructor].
  - intros Hf. destruct (IH Hf) as (before & after & -> & Hr & Hbefore).
    exists (x :: before), after. split; [done|]. split; [done|].
    constructor; [|done]. rewrite <- named_test, Hx. done.
Qed.

Lemma find_a_record_missing (name : string) (records : list dns_record) :
  find_a_record name records = None -> none_named name records.
Proof.
  unfold find_a_record, none_named.
  induction records as [|x records IH]; [constructor|]. cbn [List.find].
  destruct (String.eqb (r_type x) "A" && String.eqb (r_name x) name) eqn:Hx;
    [done|].
  intros Hf. constructor; [|by apply IH]. rewrite <- named_test, Hx. done.
Qed.

Lemma find_a_record_first (name : string) (records : list dns_record)
    (r : dns_record) :
  first_named name records r -> find_a_record name records = Some r.
Proof.
  intros (before & after & -> & Hr & Hbefore). unfold find_a_record.
  induction Hbefore as [|x before Hx _ IH]; cbn [List.find app].
  - apply named_test in Hr. by rewrite Hr.
  - destruct (String.eqb (r_type x) "A" && String.eqb (r_name x) name) eqn:Hxt;
      [|done].
    by apply named_test in Hxt.
Qed.

Lemma find_a_record_none (name : string) (records : list dns_record) :
  none_named name records -> find_a_record name records = None.
Proof.
  unfold find_a_record. induction 1 as [|x records Hx _ IH]; [done|].
  cbn [List.find].
  destruct (String.eqb (r_type x) "A" && String.eqb (r_name x) name) eqn:Hxt;
    [|done].
  by apply named_test in Hxt.
Qed.

(** [proxied] is read as [True] when it is missing. *)
Lemma get_proxied_false (r : dns_record) :
  get_proxied r = false <-> r_proxied r = Some false.
Proof. unfold get_proxied. destruct (r_proxied r) as [[|]|]; simpl; split; done. Qed.

(** *** [endswith] *)

Lemma substring_all (s : string) : substring 0 (String.length s) s = s.
Proof. induction s as [|c s IH]; [done|]. simpl. by rewrite IH. Qed.

Lemma substring_skip (p s : string) (m : nat) :
  substring (String.length p) m (p +:+ s) = substring 0 m s.
Proof.
  induction p as [|c p IH]; [done|].
  change (String c p +:+ s) with (String c (p +:+ s)). simpl. apply IH.
Qed.

Lemma substring_split (s : string) (n : nat) :
  (n <= String.length s)%nat ->
  s = substring 0 n s +:+ substring n (String.length s - n) s.
Proof.
  revert s. induction n as [|n IH]; intros s Hn.
  - rewrite Nat.sub_0_r, substring_all. by destruct s.
  - destruct s as [|c s]; [simpl in Hn; lia|]. simpl in Hn.
    cbn [substring String.length Nat.sub].
    change (String c (substring 0 n s) +:+ substring n (String.length s - n) s)
      with (String c (substring 0 n s +:+ substring n (String.length s - n) s)).
    f_equal. apply IH. lia.
Qed.

Lemma endswith_spec (s suffix : string) :
  PyStr.endswith s suffix = true <-> ends_with s suffix.
Proof.
  unfold PyStr.endswith, ends_with. split.
  - destruct (String.length suffix <=? String.length s)%nat eqn:Hle; [|done].
    apply Nat.leb_le in Hle. intros Heq%String.eqb_eq.
    exists (substring 0 (String.length s - String.length suffix) s).
    pose proof (substring_split s (String.length s - String.length suffix)
                  ltac:(lia)) as Hsplit.
    replace (String.length s - (String.length s - String.length suffix))%nat
      with (String.length suffix) in Hsplit by lia.
    by rewrite Heq in Hsplit.
  - intros [p ->]. rewrite length_append.
    replace (String.length suffix <=? String.length p + String.length suffix)%nat
      with true by (symmetry; apply Nat.leb_le; lia).
    replace (String.length p + String.length suffix - String.length suffix)%nat
      with (String.length p) by lia.
    rewrite substring_skip, substring_all. apply String.eqb_refl.
Qed.

Lemma selected_filter {A : Type} (P : A -> Prop) (f : A -> bool) (l : list A) :
  (forall x, f x = true <-> P x) -> selected P l (List.filter f l).
Proof.
  intros Hf. induction l as [|x l IH]; [constructor|]. cbn [List.filter].
  destruct (f x) eqn:Hx.
  - apply selected_take; [by apply Hf|done].
  - apply selected_skip; [|done]. rewrite <- Hf, Hx. done.
Qed.

(** The root is not the helper and carries no [-d.] suffix. *)
Lemma root_not_unproxied (base : string) : unproxied base base = false.
Proof.
  unfold unproxied. apply orb_false_iff. split.
  - apply String.eqb_neq. intros Heq.
    apply (f_equal String.length) in Heq. unfold ssh_hostname in Heq.
    rewrite length_lower, length_append in Heq. simpl in Heq. lia.
  - apply endswith_longer. rewrite length_append. simpl. lia.
Qed.

Lemma helper_unproxied (base : string) : unproxied base (ssh_hostname base) = true.
Proof. unfold unproxied. by rewrite String.eqb_refl. Qed.

Section PassFacts.
Variable base : string.
Variable answers : nat -> api_outcome.
Variable ip : string.
Variable records : list dns_record.

(** Every record a pass writes carries the flag of the rule: unproxied
    for the helper and for the names ending in [-d.<base>], proxied for
    the others, the root among them. *)
Lemma writes_follow_proxy_rule (hostnames : list string) :
  emits (sync_body base answers ip records hostnames) (proxy_rule_call base).
Proof.
  unfold sync_body. apply emits_bind.
  { unfold sync_root. destruct (find_a_record base records) as [root|].
    - destruct (negb _); [|apply emits_ret].
      apply emits_api. simpl. by rewrite root_not_unproxied.
    - apply emits_api. simpl. by rewrite root_not_unproxied. }
  intros _. apply emits_bind.
  { intros s. exists []. simpl. by rewrite app_nil_r. }
  intros _. apply emits_bind.
  { unfold sync_ssh. apply emits_bind; [apply emits_mark|]. intros _.
    destruct (find_a_record (ssh_hostname base) records) as [r|].
    - destruct (_ || _); [|apply emits_ret].
      apply emits_api. simpl. by rewrite helper_unproxied.
    - apply emits_api. simpl. by rewrite helper_unproxied. }
  intros _. apply emits_bind.
  { apply emits_for_each. intros hostname. unfold sync_hostname.
    destruct (String.eqb (PyStr.lower hostname) (ssh_hostname base)) eqn:Hssh;
      [apply emits_ret|].
    assert (should_proxy_of base (PyStr.lower hostname)
            = negb (unproxied base (PyStr.lower hostname))) as Hrule.
    { unfold should_proxy_of, unproxied. by rewrite Hssh. }
    destruct (find_a_record (PyStr.lower hostname) records) as [r|].
    - apply emits_bind; [apply emits_mark|]. intros _.
      destruct (_ || _); [|apply emits_ret]. by apply emits_api.
    - apply emits_bind; [by apply emits_api|]. intros _. apply emits_mark. }
  intros _. destruct hostnames as [|h hostnames']; [apply emits_ret|].
  apply emits_for_each. intros r st. unfold prune_record.
  destruct (_ && _ && _); [by apply emits_api|apply emits_ret].
Qed.

Lemma sync_root_emits :
  emits (sync_root base answers ip records) (static_call base records).
Proof.
  unfold sync_root.
  destruct (find_a_record base records) as [root|] eqn:Hroot.
  - destruct (negb _); [|apply emits_ret].
    apply emits_api. simpl. split; [by left|]. exists root.
    split; [by apply find_a_record_found|done].
  - apply emits_api. simpl. by left.
Qed.

Lemma sync_ssh_emits :
  emits (sync_ssh base answers ip records) (static_call base records).
Proof.
  unfold sync_ssh. apply emits_bind; [apply emits_mark|]. intros _.
  destruct (find_a_record (ssh_hostname base) records) as [r|] eqn:Hssh.
  - destruct (_ || _); [|apply emits_ret].
    apply emits_api. simpl. split; [by right|]. exists r.
    split; [by apply find_a_record_found|done].
  - apply emits_api. simpl. by right.
Qed.

(** Without hostnames the pass only writes the root and the helper. *)
Lemma static_pass_emits :
  emits (sync_body base answers ip records []) (static_call base records).
Proof.
  unfold sync_body.
  apply emits_bind; [apply sync_root_emits|]. intros _.
  apply emits_bind.
  { intros s. exists []. simpl. by rewrite app_nil_r. }
  intros _. apply emits_bind; [apply sync_ssh_emits|]. intros _.
  apply emits_bind; [apply emits_ret|]. intros _. apply emits_ret.
Qed.

Hypothesis Hanswers : never_raises answers.

Lemma api_total (c : api_call) (s : pass_state) :
  api answers c s
  = (Some tt, mkPass (calls s ++ [c]) (api_ok answers s) (processed_records s)).
Proof.
  unfold api, api_ok. destruct (Hanswers (length (calls s))) as [-> | ->]; done.
Qed.

Lemma sync_root_runs (s : pass_state) :
  exists e ok',
    sync_root base answers ip records s
    = (Some tt, mkPass (calls s ++ e) ok' (processed_records s)) /\
    List.filter is_delete e = [] /\
    root_ensured base ip records e.
Proof.
  destruct s as [cs ok ps]. unfold sync_root, root_ensured.
  destruct (find_a_record base records) as [root|] eqn:Hfind.
  - assert (forall record, first_named base records record -> record = root)
      as Hroot.
    { intros record Hrec%find_a_record_first. congruence. }
    assert (~ none_named base records) as Hsome.
    { intros Hnone%find_a_record_none. congruence. }
    destruct (String.eqb_spec (r_content root) ip) as [Heq|Hne]; simpl.
    + exists [], ok. rewrite app_nil_r. split; [done|]. split; [done|].
      split; [done|]. intros record ->%Hroot. done.
    + rewrite api_total. simpl. eexists _, _. split; [done|].
      split; [done|]. split; [done|]. intros record ->%Hroot _. by left.
  - rewrite api_total. simpl. eexists _, _. split; [done|].
    split; [done|]. split; [by left|].
    intros record Hrec%find_a_record_first. congruence.
Qed.

Lemma sync_ssh_runs (s : pass_state) :
  exists e ok',
    sync_ssh base answers ip records s
    = (Some tt, mkPass (calls s ++ e) ok'
                  (processed_records s ++ [ssh_hostname base])) /\
    List.filter is_delete e = [] /\
    helper_ensured base ip records e.
Proof.
  destruct s as [cs ok ps]. unfold sync_ssh, helper_ensured, bind. simpl.
  destruct (find_a_record (ssh_hostname base) records) as [r|] eqn:Hfind.
  - assert (forall record,
              first_named (ssh_hostname base) records record -> record = r)
      as Hr.
    { intros record Hrec%find_a_record_first. congruence. }
    assert (~ none_named (ssh_hostname base) records) as Hsome.
    { intros Hnone%find_a_record_none. congruence. }
    destruct (String.eqb_spec (r_content r) ip) as [Heq|Hne]; simpl.
    + destruct (get_proxied r) eqn:Hp; simpl.
      * rewrite api_total. simpl. eexists _, _. split; [done|].
        split; [done|]. split; [done|]. intros record ->%Hr _. by left.
      * exists [], ok. rewrite app_nil_r. split; [done|]. split; [done|].
        split; [done|]. apply get_proxied_false in Hp.
        intros record ->%Hr [?|?]; done.
    + rewrite api_total. simpl. eexists _, _. split; [done|].
      split; [done|]. split; [done|]. intros record ->%Hr _. by left.
  - rewrite api_total. simpl. eexists _, _. split; [done|].
    split; [done|]. split; [by left|].
    intros record Hrec%find_a_record_first. congruence.
Qed.

Lemma sync_hostname_runs (hostname : string) (s : pass_state) :
  exists e ok',
    sync_hostname base answers ip records hostname s
    = (Some tt,
       mkPass (calls s ++ e) ok'
         (processed_records s
          ++ (if String.eqb (PyStr.lower hostname) (ssh_hostname base)
              then [] else [PyStr.lower hostname]))) /\
    List.filter is_delete e = [].
Proof.
  destruct s as [cs ok ps]. unfold sync_hostname.
  destruct (String.eqb (PyStr.lower hostname) (ssh_hostname base)).
  - exists [], ok. by rewrite !app_nil_r.
  - destruct (find_a_record (PyStr.lower hostname) records) as [r|];
      unfold bind; simpl.
    + destruct (_ || _).
      * rewrite api_total. simpl. by eexists _, _.
      * exists [], ok. by rewrite app_nil_r.
    + rewrite api_total. simpl. by eexists _, _.
Qed.

Lemma hostnames_run (hostnames : list string) :
  forall s, exists e ok',
    for_each (sync_hostname base answers ip records) hostnames s
    = (Some tt,
       mkPass (calls s ++ e) ok'
         (processed_records s
          ++ List.filter (fun h => negb (String.eqb h (ssh_hostname base)))
               (map PyStr.lower hostnames))) /\
    List.filter is_delete e = [].
Proof.
  induction hostnames as [|h hostnames IH]; intros s.
  - destruct s as [cs ok ps]. exists [], ok. simpl. by rewrite !app_nil_r.
  - cbn [for_each]. unfold bind.
    destruct (sync_hostname_runs h s) as (e1 & ok1 & -> & Hd1).
    destruct (IH (mkPass (calls s ++ e1) ok1
                    (processed_records s
                     ++ (if String.eqb (PyStr.lower h) (ssh_hostname base)
                         then [] else [PyStr.lower h]))))
      as (e2 & ok2 & -> & Hd2).
    simpl. exists (e1 ++ e2)%list, ok2. split.
    + rewrite <- !app_assoc. do 3 f_equal.
      by destruct (String.eqb (PyStr.lower h) (ssh_hostname base)).
    + by rewrite List.filter_app, Hd1, Hd2.
Qed.

Lemma prune_runs (rs : list dns_record) :
  forall s, exists ok',
    for_each (prune_record base answers) rs s
    = (Some tt,
       mkPass (calls s
               ++ map (fun r => Delete (r_id r))
                    (List.filter
                       (fun r => String.eqb (r_type r) "A"
                                 && PyStr.endswith (r_name r) ("." +:+ base)
                                 && negb (member (r_name r) (processed_records s)))
                       rs))
              ok' (processed_records s)).
Proof.
  induction rs as [|r rs IH]; intros s.
  - destruct s as [cs ok ps]. exists ok. simpl. by rewrite app_nil_r.
  - cbn [for_each List.filter]. unfold bind, prune_record at 1.
    destruct (_ && _ && _).
    + rewrite api_total.
      destruct (IH (mkPass (calls s ++ [Delete (r_id r)]) (api_ok answers s)
                      (processed_records s))) as (ok' & ->).
      simpl. exists ok'. by rewrite <- app_assoc.
    + simpl. apply IH.
Qed.

(** The pass when no call raises: the calls for the root, the
    helper and the hostnames hold no deletion, and pruning, when it
    runs, goes by the names processed so far. *)
Lemma sync_body_runs (hostnames : list string) :
  let processed :=
    ([base] ++ [ssh_hostname base]
     ++ List.filter (fun h => negb (String.eqb h (ssh_hostname base)))
          (map PyStr.lower hostnames))%list in
  let deletions :=
    match hostnames with
    | [] => []
    | _ => map (fun r => Delete (r_id r))
             (List.filter
                (fun r => String.eqb (r_type r) "A"
                          && PyStr.endswith (r_name r) ("." +:+ base)
                          && negb (member (r_name r) processed))
                records)
    end in
  exists e ok',
    sync_body base answers ip records hostnames (mkPass [] true [])
    = (Some tt, mkPass (e ++ deletions) ok' processed) /\
    List.filter is_delete e = [] /\
    root_ensured base ip records e /\
    helper_ensured base ip records e.
Proof.
  intros processed deletions. unfold sync_body, bind.
  destruct (sync_root_runs (mkPass [] true [])) as (e1 & ok1 & -> & Hd1 & Hroot).
  cbn [calls success processed_records app].
  destruct (sync_ssh_runs (mkPass e1 ok1 [base])) as (e2 & ok2 & -> & Hd2 & Hssh).
  cbn [calls success processed_records].
  destruct (hostnames_run hostnames (mkPass (e1 ++ e2) ok2 ([base] ++ [ssh_hostname base])))
    as (e3 & ok3 & -> & Hd3).
  cbn [calls success processed_records].
  exists ((e1 ++ e2) ++ e3)%list.
  assert (List.filter is_delete ((e1 ++ e2) ++ e3) = []) as Hd.
  { by rewrite !List.filter_app, Hd1, Hd2, Hd3. }
  assert (root_ensured base ip records ((e1 ++ e2) ++ e3)) as Hr.
  { destruct Hroot as [Hnone Hfirst]. split.
    - intros Hn. apply in_or_app. left. apply in_or_app. left. auto.
    - intros record Hrec Hne. apply in_or_app. left. apply in_or_app. left.
      by apply Hfirst. }
  assert (helper_ensured base ip records ((e1 ++ e2) ++ e3)) as Hh.
  { destruct Hssh as [Hnone Hfirst]. split.
    - intros Hn. apply in_or_app. left. apply in_or_app. right. auto.
    - intros record Hrec Hne. apply in_or_app. left. apply in_or_app. right.
      by apply Hfirst. }
  subst deletions. destruct hostnames as [|h hostnames'].
  - exists ok3. subst processed. unfold ret. simpl. rewrite !app_nil_r. done.
  - destruct (prune_runs records
                (mkPass ((e1 ++ e2) ++ e3) ok3
                   (([base] ++ [ssh_hostname base])
                    ++ List.filter (fun h => negb (String.eqb h (ssh_hostname base)))
                         (map PyStr.lower (h :: hostnames')))))
      as (ok4 & ->).
    exists ok4. cbn [calls processed_records]. subst processed.
    split; [reflexivity|done].
Qed.

End PassFacts.

Lemma member_In (x : string) (l : list string) : member x l = true <-> In x l.
Proof.
  unfold member. rewrite existsb_exists. split.
  - intros (y & Hy & Heq). apply String.eqb_eq in Heq. by subst.
  - intros Hx. exists x. split; [done|]. apply String.eqb_refl.
Qed.

(** The names processed by a pass are the desired ones. *)
Lemma processed_desired (base x : string) (hostnames : list string) :
  member x ([base] ++ [ssh_hostname base]
            ++ List.filter (fun h => negb (String.eqb h (ssh_hostname base)))
                 (map PyStr.lower hostnames))
  = member x (desired base hostnames).
Proof.
  apply eq_true_iff_eq. rewrite !member_In. unfold desired. simpl.
  rewrite filter_In. split.
  - intros [H|[H|[H _]]]; auto.
  - intros [H|[H|H]]; auto.
    destruct (String.eqb_spec x (ssh_hostname base)) as [->|Hne]; [by auto|].
    right. right. by split.
Qed.

Lemma filter_deletes (rs : list dns_record) :
  List.filter is_delete (map (fun r => Delete (r_id r)) rs)
  = map (fun r => Delete (r_id r)) rs.
Proof. induction rs as [|r rs IH]; simpl; [done|]. by rewrite IH. Qed.

Lemma static_no_delete base records (issued : list api_call) :
  Forall (static_call base records) issued -> List.filter is_delete issued = [].
Proof.
  induction 1 as [|c issued Hc _ IH]; simpl; [done|].
  by rewrite (static_not_delete _ _ _ Hc).
Qed.

(** The test of the pruning loop against the desired names. *)
Lemma orphan_test (base : string) (hostnames : list string) (r : dns_record) :
  String.eqb (r_type r) "A"
  && PyStr.endswith (r_name r) ("." +:+ base)
  && negb (member (r_name r) (desired base hostnames)) = true
  <-> orphan base hostnames r.
Proof.
  unfold orphan.
  rewrite !andb_true_iff, String.eqb_eq, endswith_spec, negb_true_iff.
  rewrite <- member_In. destruct (member _ _); intuition congruence.
Qed.



End ReconcilerFacts.

(** ** Runs of the rate limiter *)

Module RateLimiterRunsFacts.
Import RateLimiter RateLimiterRuns RateLimiterFacts.

Lemma reset_at_range (t W lo hi : Z) (zs : list (string * Z)) :
  zs <> [] -> Forall (fun p => lo <= snd p <= hi) zs ->
  lo + W <= reset_at t W zs <= hi + W.
Proof.
  intros Hne Hall. unfold reset_at.
  destruct (oldest_score zs) as [m|] eqn:Ho.
  - apply oldest_score_least in Ho as [[p [Hp <-]] _].
    rewrite Forall_forall in Hall. specialize (Hall p Hp). simpl in Hall. lia.
  - by destruct zs.
Qed.

Lemma in_window_all (t W T : Z) (zs : list (string * Z)) :
  t < T + W -> Forall (fun p => T <= snd p) zs -> in_window t W zs = zs.
Proof.
  intros Ht Hall. unfold in_window.
  induction Hall as [|p zs Hp _ IH]; [done|].
  rewrite filter_cons_True by (simpl; lia). by rewrite IH.
Qed.

Lemma live_present (t : Z) (st : redis) (key : string) (v : rvalue) (e : Z) :
  st !! key = Some (mkEntry v (Some e)) -> t < e ->
  live t st key = Some (mkEntry v (Some e)).
Proof.
  intros Hk Hlt. unfold live, expired. rewrite Hk. simpl.
  destruct (e <=? t) eqn:Hx; [apply Z.leb_le in Hx; lia|done].
Qed.

Section SlidingRuns.
Variable NAMESPACE : string.

Lemma ratelimit_sliding (t : Z) (nonce id_ : string) (N W : Z) (st : redis) :
  PyStr.strip id_ <> "" ->
  ratelimit NAMESPACE t nonce (mk_request id_ N W "sliding") st
  = (answer (_sliding_window NAMESPACE t nonce (PyStr.strip id_) N W st).1,
     (_sliding_window NAMESPACE t nonce (PyStr.strip id_) N W st).2).
Proof.
  intros Hid. unfold ratelimit, mk_request.
  cbn [b_id b_limit b_windowMs b_algo read_int read_algo].
  change (read_id (IdString id_)) with (PyStr.strip id_).
  apply String.eqb_neq in Hid. rewrite Hid.
  change (PyStr.lower "sliding") with "sliding".
  change ("sliding" =? "sliding")%string with true.
  cbn iota.
  by destruct (_sliding_window _ _ _ _ _ _ _).
Qed.

(** One call inside the window: denied when the window is full, and
    recorded otherwise. *)
Lemma sliding_step (call : Z * string) (id_ : string) (N W T : Z)
    (zs : list (string * Z)) (st : redis) :
  T <= fst call < T + W ->
  Forall (fun p => T <= snd p) zs ->
  window_state (k NAMESPACE id_) T W zs st ->
  (Z.of_nat (length zs) < N -> member_of call ∉ zs.*1) ->
  exists st',
    _sliding_window NAMESPACE (fst call) (snd call) id_ N W st
    = (Some (if N <=? Z.of_nat (length zs)
             then sliding_deny N W (fst call) zs
             else sliding_allow N W (fst call) (zs ++ [entry_of call])),
       st') /\
    window_state (k NAMESPACE id_) T W
      (if N <=? Z.of_nat (length zs) then zs else zs ++ [entry_of call]) st'.
Proof.
  destruct call as [t nonce]. simpl. intros Ht Hall Hst Hfresh.
  set (key := k NAMESPACE id_) in *.
  assert ((W + 60000 <=? 0) = false) as HW by (apply Z.leb_gt; lia).
  assert ((t + (W + 60000) <=? t) = false) as Hexp by (apply Z.leb_gt; lia).
  unfold _sliding_window. fold key.
  destruct zs as [|p zs0].
  - simpl in Hst. change (Z.of_nat (length (@nil (string * Z)))) with 0.
    unfold zremrangebyscore, zcard, zrange_0_0, zadd, live.
    repeat (rewrite Hst; cbn beta iota zeta).
    destruct (N <=? 0) eqn:HN.
    + eexists. split; [|done].
      unfold sliding_deny, reset_at. simpl. do 4 f_equal.
      pose proof (ceil_div_pos (t + W - t) 1000). lia.
    + unfold pexpire. rewrite live_insert.
      unfold expired. simpl. rewrite HW.
      rewrite lookup_insert_eq. simpl. rewrite Hexp. simpl.
      eexists. split; [done|]. eexists. rewrite lookup_insert_eq.
      split; [done|]. lia.
  - set (zs := p :: zs0) in *. destruct Hst as (e & Hk & He).
    assert (live t st key = Some (mkEntry (RZset zs) (Some e))) as Hl
      by (apply live_present; [done|lia]).
    assert ((e <=? t) = false) as Hx by (apply Z.leb_gt; lia).
    unfold zremrangebyscore. rewrite Hl. cbn [val expire_at].
    rewrite trim_filter, (in_window_all t W T zs) by (done || lia).
    change (put_zset key zs (Some e) st)
      with (<[key := mkEntry (RZset zs) (Some e)]> st).
    unfold zcard. rewrite live_insert. unfold expired at 1. cbn [expire_at val].
    rewrite Hx. cbn [val].
    destruct (N <=? Z.of_nat (length zs)) eqn:HN.
    + unfold zrange_0_0. rewrite live_insert. unfold expired. cbn [expire_at val].
      rewrite Hx. cbn [val]. rewrite reset_of_zfirst.
      eexists. split.
      * unfold sliding_deny. do 4 f_equal.
        pose proof (reset_at_range t W T (T + W) zs ltac:(done)) as Hr.
        assert (T + W <= reset_at t W zs) as Hlo.
        { unfold reset_at. destruct (oldest_score zs) as [m|] eqn:Ho; [|done].
          apply oldest_score_least in Ho as [[q [Hq <-]] _].
          rewrite Forall_forall in Hall. specialize (Hall q Hq). simpl in Hall. lia. }
        pose proof (ceil_div_pos (reset_at t W zs - t) 1000). lia.
      * exists e. by rewrite lookup_insert_eq.
    + unfold zadd. rewrite live_insert. unfold expired at 1. cbn [expire_at val].
      rewrite Hx. cbn [val expire_at].
      change (PyStr.str_int t +:+ "-" +:+ nonce) with (member_of (t, nonce)).
      rewrite (existsb_fresh _ _ (Hfresh ltac:(apply Z.leb_gt in HN; lia))).
      unfold pexpire. rewrite live_insert. unfold expired at 1. cbn [expire_at val].
      rewrite Hx, HW. unfold zrange_0_0. rewrite live_insert.
      unfold expired. cbn [expire_at val]. rewrite Hexp. cbn [val].
      rewrite reset_of_zfirst. eexists. split.
      * unfold sliding_allow, entry_of, member_of. simpl. do 3 f_equal.
        rewrite length_app. simpl. lia.
      * assert (exists q zs', (zs ++ [entry_of (t, nonce)])%list = q :: zs')
          as (q & zs' & Heq) by (by eexists _, _).
        unfold entry_of, member_of in *. simpl in *. rewrite Heq, <- Heq.
        eexists. rewrite lookup_insert_eq. split; [done|]. lia.
Qed.

Lemma NoDup_app_drop (l : list string) (x : string) (l' : list string) :
  NoDup (l ++ x :: l') -> NoDup (l ++ l') /\ x ∉ l.
Proof.
  intros H. apply NoDup_app in H as (Hl & Hdis & Hk).
  apply NoDup_cons in Hk as [Hx Hk]. split.
  - apply NoDup_app. split; [done|]. split; [|done].
    intros y Hy Hy'. apply (Hdis y Hy). by right.
  - intros Hin. apply (Hdis x Hin). by left.
Qed.

Lemma run_sliding_calls (id_ : string) (N W T : Z) (calls : list (Z * string)) :
  PyStr.strip id_ <> "" ->
  Forall (fun call => T <= fst call < T + W) calls ->
  forall (zs : list (string * Z)) (st : redis),
    Forall (fun p => T <= snd p) zs ->
    window_state (k NAMESPACE (PyStr.strip id_)) T W zs st ->
    NoDup (zs.*1 ++ map member_of calls) ->
    (run_calls NAMESPACE
       (map (fun call => (fst call, snd call, mk_request id_ N W "sliding")) calls)
       st).1
    = Answer <$> sliding_answers N W zs calls.
Proof.
  intros Hid Hcalls. induction Hcalls as [|call calls Ht _ IH];
    intros zs st Hzs Hst Hnd; [done|].
  cbn [map run_calls fst snd]. rewrite ratelimit_sliding by done.
  simpl in Hnd. apply NoDup_app_drop in Hnd as Hnd'. destruct Hnd' as [Hnd' Hfresh].
  destruct (sliding_step call (PyStr.strip id_) N W T zs st Ht Hzs Hst
              ltac:(done)) as (st' & Hrun & Hst').
  replace call with (fst call, snd call) in Hrun at 1 2 by (by destruct call).
  simpl in Hrun. rewrite Hrun. cbn [fst snd sliding_answers].
  destruct (N <=? Z.of_nat (length zs)).
  - specialize (IH zs st' Hzs Hst' Hnd').
    destruct (run_calls _ _ st') as [rs st2]. simpl in *. by rewrite IH.
  - assert (Forall (fun p => T <= snd p) (zs ++ [entry_of call])) as Hzs'.
    { apply Forall_app. split; [done|]. repeat constructor. simpl. lia. }
    assert (NoDup ((zs ++ [entry_of call])%list.*1 ++ map member_of calls)) as Hnd2.
    { rewrite fmap_app. simpl. by rewrite <- app_assoc. }
    specialize (IH _ st' Hzs' Hst' Hnd2).
    destruct (run_calls _ _ st') as [rs st2]. simpl in *. by rewrite IH.
Qed.

End SlidingRuns.

Lemma sliding_answers_full (N W : Z) (zs : list (string * Z))
    (calls : list (Z * string)) :
  N <= Z.of_nat (length zs) ->
  sliding_answers N W zs calls
  = (fun call => sliding_deny N W (fst call) zs) <$> calls.
Proof.
  intros HN. induction calls as [|call calls IH]; [done|].
  rewrite fmap_cons. cbn [sliding_answers].
  destruct (N <=? Z.of_nat (length zs)) eqn:Hle; [by rewrite IH|].
  apply Z.leb_gt in Hle. lia.
Qed.

Lemma sliding_answers_allows (N W : Z) (n : nat) :
  forall (zs : list (string * Z)) (calls : list (Z * string)) (j : nat),
    N - Z.of_nat (length zs) = Z.of_nat n -> length calls = (n + j)%nat ->
    allow <$> sliding_answers N W zs calls
    = (replicate n true ++ replicate j false)%list.
Proof.
  induction n as [|n IH]; intros zs calls j HN Hlen.
  - rewrite sliding_answers_full by lia. simpl in Hlen. rewrite <- Hlen.
    cbn [replicate app]. clear.
    induction calls as [|call calls IH]; [done|].
    cbn [length replicate]. rewrite !fmap_cons. by rewrite IH.
  - destruct calls as [|call calls]; [done|]. simpl in Hlen.
    cbn [sliding_answers].
    destruct (N <=? Z.of_nat (length zs)) eqn:Hle; [apply Z.leb_le in Hle; lia|].
    rewrite fmap_cons. simpl. f_equal.
    apply IH; [|lia]. rewrite length_app. simpl. lia.
Qed.

Lemma sliding_answers_remaining (N W : Z) (calls : list (Z * string)) :
  forall (zs : list (string * Z)) (i : nat) (r : result),
    sliding_answers N W zs calls !! i = Some r -> allow r = true ->
    remaining r = Z.max 0 (N - (Z.of_nat (length zs) + Z.of_nat i + 1)) /\
    Z.of_nat (length zs) + Z.of_nat i < N.
Proof.
  induction calls as [|call calls IH]; intros zs i r Hr Hallow; [done|].
  cbn [sliding_answers] in Hr.
  destruct (N <=? Z.of_nat (length zs)) eqn:Hle.
  - apply Z.leb_le in Hle. destruct i as [|i]; simpl in Hr.
    + injection Hr as <-. done.
    + rewrite sliding_answers_full in Hr by done.
      apply list_lookup_fmap_Some in Hr as (c & -> & _). done.
  - apply Z.leb_gt in Hle. destruct i as [|i]; simpl in Hr.
    + injection Hr as <-. simpl. rewrite length_app. simpl. split; [|lia].
      f_equal. lia.
    + destruct (IH _ _ _ Hr Hallow) as [-> Hlt].
      rewrite length_app in *. simpl in *. split; [|lia]. f_equal. lia.
Qed.

Lemma sliding_answers_reset (N W T : Z) (calls : list (Z * string)) :
  1 <= N ->
  Forall (fun call => T <= fst call < T + W) calls ->
  forall zs : list (string * Z),
    Forall (fun p => T <= snd p <= T + W - 1) zs ->
    Forall (fun r => T + W <= reset r < T + 2 * W /\
                     (allow r = false -> remaining r = 0))
           (sliding_answers N W zs calls).
Proof.
  intros HN Hcalls. induction Hcalls as [|call calls Ht _ IH]; intros zs Hzs;
    [constructor|].
  cbn [sliding_answers].
  destruct (N <=? Z.of_nat (length zs)) eqn:Hle.
  - apply Z.leb_le in Hle. constructor; [|by apply IH].
    assert (zs <> []) as Hne by (intros ->; simpl in Hle; lia).
    pose proof (reset_at_range (fst call) W T (T + W - 1) zs Hne Hzs).
    simpl. split; [lia|done].
  - assert (Forall (fun p => T <= snd p <= T + W - 1) (zs ++ [entry_of call]))
      as Hzs'.
    { apply Forall_app. split; [done|]. repeat constructor; simpl; lia. }
    constructor; [|by apply IH].
    assert (zs ++ [entry_of call] <> [])%list as Hne by (by destruct zs).
    pose proof (reset_at_range (fst call) W T (T + W - 1) _ Hne Hzs').
    simpl. split; [lia|done].
Qed.

(** Within one window, from a key that does not exist yet, [N + j]
    calls are answered by exactly [N] allows followed by [j] denies. *)
Theorem sliding_window_burst (NAMESPACE id_ : string) (N W T : Z) (j : nat)
    (calls : list (Z * string)) (st : redis) :
  1 <= N ->
  PyStr.strip id_ <> "" ->
  length calls = (Z.to_nat N + j)%nat ->
  Forall (fun call => T <= fst call < T + W) calls ->
  NoDup (map member_of calls) ->
  st !! k NAMESPACE (PyStr.strip id_) = None ->
  exists results : list result,
    (run_calls NAMESPACE
       (map (fun call => (fst call, snd call, mk_request id_ N W "sliding")) calls)
       st).1 = Answer <$> results /\
    allow <$> results
      = (replicate (Z.to_nat N) true ++ replicate j false)%list /\
    (forall (i : nat) r, results !! i = Some r -> allow r = true ->
       remaining r = N - (Z.of_nat i + 1)) /\
    Forall (fun r => T + W <= reset r < T + 2 * W /\
                     (allow r = false -> remaining r = 0)) results.
Proof.
  intros HN Hid Hlen Hcalls Hnd Hfresh.
  exists (sliding_answers N W [] calls). split; [|split; [|split]].
  - apply (run_sliding_calls NAMESPACE id_ N W T calls Hid Hcalls [] st);
      [constructor|done|done].
  - apply sliding_answers_allows; [simpl; lia|done].
  - intros i r Hr Hallow.
    destruct (sliding_answers_remaining _ _ _ _ _ _ Hr Hallow) as [-> Hlt].
    simpl in *. lia.
  - by apply sliding_answers_reset; [|done|constructor].
Qed.

Lemma sliding_window_burst_witness :
  exists results : list result,
    (run_calls "ratelimit:"
       (map (fun call => (fst call, snd call, mk_request "x" 3 10000 "sliding"))
            [(0, "a"); (1, "b"); (2, "c"); (3, "d")]) ∅).1 = Answer <$> results /\
    allow <$> results = [true; true; true; false].
Proof.
  destruct (sliding_window_burst "ratelimit:" "x" 3 10000 0 1
              [(0, "a"); (1, "b"); (2, "c"); (3, "d")] ∅)
    as (results & Hrun & Hallow & _).
  - lia.
  - vm_compute. discriminate.
  - reflexivity.
  - repeat constructor; simpl; lia.
  - apply (bool_decide_unpack _). vm_compute. exact I.
  - apply lookup_empty.
  - exists results. split; [exact Hrun|exact Hallow].
Defined.

(** *** Once the window has passed *)

Lemma in_window_none (now w : Z) (z : list (string * Z)) :
  Forall (fun p => 0 <= snd p <= now - w) z -> in_window now w z = [].
Proof.
  intros Hall. unfold in_window. induction Hall as [|p z Hp _ IH]; [done|].
  rewrite filter_cons_False by (simpl; lia). done.
Qed.

(** When every recorded hit is at least a window old, the call is
    admitted as if the key were new: the old entries are dropped and the
    set holds the new entry alone. *)
Theorem window_elapsed_readmits (NAMESPACE : string) (now : Z)
    (nonce id_ : string) (N w : Z) (st : redis) :
  let key := k NAMESPACE id_ in
  let out := _sliding_window NAMESPACE now nonce id_ N w st in
  1 <= N -> -60000 < w ->
  holds_zset now st key ->
  Forall (fun p => 0 <= snd p <= now - w) (zset_at now st key) ->
  out.1 = Some {| allow := true; limit := N; remaining := N - 1;
                  reset := now + w; retryAfter := None |} /\
  zset_at now out.2 key = [entry_of (now, nonce)].
Proof.
  intros key out HN Hw Hholds Hold. subst out. unfold _sliding_window. fold key.
  destruct (zrem_holds now key 0 (now - w) st Hholds)
    as (n & st1 & -> & Hz1 & Hholds1).
  rewrite trim_filter, in_window_none in Hz1 by done.
  rewrite (zcard_holds _ _ _ Hholds1), Hz1.
  change (Z.of_nat (length (@nil (string * Z)))) with 0.
  destruct (N <=? 0) eqn:Hle; [apply Z.leb_le in Hle; lia|].
  assert ((PyStr.str_int now +:+ "-" +:+ nonce) ∉ (zset_at now st1 key).*1)
    as Hfresh by (rewrite Hz1; apply not_elem_of_nil).
  destruct (zadd_holds now key _ now st1 Hholds1 Hfresh) as (st2 & ex & -> & Hl2).
  rewrite Hz1 in Hl2. rewrite (pexpire_live _ _ _ _ _ Hl2) by lia. simpl.
  unfold zrange_0_0, zset_at. rewrite !live_insert. unfold expired. simpl.
  destruct (now + (w + 60000) <=? now) eqn:Hx; [apply Z.leb_le in Hx; lia|].
  simpl. split; [do 2 f_equal; lia|].
  rewrite live_insert. unfold expired. simpl. by rewrite Hx.
Qed.

Lemma window_elapsed_readmits_witness :
  (_sliding_window "ratelimit:" 10001 "d" "x" 1 10000
     {["ratelimit:x" := mkEntry (RZset [("0-a", 0)]) (Some 70000)]}).1
  = Some {| allow := true; limit := 1; remaining := 0; reset := 20001;
            retryAfter := None |}.
Proof.
  refine (proj1 (window_elapsed_readmits "ratelimit:" 10001 "d" "x" 1 10000
    {["ratelimit:x" := mkEntry (RZset [("0-a", 0)]) (Some 70000)]} _ _ _ _)).
  - lia.
  - lia.
  - intros e He. vm_compute in He. injection He as <-. eexists. reflexivity.
  - vm_compute. repeat constructor; discriminate.
Defined.

Lemma stored_view (now : Z) (st : redis) (key : string)
    (zs : list (string * Z)) (ex : option Z) :
  st !! key = Some (mkEntry (RZset zs) ex) ->
  holds_zset now st key /\
  (zset_at now st key = zs \/ zset_at now st key = []).
Proof.
  intros Hk. unfold holds_zset, zset_at, live. rewrite Hk.
  destruct (expired now _); simpl.
  - split; [done|]. by right.
  - split; [|by left]. intros e [= <-]. by eexists.
Qed.

(** With a limit of 1, a hit at [t] still counts at every instant
    before [t + W] and no longer counts from [t + W] on. *)
Theorem sliding_boundary (NAMESPACE id_ : string) (W t t' : Z)
    (nonce nonce' : string) (st : redis) :
  PyStr.strip id_ <> "" -> 1 <= W -> 0 <= t <= t' ->
  st !! k NAMESPACE (PyStr.strip id_) = None ->
  exists r1 r2 : result,
    (run_calls NAMESPACE
       [(t, nonce, mk_request id_ 1 W "sliding");
        (t', nonce', mk_request id_ 1 W "sliding")] st).1
    = [Answer r1; Answer r2] /\
    allow r1 = true /\ allow r2 = bool_decide (t + W <= t').
Proof.
  intros Hid HW Ht Hfresh. cbn [run_calls].
  rewrite !ratelimit_sliding by done.
  destruct (sliding_step NAMESPACE (t, nonce) (PyStr.strip id_) 1 W t [] st)
    as (st1 & Hrun1 & Hst1); [simpl; lia|constructor|done|by intros; apply not_elem_of_nil|].
  simpl in Hrun1, Hst1. rewrite Hrun1. cbn [fst snd].
  destruct Hst1 as (e & Hk1 & He).
  destruct (decide (t + W <= t')) as [Hpast|Hin].
  - destruct (stored_view t' st1 _ _ _ Hk1) as [Hholds Hview].
    destruct (window_elapsed_readmits NAMESPACE t' nonce' (PyStr.strip id_) 1 W st1)
      as [Hrun2 _]; [lia|lia|done| |].
    { destruct Hview as [-> | ->]; repeat constructor; simpl; lia. }
    rewrite Hrun2. eexists _, _. split; [done|]. split; [done|].
    simpl. by rewrite bool_decide_eq_true_2.
  - destruct (sliding_step NAMESPACE (t', nonce') (PyStr.strip id_) 1 W t
                [entry_of (t, nonce)] st1)
      as (st2 & Hrun2 & _).
    + simpl. lia.
    + repeat constructor. simpl. lia.
    + exists e. done.
    + simpl. lia.
    + simpl in Hrun2. rewrite Hrun2. eexists _, _. split; [done|].
      split; [done|]. simpl. by rewrite bool_decide_eq_false_2.
Qed.

Lemma sliding_boundary_witness :
  exists r1 r2 : result,
    (run_calls "ratelimit:"
       [(5, "a", mk_request "x" 1 1000 "sliding");
        (1004, "b", mk_request "x" 1 1000 "sliding")] ∅).1
    = [Answer r1; Answer r2] /\
    allow r1 = true /\ allow r2 = false.
Proof.
  destruct (sliding_boundary "ratelimit:" "x" 1000 5 1004 "a" "b" ∅)
    as (r1 & r2 & Hrun & H1 & H2).
  - vm_compute. discriminate.
  - lia.
  - lia.
  - apply lookup_empty.
  - exists r1, r2. split; [exact Hrun|]. split; [exact H1|exact H2].
Defined.

(** *** Bounds of a denial *)

Lemma ceil_div_mono (a a' b : Z) : 0 < b -> a <= a' -> ceil_div a b <= ceil_div a' b.
Proof.
  intros Hb Ha. unfold ceil_div.
  pose proof (Z.div_le_mono (- a') (- a) b Hb ltac:(lia)). lia.
Qed.

(** A denial names a reset in the future and no further away than one
    window, when the recorded scores are past instants; the window is
    below 2^53, where the quotient the code takes in floating point has
    the exact ceiling. *)
Theorem deny_reset_bounds (NAMESPACE : string) (now : Z) (nonce id_ : string)
    (N w : Z) (st : redis) (r : result) :
  1 <= w < 2 ^ 53 ->
  holds_zset now st (k NAMESPACE id_) ->
  Forall (fun p => 0 <= snd p <= now) (zset_at now st (k NAMESPACE id_)) ->
  (_sliding_window NAMESPACE now nonce id_ N w st).1 = Some r ->
  allow r = false ->
  now < reset r <= now + w /\
  exists q, retryAfter r = Some q /\ 1 <= q <= ceil_div w 1000.
Proof.
  intros [Hw _] Hholds Hpast. unfold _sliding_window.
  set (key := k NAMESPACE id_) in *.
  destruct (zrem_holds now key 0 (now - w) st Hholds)
    as (n & st1 & -> & Hz1 & Hholds1).
  rewrite trim_filter in Hz1.
  rewrite (zcard_holds _ _ _ Hholds1), Hz1.
  destruct (N <=? _).
  - rewrite (zrange_holds _ _ _ Hholds1), Hz1, reset_of_zfirst. simpl.
    intros [= <-] _. simpl.
    assert (now < reset_at now w (in_window now w (zset_at now st key)) <= now + w)
      as Hr.
    { unfold reset_at. destruct (oldest_score _) as [m|] eqn:Ho; [|lia].
      apply oldest_score_least in Ho as [[p [Hp <-]] _].
      apply list_elem_of_filter in Hp as [Hout Hp].
      rewrite Forall_forall in Hpast. specialize (Hpast p Hp).
      simpl in *. lia. }
    split; [done|]. eexists. split; [done|].
    pose proof (ceil_div_pos (reset_at now w (in_window now w (zset_at now st key)) - now)
                  1000 ltac:(lia) ltac:(lia)).
    pose proof (ceil_div_mono
                  (reset_at now w (in_window now w (zset_at now st key)) - now)
                  w 1000 ltac:(lia) ltac:(lia)).
    lia.
  - destruct (zadd now key _ now st1) as [added st2].
    destruct (pexpire now key (w + 60000) st2) as [u st3].
    destruct added; [|done].
    destruct (zrange_0_0 now key st3); [|done].
    simpl. intros [= <-]. done.
Qed.

Lemma deny_reset_bounds_witness :
  3 < 10000 <= 3 + 10000.
Proof.
  refine (proj1 (deny_reset_bounds "ratelimit:" 3 "d" "x" 3 10000
    {["ratelimit:x" :=
        mkEntry (RZset [("0-a", 0); ("1-b", 1); ("2-c", 2)]) (Some 70002)]}
    {| allow := false; limit := 3; remaining := 0; reset := 10000;
       retryAfter := Some 10 |} _ _ _ _ _)).
  - lia.
  - intros e He. vm_compute in He. injection He as <-. eexists. reflexivity.
  - vm_compute. repeat constructor; discriminate.
  - reflexivity.
  - reflexivity.
Defined.

(** *** The keys a request writes *)

Lemma zrem_other now key lo hi (st : redis) key' :
  key' <> key -> (zremrangebyscore now key lo hi st).2 !! key' = st !! key'.
Proof.
  intros Hne. unfold zremrangebyscore.
  destruct (live now st key) as [e|]; [|done].
  destruct (val e); [done|]. simpl. unfold put_zset.
  destruct (filter _ z); [by rewrite lookup_delete_ne|by rewrite lookup_insert_ne].
Qed.

Lemma zadd_other now key member score (st : redis) key' :
  key' <> key -> (zadd now key member score st).2 !! key' = st !! key'.
Proof.
  intros Hne. unfold zadd.
  destruct (live now st key) as [e|]; [|by simpl; rewrite lookup_insert_ne].
  destruct (val e); [done|].
  destruct (existsb _ z); simpl; by rewrite lookup_insert_ne.
Qed.

Lemma pexpire_other now key ms (st : redis) key' :
  key' <> key -> (pexpire now key ms st).2 !! key' = st !! key'.
Proof.
  intros Hne. unfold pexpire.
  destruct (live now st key) as [e|]; [|done].
  destruct (ms <=? 0); simpl;
    [by rewrite lookup_delete_ne|by rewrite lookup_insert_ne].
Qed.

Lemma incr_other now key (st : redis) key' :
  key' <> key -> (incr now key st).2 !! key' = st !! key'.
Proof.
  intros Hne. unfold incr.
  destruct (live now st key) as [e|]; [|by simpl; rewrite lookup_insert_ne].
  destruct (val e); [|done]. simpl. by rewrite lookup_insert_ne.
Qed.

Lemma sliding_other (NAMESPACE : string) now nonce id_ N w (st : redis) key' :
  key' <> k NAMESPACE id_ ->
  (_sliding_window NAMESPACE now nonce id_ N w st).2 !! key' = st !! key'.
Proof.
  intros Hne. unfold _sliding_window.
  pose proof (zrem_other now (k NAMESPACE id_) 0 (now - w) st key' Hne) as H1.
  destruct (zremrangebyscore now (k NAMESPACE id_) 0 (now - w) st) as [trimmed st1].
  simpl in H1. destruct trimmed; [|done].
  destruct (zcard now (k NAMESPACE id_) st1); [|done].
  destruct (N <=? a0).
  - by destruct (zrange_0_0 now (k NAMESPACE id_) st1).
  - pose proof (zadd_other now (k NAMESPACE id_)
                  (PyStr.str_int now +:+ "-" +:+ nonce) now st1 key' Hne) as H2.
    destruct (zadd now (k NAMESPACE id_) _ now st1) as [added st2]. simpl in H2.
    pose proof (pexpire_other now (k NAMESPACE id_) (w + 60000) st2 key' Hne) as H3.
    destruct (pexpire now (k NAMESPACE id_) (w + 60000) st2) as [u st3].
    simpl in H3. rewrite <- H1, <- H2, <- H3.
    destruct added; [|done].
    by destruct (zrange_0_0 now (k NAMESPACE id_) st3).
Qed.

Lemma fixed_other (NAMESPACE : string) now id_ N w (st : redis) key' :
  key' <> fw_key NAMESPACE id_ (now / w) ->
  (fixed_window NAMESPACE now id_ N w st).2 !! key' = st !! key'.
Proof.
  intros Hne. unfold fixed_window. fold (fw_key NAMESPACE id_ (now / w)).
  pose proof (incr_other now (fw_key NAMESPACE id_ (now / w)) st key' Hne) as H1.
  destruct (incr now (fw_key NAMESPACE id_ (now / w)) st) as [value st1].
  simpl in H1.
  pose proof (pexpire_other now (fw_key NAMESPACE id_ (now / w)) w st1 key' Hne)
    as H2.
  destruct (pexpire now (fw_key NAMESPACE id_ (now / w)) w st1) as [u st2].
  simpl in H2. rewrite <- H1, <- H2. by destruct value.
Qed.

(** A request writes no key but the sorted set of its id and the
    counter of its id's current bucket; a request that is answered
    400, a body that is not JSON among them, writes nothing. *)
Theorem ratelimit_touches_own_keys (NAMESPACE : string) (now : Z)
    (nonce : string) (req : request) (st : redis) :
  (forall key' : string,
     (forall b, req = Json b -> key' ∉ own_keys NAMESPACE now b) ->
     (ratelimit NAMESPACE now nonce req st).2 !! key' = st !! key') /\
  (is_400 (ratelimit NAMESPACE now nonce req st).1 ->
   (ratelimit NAMESPACE now nonce req st).2 = st) /\
  (req = BadJson ->
   ratelimit NAMESPACE now nonce req st = (HttpError 400 "invalid JSON", st)).
Proof.
  split; [|split; [apply refused_keeps_store|by intros ->]].
  intros key' Hown. destruct req as [| |b]; [done..|].
  specialize (Hown b eq_refl). unfold own_keys in Hown.
  apply not_elem_of_cons in Hown as [Hs Hf].
  apply not_elem_of_cons in Hf as [Hf _].
  unfold ratelimit. change (read_id (b_id b)) with (PyStr.strip (id_text b)).
  destruct (read_int 5 (b_limit b)) as [limit|]; [|done].
  destruct (read_int 10000 (b_windowMs b)) as [window_ms|] eqn:Hw; [|done].
  destruct (read_algo (b_algo b)) as [algo|]; [|done].
  assert (match b_windowMs b with IntOf w => w | _ => 10000 end = window_ms)
    as Hwin by (destruct (b_windowMs b); simpl in Hw; congruence).
  rewrite Hwin in Hf.
  destruct (String.eqb _ EmptyString); [done|].
  destruct (String.eqb _ "sliding").
  - pose proof (sliding_other NAMESPACE now nonce _ limit window_ms st key' Hs)
      as H.
    by destruct (_sliding_window _ _ _ _ _ _ _).
  - destruct (String.eqb _ "fixed"); [|done].
    destruct (_ =? 0); [done|].
    pose proof (fixed_other NAMESPACE now _ limit window_ms st key' Hf) as H.
    by destruct (fixed_window _ _ _ _ _ _).
Qed.

Lemma ratelimit_touches_own_keys_witness :
  (ratelimit "ratelimit:" 7 "n" (mk_request "x" 3 1000 "sliding")
     {["ratelimit:y" := mkEntry (RInt 4) None]}).2 !! "ratelimit:y"
  = Some (mkEntry (RInt 4) None).
Proof.
  refine (proj1 (ratelimit_touches_own_keys "ratelimit:" 7 "n"
                   (mk_request "x" 3 1000 "sliding")
                   {["ratelimit:y" := mkEntry (RInt 4) None]}) "ratelimit:y" _).
  intros b [= <-]. vm_compute. intros H.
  repeat (inversion H as [|? ? ? H']; clear H; rename H' into H; try discriminate).
Defined.

(** *** From one bucket to the next *)

Lemma fw_key_inj (NAMESPACE id_ : string) (b b' : Z) :
  fw_key NAMESPACE id_ b = fw_key NAMESPACE id_ b' -> b = b'.
Proof.
  unfold fw_key, k, PyStr.str_int. intros H.
  do 4 apply (inj (String.app _)) in H.
  by apply (inj pretty) in H.
Qed.

Lemma run_calls_app (NAMESPACE : string) (l1 l2 : list (Z * string * request))
    (st : redis) :
  (run_calls NAMESPACE (l1 ++ l2) st).1
  = ((run_calls NAMESPACE l1 st).1
     ++ (run_calls NAMESPACE l2 (run_calls NAMESPACE l1 st).2).1)%list.
Proof.
  revert st. induction l1 as [|[[t n] req] l1 IH]; intros st; simpl.
  - by destruct (run_calls NAMESPACE l2 st).
  - destruct (ratelimit NAMESPACE t n req st) as [r st1].
    specialize (IH st1).
    destruct (run_calls NAMESPACE (l1 ++ l2) st1) as [rs st2].
    destruct (run_calls NAMESPACE l1 st1) as [rs1 st3]. simpl in *.
    by rewrite IH.
Qed.

(** Calls in bucket [b] leave every other key as it was. *)
Lemma run_fixed_calls_other (NAMESPACE id_ : string) (N W b : Z)
    (calls : list (Z * string)) (key' : string) :
  PyStr.strip id_ <> "" -> W <> 0 ->
  Forall (fun call => fst call / W = b) calls ->
  key' <> fw_key NAMESPACE (PyStr.strip id_) b ->
  forall st : redis,
    (run_calls NAMESPACE
       (map (fun call => (fst call, snd call, mk_request id_ N W "fixed")) calls)
       st).2 !! key' = st !! key'.
Proof.
  intros Hid HW Hcalls Hne. induction Hcalls as [|call calls Ht _ IH];
    intros st; [done|].
  cbn [map run_calls fst snd]. rewrite ratelimit_fixed by done.
  pose proof (fixed_other NAMESPACE (fst call) (PyStr.strip id_) N W st key') as Hf.
  rewrite Ht in Hf. specialize (Hf Hne).
  destruct (fixed_window _ _ _ _ _ st) as [o st1]. simpl in *.
  specialize (IH st1). destruct (run_calls _ _ st1) as [rs st2]. simpl in *.
  by rewrite IH.
Qed.

(** However many calls bucket [b] has seen, the first call of another
    bucket whose counter does not exist yet is allowed, with the full
    limit less one remaining. *)
Theorem fixed_window_rollover (NAMESPACE id_ : string) (N W b b' t' : Z)
    (nonce' : string) (calls : list (Z * string)) (st : redis) :
  1 <= N -> 1 <= W -> PyStr.strip id_ <> "" ->
  Forall (fun call => fst call / W = b) calls ->
  t' / W = b' -> b' <> b ->
  st !! fw_key NAMESPACE (PyStr.strip id_) b' = None ->
  (run_calls NAMESPACE
     (map (fun call => (fst call, snd call, mk_request id_ N W "fixed")) calls
      ++ [(t', nonce', mk_request id_ N W "fixed")]) st).1
  = ((run_calls NAMESPACE
        (map (fun call => (fst call, snd call, mk_request id_ N W "fixed")) calls)
        st).1
     ++ [Answer {| allow := true; limit := N; remaining := N - 1;
                   reset := (b' + 1) * W; retryAfter := None |}])%list.
Proof.
  intros HN HW Hid Hcalls Ht' Hne Hfresh.
  rewrite run_calls_app. f_equal. cbn [run_calls].
  rewrite ratelimit_fixed by (done || lia).
  assert (bucket_counts (fw_key NAMESPACE (PyStr.strip id_) b') b' W 0
            (run_calls NAMESPACE
               (map (fun call => (fst call, snd call, mk_request id_ N W "fixed"))
                    calls) st).2) as Hinv.
  { left. split; [done|].
    rewrite (run_fixed_calls_other NAMESPACE id_ N W b calls); [done|done|lia|done|].
    intros Heq. apply fw_key_inj in Heq. done. }
  destruct (fixed_window_step NAMESPACE t' (PyStr.strip id_) N W b' 0 _
              HW Ht' ltac:(lia) Hinv) as (st' & -> & _).
  simpl. unfold fixed_answer. simpl.
  change (0 + 1) with 1.
  destruct (1 <=? N) eqn:Hle; [|apply Z.leb_gt in Hle; lia].
  repeat f_equal; lia.
Qed.

Lemma fixed_window_rollover_witness :
  (run_calls "ratelimit:"
     (map (fun call => (fst call, snd call, mk_request "y" 2 1000 "fixed"))
          [(0, "a"); (1, "b"); (2, "c")]
      ++ [(1001, "d", mk_request "y" 2 1000 "fixed")]) ∅).1
  = ((run_calls "ratelimit:"
        (map (fun call => (fst call, snd call, mk_request "y" 2 1000 "fixed"))
             [(0, "a"); (1, "b"); (2, "c")]) ∅).1
     ++ [Answer {| allow := true; limit := 2; remaining := 2 - 1;
                   reset := (1 + 1) * 1000; retryAfter := None |}])%list.
Proof.
  refine (fixed_window_rollover "ratelimit:" "y" 2 1000 0 1 1001 "d"
            [(0, "a"); (1, "b"); (2, "c")] ∅ _ _ _ _ _ _ _).
  - lia.
  - lia.
  - vm_compute. discriminate.
  - repeat constructor.
  - reflexivity.
  - discriminate.
  - apply lookup_empty.
Defined.

End RateLimiterRunsFacts.

(** ** The reconciler: the pass and the tick *)

Module ReconcilerPassFacts.
Import Reconciler ReconcilerSpec ReconcilerFacts.

(** *** The success flag *)

Lemma all_succeeded_S (answers : nat -> api_outcome) (n : nat) :
  all_succeeded answers (S n)
  = all_succeeded answers n && succeeded (answers n).
Proof.
  unfold all_succeeded. rewrite seq_S, forallb_app. simpl.
  by rewrite andb_true_r.
Qed.

Lemma all_succeeded_spec (answers : nat -> api_outcome) (n : nat) :
  all_succeeded answers n = true <->
  forall i, (i < n)%nat -> answers i = Succeeded.
Proof.
  unfold all_succeeded. rewrite forallb_forall. split.
  - intros H i Hi. specialize (H i). rewrite in_seq in H.
    specialize (H ltac:(lia)). by destruct (answers i).
  - intros H i Hi. apply in_seq in Hi. rewrite H by lia. done.
Qed.

Section Tracking.
Variable answers : nat -> api_outcome.

Lemma tracks_ret : tracks answers (ret tt).
Proof. by intros s Hs. Qed.

Lemma tracks_bind (m : M unit) (f : unit -> M unit) :
  tracks answers m -> (forall a, tracks answers (f a)) ->
  tracks answers (bind m f).
Proof.
  intros Hm Hf s Hs. unfold bind. specialize (Hm s Hs).
  destruct (m s) as [[a|] s1]; [|done]. by apply Hf.
Qed.

Lemma tracks_api (c : api_call) : tracks answers (api answers c).
Proof.
  intros s Hs. unfold api.
  destruct (answers (length (calls s))) eqn:Ha; simpl;
    rewrite length_app, Nat.add_1_r, all_succeeded_S, Ha, <- ?Hs; simpl.
  - by rewrite andb_true_r.
  - by rewrite andb_false_r.
  - by rewrite andb_false_r.
  - by rewrite andb_false_r.
Qed.

Lemma tracks_mark (name : string) : tracks answers (mark_processed name).
Proof. by intros s Hs. Qed.

Lemma tracks_for_each {A : Type} (f : A -> M unit) (l : list A) :
  (forall x, tracks answers (f x)) -> tracks answers (for_each f l).
Proof.
  intros Hf. induction l as [|x l IH]; simpl; [apply tracks_ret|].
  apply tracks_bind; [apply Hf|]. intros _. apply IH.
Qed.

Lemma tracks_sync_body (base ip : string) (records : list dns_record)
    (hostnames : list string) :
  tracks answers (sync_body base answers ip records hostnames).
Proof.
  unfold sync_body. apply tracks_bind.
  { unfold sync_root. destruct (find_a_record base records).
    - destruct (negb _); [apply tracks_api|apply tracks_ret].
    - apply tracks_api. }
  intros _. apply tracks_bind; [by intros s Hs|].
  intros _. apply tracks_bind.
  { unfold sync_ssh. apply tracks_bind; [apply tracks_mark|]. intros _.
    destruct (find_a_record (ssh_hostname base) records).
    - destruct (_ || _); [apply tracks_api|apply tracks_ret].
    - apply tracks_api. }
  intros _. apply tracks_bind.
  { apply tracks_for_each. intros h. unfold sync_hostname.
    destruct (String.eqb _ _); [apply tracks_ret|].
    destruct (find_a_record (PyStr.lower h) records).
    - apply tracks_bind; [apply tracks_mark|]. intros _.
      destruct (_ || _); [apply tracks_api|apply tracks_ret].
    - apply tracks_bind; [apply tracks_api|]. intros _. apply tracks_mark. }
  intros _. destruct hostnames as [|h hostnames']; [apply tracks_ret|].
  apply tracks_for_each. intros r st Hst. unfold prune_record.
  destruct (_ && _ && _); [by apply tracks_api|by apply tracks_ret].
Qed.

End Tracking.

(** A pass that got its address, its zone and its listing returns
    [True] exactly when every writing call it issued came back with
    [success] true. *)
Theorem pass_succeeds_iff_calls_succeed (base ip zone : string)
    (records : list dns_record) (answers : nat -> api_outcome)
    (hostnames : list string) (issued : list api_call) (ok : bool) :
  sync_dns_records base (mkLookups (Some ip) (Some zone) (Some records))
    answers hostnames = SyncDone issued ok ->
  (ok = true <-> forall i, (i < length issued)%nat -> answers i = Succeeded).
Proof.
  unfold sync_dns_records. destruct (String.eqb base EmptyString); [done|].
  simpl. pose proof (tracks_sync_body answers base ip records hostnames
                       (mkPass [] true []) eq_refl) as Ht.
  destruct (sync_body base answers ip records hostnames (mkPass [] true []))
    as [[u|] s]; intros [= <- <-]; rewrite <- all_succeeded_spec.
  - by rewrite Ht.
  - by rewrite Ht.
Qed.

Lemma pass_succeeds_iff_calls_succeed_witness :
  false = true <->
  forall i, (i < 3)%nat ->
    (fun n : nat => if (n =? 2)%nat then Failed else Succeeded) i = Succeeded.
Proof.
  refine (pass_succeeds_iff_calls_succeed "example.com" "1.2.3.4" "zone" []
            (fun n : nat => if (n =? 2)%nat then Failed else Succeeded)
            ["app.example.com"]
            [Create "example.com" "1.2.3.4" true;
             Create "ssh-3afb6505.example.com" "1.2.3.4" false;
             Create "app.example.com" "1.2.3.4" true] false _).
  reflexivity.
Defined.

(** *** A listing that needs nothing *)

Lemma filter_nil_all {A : Type} (f : A -> bool) (l : list A) (x : A) :
  List.filter f l = [] -> In x l -> f x = false.
Proof.
  induction l as [|y l IH]; [done|]. simpl.
  destruct (f y) eqn:Hy; [done|]. intros Hl [<-|Hx]; auto.
Qed.

Section Quiet.
Variable base : string.
Variable answers : nat -> api_outcome.
Variable ip : string.
Variable records : list dns_record.

Lemma quiet_hostnames (hostnames : list string) :
  Forall (fun h =>
            PyStr.lower h = ssh_hostname base \/
            exists r, find_a_record (PyStr.lower h) records = Some r /\
                      r_content r = ip /\
                      get_proxied r = should_proxy_of base (PyStr.lower h))
         hostnames ->
  forall s,
    for_each (sync_hostname base answers ip records) hostnames s
    = (Some tt,
       mkPass (calls s) (success s)
         (processed_records s
          ++ List.filter (fun h => negb (String.eqb h (ssh_hostname base)))
               (map PyStr.lower hostnames))).
Proof.
  induction 1 as [|h hostnames Hh _ IH]; intros s.
  - destruct s. simpl. by rewrite app_nil_r.
  - cbn [for_each]. unfold bind, sync_hostname at 1.
    destruct (String.eqb_spec (PyStr.lower h) (ssh_hostname base)) as [Heq|Hne].
    + simpl. rewrite IH. simpl.
      destruct (String.eqb_spec (PyStr.lower h) (ssh_hostname base)); done.
    + destruct Hh as [Hh|(r & -> & Hc & Hp)]; [done|].
      unfold bind, mark_processed. simpl.
      apply String.eqb_eq in Hc. rewrite Hc, Hp, eqb_reflx. simpl.
      rewrite IH. simpl.
      destruct (String.eqb_spec (PyStr.lower h) (ssh_hostname base)); [done|].
      simpl. by rewrite <- app_assoc.
Qed.

Lemma quiet_prune (rs : list dns_record) (s : pass_state) :
  (forall r, In r rs -> prunable base (processed_records s) r = false) ->
  for_each (prune_record base answers) rs s = (Some tt, s).
Proof.
  induction rs as [|r rs IH]; intros Hrs; [done|].
  cbn [for_each]. unfold bind, prune_record at 1.
  pose proof (Hrs r (or_introl eq_refl)) as Hr. unfold prunable in Hr.
  rewrite Hr. simpl. apply IH. intros r' Hr'. apply Hrs. by right.
Qed.

End Quiet.

Lemma converged_lookups (base ip : string) (records : list dns_record)
    (hostnames : list string) :
  converged base ip records hostnames ->
  lookups_converged base ip records hostnames.
Proof.
  intros ((root & Hroot & Hrc) & (ssh & Hssh & Hsc & Hsp) & Hhosts & Horph).
  split; [|split; [|split]].
  - exists root. split; [by apply find_a_record_first|done].
  - exists ssh. split; [by apply find_a_record_first|]. split; [done|].
    by apply get_proxied_false.
  - eapply Forall_impl; [exact Hhosts|]. simpl.
    intros h [Hh|(r & flag & Hr & Hc & Hflag & Hends)]; [by left|right].
    exists r. split; [by apply find_a_record_first|]. split; [done|].
    unfold should_proxy_of.
    assert (get_proxied r = flag) as ->.
    { unfold get_proxied. by destruct Hflag as [->|[-> ->]]. }
    rewrite <- endswith_spec in Hends.
    destruct flag, (PyStr.endswith (PyStr.lower h) ("-d." +:+ base)); simpl;
      try done.
    + by destruct (proj2 Hends eq_refl).
    + by destruct (proj1 Hends eq_refl).
  - clear Hroot Hssh Hhosts.
    induction Horph as [|r records Hr _ IH]; [done|].
    rewrite <- orphan_test in Hr. unfold orphaned in *. cbn [List.filter].
    apply not_true_is_false in Hr. by rewrite Hr.
Qed.

(** For a base domain and hostnames of the ASCII range: on a listing
    where the first A-record of the root has the address, that of the
    helper has the address and is unproxied, that of every hostname
    has the address and the flag its name calls for, and no record is
    an orphan, the pass issues no call at all and returns [True]. *)
Theorem converged_pass_is_quiet (base ip zone : string)
    (records : list dns_record) (answers : nat -> api_outcome)
    (hostnames : list string) :
  PyStr.is_ascii base = true ->
  Forall (fun h => PyStr.is_ascii h = true) hostnames ->
  base <> "" ->
  converged base ip records hostnames ->
  sync_dns_records base (mkLookups (Some ip) (Some zone) (Some records))
    answers hostnames = SyncDone [] true.
Proof.
  intros _ _ Hbase Hconverged.
  destruct (converged_lookups base ip records hostnames Hconverged)
    as ((root & Hroot & Hrc) & (ssh & Hssh & Hsc & Hsp) & Hhosts & Horph).
  unfold sync_dns_records. apply String.eqb_neq in Hbase. rewrite Hbase. simpl.
  unfold sync_body, bind, sync_root, sync_ssh, mark_processed.
  rewrite Hroot, Hssh. apply String.eqb_eq in Hrc, Hsc.
  rewrite Hrc, Hsc, Hsp. simpl.
  rewrite (quiet_hostnames base answers ip records hostnames Hhosts). simpl.
  destruct hostnames as [|h hostnames']; [done|].
  rewrite quiet_prune; [done|]. intros r Hr. simpl.
  pose proof (filter_nil_all _ _ r Horph Hr) as Hno.
  etrans; [|exact Hno]. unfold prunable. do 2 f_equal.
  exact (processed_desired base (r_name r) (h :: hostnames')).
Qed.

Lemma converged_pass_is_quiet_witness :
  sync_dns_records "example.com"
    (mkLookups (Some "1.2.3.4") (Some "zone")
       (Some [mkRecord "0" "A" "example.com" "1.2.3.4" (Some true);
              mkRecord "1" "A" "ssh-3afb6505.example.com" "1.2.3.4" (Some false);
              mkRecord "2" "A" "app-d.example.com" "1.2.3.4" (Some false);
              mkRecord "3" "MX" "mail.example.com" "9.9.9.9" None]))
    (fun _ => Raised) ["App-D.example.com"]
  = SyncDone [] true.
Proof.
  refine (converged_pass_is_quiet "example.com" "1.2.3.4" "zone" _ _ _ _ _ _ _).
  - reflexivity.
  - repeat constructor.
  - discriminate.
  - split; [|split; [|split]].
    + eexists. split; [by apply find_a_record_found|reflexivity].
    + eexists. split; [by apply find_a_record_found|]. split; reflexivity.
    + constructor; [|constructor]. right. exists
        (mkRecord "2" "A" "app-d.example.com" "1.2.3.4" (Some false)), false.
      split; [by apply find_a_record_found|]. split; [reflexivity|].
      split; [by left|]. split; [|reflexivity]. intros _. by exists "app".
    + repeat (constructor; [intros Horphan%orphan_test; by vm_compute in Horphan|]).
      constructor.
Defined.

(** *** What pruning may delete *)

Lemma emits_from_any (I : pass_state -> Prop) (m : M unit) (Q : api_call -> Prop) :
  emits m Q -> emits_from I m Q.
Proof. intros Hm s _. apply Hm. Qed.

Lemma emits_from_bind (I J : pass_state -> Prop) (m : M unit)
    (f : unit -> M unit) (Q : api_call -> Prop) :
  emits_from I m Q ->
  (forall s s', I s -> m s = (Some tt, s') -> J s') ->
  (forall a, emits_from J (f a) Q) ->
  emits_from I (bind m f) Q.
Proof.
  intros Hm HJ Hf s Hs. unfold bind. destruct (Hm s Hs) as (e1 & H1 & F1).
  specialize (HJ s). destruct (m s) as [[[]|] s1]; simpl in *.
  - destruct (Hf tt s1 (HJ s1 Hs eq_refl)) as (e2 & H2 & F2).
    exists (e1 ++ e2)%list. rewrite H2, H1, app_assoc. split; [done|].
    by apply Forall_app.
  - by exists e1.
Qed.

Lemma emits_weaken (m : M unit) (Q Q' : api_call -> Prop) :
  (forall c, Q c -> Q' c) -> emits m Q -> emits m Q'.
Proof.
  intros HQ Hm s. destruct (Hm s) as (extra & Hc & HF). exists extra.
  split; [done|]. eapply Forall_impl; eauto.
Qed.

Section Pruning.
Variable base : string.
Variable answers : nat -> api_outcome.
Variable ip : string.
Variable records : list dns_record.

Lemma api_keeps_processed (c : api_call) (s : pass_state) :
  processed_records (api answers c s).2 = processed_records s.
Proof. unfold api. by destruct (answers _). Qed.

Lemma sync_hostname_processed (h : string) (s s' : pass_state) :
  sync_hostname base answers ip records h s = (Some tt, s') ->
  processed_records s'
  = (processed_records s
     ++ (if String.eqb (PyStr.lower h) (ssh_hostname base)
         then [] else [PyStr.lower h]))%list.
Proof.
  unfold sync_hostname.
  destruct (String.eqb (PyStr.lower h) (ssh_hostname base)).
  - intros [= <-]. by rewrite app_nil_r.
  - destruct (find_a_record (PyStr.lower h) records) as [r|];
      unfold bind, mark_processed; simpl.
    + destruct (_ || _).
      * pose proof (api_keeps_processed
                      (Update (r_id r) (PyStr.lower h) ip
                         (should_proxy_of base (PyStr.lower h)))
                      (mkPass (calls s) (success s)
                         (processed_records s ++ [PyStr.lower h]))) as Hp.
        destruct (api answers _ _) as [[[]|] s1]; [|done].
        by intros [= <-].
      * by intros [= <-].
    + pose proof (api_keeps_processed
                    (Create (PyStr.lower h) ip
                       (should_proxy_of base (PyStr.lower h))) s) as Hp.
      destruct (api answers _ s) as [[[]|] s1]; [|done].
      simpl in *. intros [= <-]. simpl. by rewrite Hp.
Qed.

Lemma hostnames_processed (hostnames : list string) :
  forall s s',
    for_each (sync_hostname base answers ip records) hostnames s = (Some tt, s') ->
    processed_records s'
    = (processed_records s
       ++ List.filter (fun h => negb (String.eqb h (ssh_hostname base)))
            (map PyStr.lower hostnames))%list.
Proof.
  induction hostnames as [|h hostnames IH]; intros s s'.
  - intros [= <-]. simpl. by rewrite app_nil_r.
  - cbn [for_each]. unfold bind.
    destruct (sync_hostname base answers ip records h s) as [[[]|] s1] eqn:Hh;
      [|done].
    intros Hrest. apply sync_hostname_processed in Hh.
    rewrite (IH _ _ Hrest), Hh. simpl.
    destruct (String.eqb (PyStr.lower h) (ssh_hostname base)); simpl;
      by rewrite <- app_assoc.
Qed.

Lemma sync_root_processed (s s' : pass_state) :
  sync_root base answers ip records s = (Some tt, s') ->
  processed_records s' = processed_records s.
Proof.
  unfold sync_root. destruct (find_a_record base records) as [r|].
  - destruct (negb _); [|by intros [= <-]].
    pose proof (api_keeps_processed (Update (r_id r) base ip true) s) as Hp.
    destruct (api answers _ s) as [[[]|] s1]; [|done]. by intros [= <-].
  - pose proof (api_keeps_processed (Create base ip true) s) as Hp.
    destruct (api answers _ s) as [[[]|] s1]; [|done]. by intros [= <-].
Qed.

Lemma sync_ssh_processed (s s' : pass_state) :
  sync_ssh base answers ip records s = (Some tt, s') ->
  processed_records s' = (processed_records s ++ [ssh_hostname base])%list.
Proof.
  unfold sync_ssh, bind, mark_processed. simpl.
  destruct (find_a_record (ssh_hostname base) records) as [r|].
  - destruct (_ || _); [|by intros [= <-]].
    pose proof (api_keeps_processed (Update (r_id r) (ssh_hostname base) ip false)
                  (mkPass (calls s) (success s)
                     (processed_records s ++ [ssh_hostname base]))) as Hp.
    destruct (api answers _ _) as [[[]|] s1]; [|done]. by intros [= <-].
  - pose proof (api_keeps_processed (Create (ssh_hostname base) ip false)
                  (mkPass (calls s) (success s)
                     (processed_records s ++ [ssh_hostname base]))) as Hp.
    destruct (api answers _ _) as [[[]|] s1]; [|done]. by intros [= <-].
Qed.

Lemma prune_emits (hostnames : list string) (rs : list dns_record) :
  (forall r, In r rs -> In r records) ->
  emits_from (fun s => processed_records s = processed_by base hostnames)
    (for_each (prune_record base answers) rs)
    (deletes_orphan base hostnames records).
Proof.
  induction rs as [|r rs IH]; intros Hsub s Hs.
  - exists []. simpl. by rewrite app_nil_r.
  - cbn [for_each].
    apply (emits_from_bind
             (fun s => processed_records s = processed_by base hostnames)
             (fun s => processed_records s = processed_by base hostnames));
      [| |intros _; apply IH; intros r' Hr'; apply Hsub; by right|done].
    + intros s0 Hs0. unfold prune_record.
      destruct (_ && _ && _) eqn:Hcond.
      * exists [Delete (r_id r)]. split; [unfold api; by destruct (answers _)|].
        repeat constructor. simpl. exists r. split; [|done].
        unfold orphaned. apply filter_In. split; [apply Hsub; by left|].
        etrans; [|exact Hcond]. rewrite Hs0. do 2 f_equal. symmetry.
        apply processed_desired.
      * exists []. simpl. by rewrite app_nil_r.
    + intros s0 s' Hs0. unfold prune_record.
      destruct (_ && _ && _).
      * pose proof (api_keeps_processed (Delete (r_id r)) s0) as Hp.
        destruct (api answers _ s0) as [[[]|] s1]; [|done].
        intros [= <-]. simpl in Hp. by rewrite Hp.
      * by intros [= <-].
Qed.

Lemma sync_body_deletes (hostnames : list string) :
  emits (sync_body base answers ip records hostnames)
    (deletes_orphan base hostnames records).
Proof.
  assert (forall c, is_delete c = false ->
                    deletes_orphan base hostnames records c) as Hnd
    by (by intros []).
  assert (forall c, static_call base records c ->
                    deletes_orphan base hostnames records c) as Hst
    by (by intros []).
  intros s. apply (fun H => H s I). unfold sync_body.
  apply (emits_from_bind _ (fun _ => True));
    [apply emits_from_any, (emits_weaken _ _ _ Hst), sync_root_emits|done|].
  intros _.
  apply (emits_from_bind _ (fun s => processed_records s = [base])).
  { intros s0 _. exists []. simpl. by rewrite app_nil_r. }
  { by intros s0 s' _ [= <-]. }
  intros _.
  apply (emits_from_bind _
           (fun s => processed_records s = [base; ssh_hostname base])).
  { apply emits_from_any, (emits_weaken _ _ _ Hst), sync_ssh_emits. }
  { intros s0 s' Hs0 Hrun. apply sync_ssh_processed in Hrun.
    by rewrite Hrun, Hs0. }
  intros _.
  apply (emits_from_bind _
           (fun s => processed_records s = processed_by base hostnames)).
  { apply emits_from_any, emits_for_each. intros h.
    apply (emits_weaken _ _ _ Hnd). unfold sync_hostname.
    destruct (String.eqb (PyStr.lower h) (ssh_hostname base));
      [apply emits_ret|].
    destruct (find_a_record (PyStr.lower h) records) as [r|].
    - apply emits_bind; [apply emits_mark|]. intros _.
      destruct (_ || _); [|apply emits_ret]. by apply emits_api.
    - apply emits_bind; [by apply emits_api|]. intros _. apply emits_mark. }
  { intros s0 s' Hs0 Hrun. apply hostnames_processed in Hrun.
    by rewrite Hrun, Hs0. }
  intros _. destruct hostnames as [|h hostnames'].
  - apply emits_from_any, emits_ret.
  - by apply prune_emits.
Qed.

End Pruning.

(** For a base domain and hostnames of the ASCII range: whatever the
    provider answers, even when a call raises, every record a pass
    deletes is a listed A-record whose name ends with [.<base>] and is
    not among the desired names. *)
Theorem deletes_only_orphans (base : string) (remote : lookups)
    (answers : nat -> api_outcome) (hostnames : list string)
    (record_id : string) :
  PyStr.is_ascii base = true ->
  Forall (fun h => PyStr.is_ascii h = true) hostnames ->
  In (Delete record_id)
     (issued_by (sync_dns_records base remote answers hostnames)) ->
  exists r, In r (default [] (existing_records remote)) /\
            orphan base hostnames r /\ r_id r = record_id.
Proof.
  intros _ _ Hdel.
  cut (exists r, In r (orphaned base hostnames (default [] (existing_records remote)))
                 /\ r_id r = record_id).
  { intros (r & Hr & Hid). unfold orphaned in Hr.
    apply filter_In in Hr as [Hr Htest]. apply orphan_test in Htest.
    by exists r. }
  revert Hdel.
  unfold sync_dns_records. destruct (String.eqb base EmptyString); [done|].
  destruct remote as [[ip|] [zone|] [records|]]; simpl; try done.
  destruct (sync_body_deletes base answers ip records hostnames (mkPass [] true []))
    as (extra & Hcalls & Hall).
  simpl in Hcalls.
  assert (In (Delete record_id) extra ->
          exists r, In r (orphaned base hostnames records) /\ r_id r = record_id)
    as Hin.
  { intros Hd. rewrite Forall_forall in Hall.
    apply (Hall (Delete record_id)). by apply list_elem_of_In. }
  destruct (sync_body base answers ip records hostnames (mkPass [] true []))
    as [[u|] s]; simpl in *; rewrite Hcalls; exact Hin.
Qed.

Lemma deletes_only_orphans_witness :
  exists r,
    In r [mkRecord "1" "A" "a.example.com" "9.9.9.9" (Some true);
          mkRecord "2" "A" "c.example.com" "1.2.3.4" (Some true)] /\
    orphan "example.com" ["a.example.com"] r /\ r_id r = "2".
Proof.
  refine (deletes_only_orphans "example.com"
            (mkLookups (Some "1.2.3.4") (Some "zone")
               (Some [mkRecord "1" "A" "a.example.com" "9.9.9.9" (Some true);
                      mkRecord "2" "A" "c.example.com" "1.2.3.4" (Some true)]))
            (fun n : nat => if (n =? 3)%nat then FailedUnlogged else Failed)
            ["a.example.com"] "2" _ _ _).
  - reflexivity.
  - repeat constructor.
  - vm_compute. auto 10.
Defined.

End ReconcilerPassFacts.

(** ** The lightweight check *)

Module TickFacts.
Import Reconciler ReconcilerSpec.

(** *** [strip] on a word *)

Lemma lstrip_not_at_space (s : string) :
  PyStr.at_space s = false -> PyStr.lstrip s = s.
Proof.
  destruct s as [|c [|d [|e s]]]; [done|..]; cbn [PyStr.at_space PyStr.lstrip].
  - by destruct (PyStr.is_space c).
  - by destruct (PyStr.is_space c), (PyStr.is_space2 c d).
  - by destruct (PyStr.is_space c), (PyStr.is_space2 c d), (PyStr.is_space3 c d e).
Qed.

Lemma lstrip_no_space (s : string) : no_space s = true -> PyStr.lstrip s = s.
Proof.
  destruct s as [|c s]; [done|]. cbn [no_space]. intros H.
  apply andb_true_iff in H as [Hc _]. apply negb_true_iff in Hc.
  by apply lstrip_not_at_space.
Qed.

Lemma rstrip_no_space (s : string) : no_space s = true -> PyStr.rstrip s = s.
Proof.
  induction s as [|c s IH]; [done|]. intros H.
  pose proof (lstrip_no_space _ H) as Hl.
  cbn [no_space] in H. apply andb_true_iff in H as [_ Hs].
  cbn [PyStr.rstrip]. rewrite Hl. by rewrite IH.
Qed.

(** A word without whitespace is its own [strip()]. *)
Lemma strip_no_space (s : string) : no_space s = true -> PyStr.strip s = s.
Proof.
  intros Hs. unfold PyStr.strip. rewrite (lstrip_no_space s Hs).
  by apply rstrip_no_space.
Qed.

(** *** The stored checksum *)

(** What [update_traefik_checksum] stores is what
    [has_traefik_config_changed] then finds unchanged: after a digest
    has been stored, a check that computes the same digest reports no
    change. *)
Theorem stored_checksum_is_recognised (pr pr' : probe) (fs : files)
    (checksum : string) :
  checksum <> "" -> no_space checksum = true ->
  checksum_at_update pr = Some checksum ->
  checksum_at_check pr' = Some checksum ->
  has_traefik_config_changed pr' (update_traefik_checksum pr fs) = false.
Proof.
  intros Hne Hword Hup Hcheck.
  unfold has_traefik_config_changed, update_traefik_checksum.
  rewrite Hup, Hcheck. destruct checksum as [|c rest]; [done|].
  cbn [checksum_file]. rewrite (strip_no_space _ Hword).
  by rewrite String.eqb_refl.
Qed.

Lemma stored_checksum_is_recognised_witness :
  has_traefik_config_changed (mkProbe (Some "d41d8cd9") None true)
    (update_traefik_checksum (mkProbe None (Some "d41d8cd9") false)
       (mkFiles (Some "0000") false)) = false.
Proof.
  refine (stored_checksum_is_recognised (mkProbe None (Some "d41d8cd9") false)
            (mkProbe (Some "d41d8cd9") None true) (mkFiles (Some "0000") false)
            "d41d8cd9" _ _ _ _).
  - discriminate.
  - reflexivity.
  - reflexivity.
  - reflexivity.
Defined.

(** *** What a tick leaves behind *)

(** A tick returns 0 or 1.  When it returns 1 both files are as they
    were; when it returns 0 the health file has been written.  The
    stored checksum changes only in a tick in which the sync script
    exited with status 0. *)
Theorem tick_outcome (w : world) (pr : probe) (fs : files) :
  ((tick w pr fs).1 = 0 /\ health_touched (tick w pr fs).2 = true \/
   (tick w pr fs).1 = 1 /\ (tick w pr fs).2 = fs) /\
  (checksum_file (tick w pr fs).2 <> checksum_file fs ->
     exit_code (main w) = 0).
Proof.
  unfold tick, run_full_sync, update_health_check.
  destruct (has_traefik_config_changed pr fs).
  - destruct (exit_code (main w) =? 0) eqn:Hexit; simpl.
    + apply Z.eqb_eq in Hexit. split; [by left|done].
    + split; [by right|done].
  - destruct (check_ssh_connectivity w pr); simpl.
    + split; [by left|done].
    + destruct (exit_code (main w) =? 0) eqn:Hexit; simpl.
      * apply Z.eqb_eq in Hexit. split; [by left|done].
      * split; [by right|done].
Qed.

(** With an empty DOMAIN_BASE and the Traefik config in place, every
    tick counts as a success although the provider is never contacted:
    the probe of the helper is skipped, the sync script exits 0 without
    issuing a call, the checksum is stored and the health file
    written. *)
Theorem tick_without_domain_base (w : world) (pr : probe) (fs : files) :
  DOMAIN_BASE w = "" -> config_exists w = true ->
  issued_calls (main w) = [] /\
  tick w pr fs = (0, update_health_check (update_traefik_checksum pr fs)).
Proof.
  intros Hbase Hconfig.
  assert (main w = mkOutcome 0 [] false) as Hmain.
  { unfold main. rewrite Hconfig, Hbase. simpl.
    by destruct (truthy (CLOUDFLARE_API_TOKEN w)). }
  split; [by rewrite Hmain|].
  unfold tick, run_full_sync, check_ssh_connectivity. rewrite Hmain, Hbase.
  simpl. by destruct (has_traefik_config_changed pr fs).
Qed.

Lemma tick_without_domain_base_witness :
  tick (mkWorld (Some "token") "" true (Some ["app.example.com"])
          (mkLookups None None None) (fun _ => Failed))
       (mkProbe (Some "abc") (Some "abc") true) (mkFiles (Some "abc") false)
  = (0, mkFiles (Some "abc") true).
Proof.
  refine (proj2 (tick_without_domain_base
            (mkWorld (Some "token") "" true (Some ["app.example.com"])
               (mkLookups None None None) (fun _ => Failed))
            (mkProbe (Some "abc") (Some "abc") true)
            (mkFiles (Some "abc") false) _ _)).
  - reflexivity.
  - reflexivity.
Defined.

End TickFacts.

(** ** What the reconciler reads *)

Module ExtractionFacts.
Import Extraction.

Lemma append_cons (c : ascii) (s t : string) :
  String c s +:+ t = String c (s +:+ t).
Proof. reflexivity. Qed.

Lemma append_assoc (s t u : string) : (s +:+ t) +:+ u = s +:+ (t +:+ u).
Proof.
  induction s as [|c s IH]; [done|]. by rewrite !append_cons, IH.
Qed.

Lemma append_nil_r (s : string) : s +:+ "" = s.
Proof. induction s as [|c s IH]; [done|]. by rewrite append_cons, IH. Qed.

Lemma length_app_string (s t : string) :
  String.length (s +:+ t) = (String.length s + String.length t)%nat.
Proof.
  induction s as [|c s IH]; [done|]. rewrite append_cons. simpl. by rewrite IH.
Qed.

(** *** The hostnames of a rule *)

Lemma span_plain_plain (s x r : string) :
  span_plain s = (x, r) -> plain x = true.
Proof.
  revert x r. induction s as [|c s IH]; intros x r; simpl.
  - by intros [= <- <-].
  - destruct (is_backtick c) eqn:Hc; [by intros [= <- <-]|].
    destruct (span_plain s) as [x' r']. intros [= <- <-]. simpl.
    rewrite Hc. simpl. by eapply IH.
Qed.

Lemma match_host_ok (s x : string) (n : nat) :
  match_host s = Some (x, n) -> hostname_ok x.
Proof.
  unfold match_host. destruct (strip_prefix "Host(`" s) as [s1|]; [|done].
  destruct (span_plain s1) as [x' r] eqn:Hspan.
  destruct x' as [|c x']; [done|].
  destruct (strip_prefix "`)" r); [|done].
  intros [= <- <-]. split; [done|]. by eapply span_plain_plain.
Qed.

Lemma findall_from_ok (s : string) :
  forall skip, Forall hostname_ok (findall_from skip s).
Proof.
  induction s as [|c s IH]; intros skip; [constructor|].
  simpl. destruct skip as [|n]; [|apply IH].
  destruct (match_host (String c s)) as [[x len]|] eqn:Hm; [|apply IH].
  constructor; [by eapply match_host_ok|apply IH].
Qed.

(** Every hostname [extract_hostnames] returns is non-empty and free of
    backticks, whatever the document holds. *)
Theorem extracted_hostnames_ok (config : option traefik_config) :
  Forall hostname_ok (extract_hostnames config).
Proof.
  unfold extract_hostnames. destruct config as [c|]; [|constructor].
  destruct (http c) as [h|]; [|constructor].
  destruct (routers h) as [rs|]; [|constructor].
  induction rs as [|[name rc] rs IH]; [constructor|].
  simpl. apply Forall_app. split; [|done].
  destruct (rule rc); [apply findall_from_ok|constructor].
Qed.

Lemma span_plain_app (h rest : string) :
  plain h = true ->
  span_plain (h +:+ String "`" rest) = (h, String "`" rest).
Proof.
  induction h as [|c h IH]; [done|]. cbn [plain]. intros Hp.
  apply andb_true_iff in Hp as [Hc Hp]. apply negb_true_iff in Hc.
  change (String c h +:+ String "`" rest)
    with (String c (h +:+ String "`" rest)).
  cbn [span_plain]. by rewrite Hc, IH.
Qed.

Lemma match_host_clause (h rest : string) :
  hostname_ok h ->
  match_host (host_clause h +:+ rest)
  = Some (h, (6 + String.length h + 2)%nat).
Proof.
  intros [Hne Hp]. unfold match_host, host_clause.
  rewrite !append_assoc.
  change (strip_prefix "Host(`" ("Host(`" +:+ h +:+ "`)" +:+ rest))
    with (Some (h +:+ String "`" (String ")" rest))).
  cbn beta iota. rewrite (span_plain_app h _ Hp).
  destruct h as [|c h]; [done|]. done.
Qed.

Lemma findall_skip (p rest : string) :
  findall_from (String.length p) (p +:+ rest) = findall_from 0 rest.
Proof. induction p as [|c p IH]; [done|]. rewrite append_cons. simpl. apply IH. Qed.

Lemma findall_clause (h rest : string) :
  hostname_ok h ->
  findall_from 0 (host_clause h +:+ rest) = h :: findall_from 0 rest.
Proof.
  intros Hh. pose proof (match_host_clause h rest Hh) as Hm.
  unfold host_clause in *. rewrite !append_assoc in *.
  change ("Host(`" +:+ h +:+ "`)" +:+ rest)
    with (String "H" ("ost(`" +:+ h +:+ "`)" +:+ rest)) in *.
  cbn [findall_from]. rewrite Hm. f_equal.
  rewrite <- (findall_skip ("ost(`" +:+ h +:+ "`)") rest).
  rewrite !append_assoc. f_equal.
  rewrite !length_app_string. simpl. lia.
Qed.

Lemma findall_sep (sep rest : string) :
  no_H sep = true -> findall_from 0 (sep +:+ rest) = findall_from 0 rest.
Proof.
  induction sep as [|c sep IH]; [done|]. cbn [no_H]. intros H.
  apply andb_true_iff in H as [Hc H]. apply negb_true_iff in Hc.
  change (String c sep +:+ rest) with (String c (sep +:+ rest)).
  cbn [findall_from].
  assert (match_host (String c (sep +:+ rest)) = None) as ->.
  { unfold match_host. cbn [strip_prefix].
    rewrite Ascii.eqb_sym, Hc. done. }
  by apply IH.
Qed.

Lemma findall_rule (sep : string) (hostnames : list string) (rest : string) :
  no_H sep = true -> Forall hostname_ok hostnames ->
  findall_from 0 (rule_of sep hostnames +:+ rest)
  = (hostnames ++ findall_from 0 rest)%list.
Proof.
  intros Hsep Hall. unfold rule_of.
  induction Hall as [|h hostnames Hh Hall IH]; [done|].
  destruct hostnames as [|h' hostnames].
  - simpl. by apply findall_clause.
  - change (String.concat sep (map host_clause (h :: h' :: hostnames)))
      with (host_clause h +:+ sep
            +:+ String.concat sep (map host_clause (h' :: hostnames))).
    rewrite !append_assoc, findall_clause, findall_sep by done.
    by rewrite IH.
Qed.

(** Writing hostnames into rules and extracting them gives them back:
    for a document whose routers each carry the rule made of their
    hostnames, joined by a separator without the letter H,
    [extract_hostnames] returns the hostnames of all routers, in
    order and with their duplicates. *)
Theorem extract_hostnames_round_trip (sep : string)
    (sites : list (string * list string)) :
  no_H sep = true ->
  Forall (fun site => Forall hostname_ok (snd site)) sites ->
  extract_hostnames (config_of sep sites) = concat (map snd sites).
Proof.
  intros Hsep Hall. unfold extract_hostnames, config_of. simpl.
  induction Hall as [|[name hs] sites Hhs _ IH]; [done|].
  simpl in *. rewrite IH. f_equal. unfold findall.
  rewrite <- (append_nil_r (rule_of sep hs)).
  rewrite (findall_rule sep hs EmptyString Hsep Hhs). simpl.
  by rewrite app_nil_r.
Qed.

Lemma extract_hostnames_round_trip_witness :
  extract_hostnames
    (config_of " || " [("web", ["a.example.org"; "b.example.org"]);
                       ("api", ["api-d.example.org"])])
  = ["a.example.org"; "b.example.org"; "api-d.example.org"].
Proof.
  refine (extract_hostnames_round_trip " || "
            [("web", ["a.example.org"; "b.example.org"]);
             ("api", ["api-d.example.org"])] _ _).
  - reflexivity.
  - repeat constructor; discriminate.
Defined.

(** *** The external address *)

Lemma span_digits_spec (s d r : string) :
  span_digits s = (d, r) -> s = d +:+ r /\ all_digits d = true.
Proof.
  revert d r. induction s as [|c s IH]; intros d r; cbn [span_digits].
  - by intros [= <- <-].
  - destruct (is_digit c) eqn:Hc; [|by intros [= <- <-]].
    destruct (span_digits s) as [d' r']. intros [= <- <-].
    destruct (IH d' r' eq_refl) as [-> Hd]. split; [done|].
    cbn [all_digits]. by rewrite Hc, Hd.
Qed.

Lemma digits_dot_spec (s r : string) :
  digits_dot s = Some r ->
  exists a, (a <> "" /\ all_digits a = true) /\ s = a +:+ "." +:+ r.
Proof.
  unfold digits_dot. destruct (span_digits s) as [d r'] eqn:Hspan.
  apply span_digits_spec in Hspan as [-> Hd].
  destruct d as [|c d]; [done|]. destruct r' as [|c' r']; [done|].
  destruct (Ascii.eqb_spec c' "."%char) as [->|]; [|done].
  intros [= <-]. by exists (String c d).
Qed.

Lemma last_char_app (s : string) (c : ascii) :
  last_char (s +:+ String c "") = Some c.
Proof.
  induction s as [|c' s IH]; [done|].
  change (String c' s +:+ String c "") with (String c' (s +:+ String c "")).
  cbn [last_char]. rewrite IH. by destruct s.
Qed.

(** [strip()] leaves no whitespace at the end. *)
Lemma rstrip_last (s : string) (c : ascii) :
  last_char (PyStr.rstrip s) = Some c -> PyStr.is_space c = false.
Proof.
  induction s as [|x s IH]; [done|]. cbn [PyStr.rstrip].
  destruct (PyStr.lstrip (String x s)) as [|y u] eqn:Hl; [done|].
  cbn [last_char]. destruct (PyStr.rstrip s) as [|z r] eqn:Hr; [|apply IH].
  intros [= <-]. destruct (PyStr.is_space x) eqn:Hx; [|done]. exfalso.
  cbn [PyStr.lstrip] in Hl. rewrite Hx in Hl.
  destruct s as [|x' s]; [done|]. cbn [PyStr.rstrip] in Hr.
  by rewrite Hl in Hr.
Qed.

Lemma strip_last (s : string) (c : ascii) :
  last_char (PyStr.strip s) = Some c -> PyStr.is_space c = false.
Proof. apply rstrip_last. Qed.

Lemma is_ip_stripped (t : string) :
  is_ip (PyStr.strip t) = true -> dotted_quad (PyStr.strip t).
Proof.
  intros Hip. pose proof (strip_last t) as Hlast.
  revert Hip Hlast. generalize (PyStr.strip t). intros ip. unfold is_ip.
  destruct (digits_dot ip) as [s1|] eqn:H1; [|done].
  destruct (digits_dot s1) as [s2|] eqn:H2; [|done].
  destruct (digits_dot s2) as [s3|] eqn:H3; [|done].
  apply digits_dot_spec in H1 as (a & Ha & ->).
  apply digits_dot_spec in H2 as (b & Hb & ->).
  apply digits_dot_spec in H3 as (c & Hc & ->).
  destruct (span_digits s3) as [d r] eqn:H4.
  apply span_digits_spec in H4 as [-> Hd].
  destruct d as [|x d]; [done|]. destruct r as [|y r].
  - intros _ _. rewrite append_nil_r. by exists a, b, c, (String x d).
  - destruct r; [|done]. destruct (Ascii.eqb_spec y "010"%char) as [->|]; [|done].
    intros _ Hlast. exfalso.
    specialize (Hlast "010"%char). rewrite <- !append_assoc in Hlast.
    rewrite last_char_app in Hlast. by specialize (Hlast eq_refl).
Qed.

(** When the services answer with texts of the ASCII range: the
    address [get_external_ip] returns is the stripped text of a
    service that answered with status 200, every service asked before
    it gave none, and it is four groups of digits with dots in
    between.  The groups are not range-checked. *)
Theorem external_ip_first_well_formed (get : string -> option response)
    (ip : string) :
  (forall url r, get url = Some r -> PyStr.is_ascii (text r) = true) ->
  get_external_ip get = Some ip ->
  dotted_quad ip /\
  exists (i : nat) (url : string) (r : response),
    services !! i = Some url /\ get url = Some r /\
    status_code r = 200 /\ ip = PyStr.strip (text r) /\
    forall (j : nat) (earlier : string),
      (j < i)%nat -> services !! j = Some earlier ->
      address_of (get earlier) = None.
Proof.
  intros _. unfold get_external_ip. generalize services. intros urls.
  induction urls as [|url urls IH]; [done|]. cbn [first_address].
  destruct (address_of (get url)) as [ip'|] eqn:Haddr.
  - intros [= ->]. unfold address_of in Haddr.
    destruct (get url) as [r|] eqn:Hget; [|done].
    destruct (Z.eqb_spec (status_code r) 200) as [Hst|]; [|done].
    destruct (is_ip (PyStr.strip (text r))) eqn:Hip; [|done].
    injection Haddr as <-. split; [by apply is_ip_stripped|].
    exists 0%nat, url, r. repeat split; try done. intros j ? Hj. lia.
  - intros Hrest. destruct (IH Hrest) as (Hq & i & url' & r & Hi & Hg & Hs & Hip & Hearly).
    split; [done|]. exists (S i), url', r. repeat split; try done.
    intros [|j] earlier Hj Hlook.
    + by injection Hlook as <-.
    + apply (Hearly j); [lia|done].
Qed.

Lemma external_ip_first_well_formed_witness :
  dotted_quad "203.0.113.7" /\
  exists (i : nat) (url : string) (r : response),
    services !! i = Some url /\
    (fun u => if String.eqb u "https://ifconfig.me"
              then Some (mkResponse 200 " 203.0.113.7
")
              else if String.eqb u "https://api.ipify.org"
              then Some (mkResponse 503 "busy") else None) url = Some r /\
    status_code r = 200 /\ "203.0.113.7" = PyStr.strip (text r) /\
    forall (j : nat) (earlier : string),
      (j < i)%nat -> services !! j = Some earlier ->
      address_of
        ((fun u => if String.eqb u "https://ifconfig.me"
                   then Some (mkResponse 200 " 203.0.113.7
")
                   else if String.eqb u "https://api.ipify.org"
                   then Some (mkResponse 503 "busy") else None) earlier)
      = None.
Proof.
  refine (external_ip_first_well_formed
            (fun u => if String.eqb u "https://ifconfig.me"
                      then Some (mkResponse 200 " 203.0.113.7
")
                      else if String.eqb u "https://api.ipify.org"
                      then Some (mkResponse 503 "busy") else None)
            "203.0.113.7" _ _).
  - intros url r.
    destruct (String.eqb url "https://ifconfig.me"); [by intros [= <-]|].
    destruct (String.eqb url "https://api.ipify.org"); [by intros [= <-]|done].
  - reflexivity.
Defined.

End ExtractionFacts.

(** ** The main loop of the workers *)

Module WorkerLoopFacts.
Import Worker WorkerLoop WorkerFacts.

Section LoopFacts.

Variable get_next_job : Z -> sys -> option (option claimed) * sys.
Variable process : claimed -> adapter_outcome.

Lemma iteration_metrics (p : pass) (w : worker) :
  let m := w_metrics w in
  let m' := w_metrics (iteration get_next_job process p w) in
  ACTIVE_JOBS m' = ACTIVE_JOBS m /\
  0 <= JOBS_PROCESSED m' - JOBS_PROCESSED m <= JOB_DURATION m' - JOB_DURATION m /\
  JOB_DURATION m' - JOB_DURATION m <= 1.
Proof.
  unfold iteration.
  destruct (get_next_job (fetched_at p) (w_sys w)) as [[[job|]|] s]; simpl;
    [|lia|lia].
  destruct (process job), (completed_write p), (failed_write p); simpl; lia.
Qed.

Lemma run_worker_cons (p : pass) (passes : list pass) (w : worker) :
  run_worker get_next_job process (p :: passes) w
  = run_worker get_next_job process passes (iteration get_next_job process p w).
Proof. reflexivity. Qed.

End LoopFacts.

(** Whatever the fetch, the adapter and the writes do, the gauge of
    active jobs is back at its value after every pass of the loop;
    every processed job has an observed duration, and a pass observes
    at most one. *)
Theorem gauge_balanced (get_next_job : Z -> sys -> option (option claimed) * sys)
    (process : claimed -> adapter_outcome) (passes : list pass) (w : worker) :
  let m := w_metrics w in
  let m' := w_metrics (run_worker get_next_job process passes w) in
  ACTIVE_JOBS m' = ACTIVE_JOBS m /\
  0 <= JOBS_PROCESSED m' - JOBS_PROCESSED m <= JOB_DURATION m' - JOB_DURATION m /\
  JOB_DURATION m' - JOB_DURATION m <= Z.of_nat (length passes).
Proof.
  revert w. induction passes as [|p passes IH]; intros w.
  - simpl. lia.
  - rewrite run_worker_cons. cbn zeta in *.
    pose proof (iteration_metrics get_next_job process p w) as Hit.
    cbn zeta in Hit. specialize (IH (iteration get_next_job process p w)).
    cbn [length]. lia.
Qed.

Lemma no_id_override_singleton (job_id : string) (row : job) :
  (forall fields, inputData row = Fields fields ->
                  lookup_field "jobId" fields = None) ->
  no_id_override {[job_id := row]}.
Proof.
  intros Hrow other row' fields [_ <-]%lookup_singleton_Some. apply Hrow.
Qed.

Section Sound.

Variable worker_id : string.
Variable names : list string.
Variable get_next_job : Z -> sys -> option (option claimed) * sys.
Variable process : claimed -> adapter_outcome.
Hypothesis Hget : forall now s, get_next_job now s = scan worker_id now names s.

(** The fetch on a table whose inputs leave the id alone: nothing
    happens and nothing is returned, or one QUEUED row is marked
    RUNNING, and the fetch raises or returns a dictionary with the id
    of that row. *)
Lemma fetch_cases (now : Z) (s : sys) :
  no_id_override (db s) ->
  (exists s', get_next_job now s = (Some None, s') /\ db s' = db s) \/
  exists job_id row s',
    db s !! job_id = Some row /\ j_status row = QUEUED /\
    db s' = update_running job_id worker_id now (db s) /\
    (get_next_job now s = (None, s') \/
     exists job,
       get_next_job now s = (Some (Some job), s') /\ jobId job = Text job_id).
Proof.
  intros Hno. rewrite Hget.
  destruct (scan_db worker_id now names s)
    as [(s' & -> & Hdb)|(job_id & row & s' & Hrow & Hq & -> & Hdb)].
  - left. by eexists.
  - right. exists job_id, row, s'. repeat (split; [done|]).
    destruct (build_job_cases job_id row) as [->|(fields & Hf & ->)]; [by left|].
    right. eexists. split; [done|]. simpl.
    by rewrite (Hno job_id row fields Hrow Hf).
Qed.

(** What a pass does to the table and to the counter: nothing, or it
    moves one QUEUED row to RUNNING, FAILED or COMPLETED, leaves the
    input of the row alone, and counts the row exactly in the last
    case. *)
Lemma iteration_table (p : pass) (w : worker) :
  no_id_override (db (w_sys w)) ->
  let w' := iteration get_next_job process p w in
  (db (w_sys w') = db (w_sys w) /\
   JOBS_PROCESSED (w_metrics w') = JOBS_PROCESSED (w_metrics w)) \/
  exists job_id row row',
    db (w_sys w) !! job_id = Some row /\ j_status row = QUEUED /\
    db (w_sys w') !! job_id = Some row' /\ j_status row' <> QUEUED /\
    inputData row' = inputData row /\
    (forall other, other <> job_id ->
       db (w_sys w') !! other = db (w_sys w) !! other) /\
    JOBS_PROCESSED (w_metrics w')
    = JOBS_PROCESSED (w_metrics w)
      + (if decide (j_status row' = COMPLETED) then 1 else 0).
Proof.
  intros Hno. cbn zeta. unfold iteration.
  destruct (fetch_cases (fetched_at p) (w_sys w) Hno)
    as [(s & -> & Hdb)
       |(job_id & row & s & Hrow & Hq & Hdb & [->|(job & -> & Hid)])];
    [by left|right; exists job_id, row..].
  - simpl. rewrite Hdb, update_running_lookup, Hrow. simpl.
    eexists. split; [done|]. split; [done|]. split; [reflexivity|].
    split; [done|]. split; [done|].
    split; [intros other Hne; by apply update_running_other|simpl; lia].
  - rewrite Hid.
    assert (db s !! job_id = Some (claimed_row worker_id (fetched_at p) row))
      as Hrun by (by rewrite Hdb, update_running_lookup, Hrow).
    assert (forall other, other <> job_id ->
              db s !! other = db (w_sys w) !! other) as Hothers
      by (intros other Hne; rewrite Hdb; by apply update_running_other).
    destruct (process job), (completed_write p), (failed_write p); simpl;
      unfold update_completed, update_failed;
      rewrite ?lookup_alter_eq, Hrun; simpl;
      eexists; (split; [done|]); (split; [done|]); (split; [reflexivity|]);
      (split; [done|]); (split; [done|]);
      (split; [intros other Hne; rewrite ?lookup_alter_ne by done;
               by apply Hothers
              | simpl; lia ]).
Qed.

Lemma iteration_no_override (p : pass) (w : worker) :
  no_id_override (db (w_sys w)) ->
  no_id_override (db (w_sys (iteration get_next_job process p w))).
Proof.
  intros Hno. pose proof (iteration_table p w Hno) as Htable.
  cbn zeta in Htable.
  destruct Htable
    as [[-> _]|(job_id & row & row' & Hrow & _ & Hrow' & _ & Hin & Hothers & _)];
    [done|].
  intros other r fields Hr Hf.
  destruct (decide (other = job_id)) as [->|Hne].
  - rewrite Hrow' in Hr. injection Hr as <-. rewrite Hin in Hf.
    by apply (Hno job_id row fields).
  - rewrite Hothers in Hr by done. by apply (Hno other r fields).
Qed.

(** A pass leaves every row alone that is not QUEUED. *)
Lemma iteration_keeps (p : pass) (w : worker) (other : string) :
  no_id_override (db (w_sys w)) ->
  status_of (db (w_sys w)) other <> Some QUEUED ->
  db (w_sys (iteration get_next_job process p w)) !! other
  = db (w_sys w) !! other.
Proof.
  intros Hno Hother. pose proof (iteration_table p w Hno) as Htable.
  cbn zeta in Htable.
  destruct Htable
    as [[-> _]|(job_id & row & row' & Hrow & Hq & _ & _ & _ & Hothers & _)];
    [done|].
  apply Hothers. intros ->. unfold status_of in Hother.
  rewrite Hrow in Hother. simpl in Hother. by rewrite Hq in Hother.
Qed.

Lemma run_worker_keeps (passes : list pass) (w : worker) (other : string) :
  no_id_override (db (w_sys w)) ->
  status_of (db (w_sys w)) other <> Some QUEUED ->
  db (w_sys (run_worker get_next_job process passes w)) !! other
  = db (w_sys w) !! other.
Proof.
  revert w. induction passes as [|p passes IH]; intros w Hno Hother; [done|].
  rewrite run_worker_cons, IH.
  - by apply iteration_keeps.
  - by apply iteration_no_override.
  - unfold status_of. by rewrite iteration_keeps.
Qed.

End Sound.

(** The counter of processed jobs counts the rows the worker took
    from QUEUED to COMPLETED: after any number of passes of a worker
    that is alone on a table where no input carries a [jobId] of its
    own, the counter has risen by the number of rows that were QUEUED
    before and are COMPLETED now.  The fetch is the scan of the
    worker's queues; a fetch that raises on the input of the row it
    marked counts nothing. *)
Theorem processed_counts_completed (worker_id : string) (names : list string)
    (get_next_job : Z -> sys -> option (option claimed) * sys)
    (process : claimed -> adapter_outcome) (passes : list pass) (w : worker) :
  (forall now s, get_next_job now s = scan worker_id now names s) ->
  no_id_override (db (w_sys w)) ->
  let w' := run_worker get_next_job process passes w in
  exists completed : list string,
    NoDup completed /\
    (forall job_id,
       job_id ∈ completed <->
       status_of (db (w_sys w)) job_id = Some QUEUED /\
       status_of (db (w_sys w')) job_id = Some COMPLETED) /\
    JOBS_PROCESSED (w_metrics w')
    = JOBS_PROCESSED (w_metrics w) + Z.of_nat (length completed).
Proof.
  intros Hget. cbn zeta. revert w.
  induction passes as [|p passes IH]; intros w Hno.
  - exists []. split; [constructor|]. split; [|simpl; lia].
    intros job_id. split; [by intros ?%elem_of_nil|].
    simpl. intros [H1 H2]. congruence.
  - rewrite run_worker_cons.
    pose proof (iteration_table worker_id names get_next_job process Hget p w Hno)
      as Htable. cbn zeta in Htable.
    pose proof (iteration_no_override worker_id names get_next_job process Hget
                  p w Hno) as Hno1.
    set (w1 := iteration get_next_job process p w) in *.
    destruct (IH w1 Hno1) as (completed & Hnd & Hin & Hcount).
    destruct Htable
      as [[Hdb Hjp]
         |(job_id & row & row' & Hrow & Hq & Hrow' & Hnq & _ & Hothers & Hjp)].
    + exists completed. split; [done|]. split; [|lia].
      intros j. rewrite Hin. unfold status_of. by rewrite Hdb.
    + assert (status_of (db (w_sys w)) job_id = Some QUEUED) as Hq0
        by (unfold status_of; by rewrite Hrow, <- Hq).
      assert (status_of (db (w_sys w1)) job_id = Some (j_status row')) as Hst
        by (unfold status_of; by rewrite Hrow').
      assert (status_of (db (w_sys w1)) job_id <> Some QUEUED) as Hnq1
        by (rewrite Hst; congruence).
      pose proof (run_worker_keeps worker_id names get_next_job process Hget
                    passes w1 job_id Hno1 Hnq1) as Hkeep.
      assert (job_id ∉ completed) as Hfresh.
      { intros [H1 _]%Hin. by rewrite H1 in Hnq1. }
      assert (forall j, j <> job_id ->
                status_of (db (w_sys w1)) j = status_of (db (w_sys w)) j) as Hsame.
      { intros j Hne. unfold status_of. by rewrite Hothers. }
      destruct (decide (j_status row' = COMPLETED)) as [Hc|Hnc].
      * exists (job_id :: completed). split; [by constructor|].
        split; [|cbn [length]; lia].
        intros j. rewrite elem_of_cons, Hin.
        destruct (decide (j = job_id)) as [->|Hne].
        -- split; [|by left]. intros _. split; [done|].
           unfold status_of. rewrite Hkeep, Hrow'. simpl. by rewrite Hc.
        -- rewrite (Hsame j Hne). split; [by intros [?|?]|by right].
      * exists completed. split; [done|]. split; [|lia].
        intros j. rewrite Hin.
        destruct (decide (j = job_id)) as [->|Hne].
        -- split; [intros [H1 _]; by rewrite H1 in Hnq1|].
           intros [_ H2]. unfold status_of in H2. rewrite Hkeep, Hrow' in H2.
           simpl in H2. congruence.
        -- by rewrite (Hsame j Hne).
Qed.

Lemma processed_counts_completed_witness :
  let w := mkWorker
             (mkSys {["a" := mkJob "TRANSCRIPTION" (Fields [("audioUrl", Text "u")])
                               QUEUED 0 None None None None None]}
                    {["queue:TRANSCRIPTION:HIGH" := ["a"]]} [])
             (mkMetrics 0 0 0) in
  let w' := asr_run_worker "asr-1-host" (fun _ => Returned "{}")
              [mkPass 5 6 None None; mkPass 7 8 None None] w in
  exists completed : list string,
    NoDup completed /\
    (forall job_id,
       job_id ∈ completed <->
       status_of (db (w_sys w)) job_id = Some QUEUED /\
       status_of (db (w_sys w')) job_id = Some COMPLETED) /\
    JOBS_PROCESSED (w_metrics w')
    = JOBS_PROCESSED (w_metrics w) + Z.of_nat (length completed).
Proof.
  refine (processed_counts_completed "asr-1-host" asr_queues
            (asr_get_next_job "asr-1-host")
            (fun _ => Returned "{}")
            [mkPass 5 6 None None; mkPass 7 8 None None]
            (mkWorker
               (mkSys {["a" := mkJob "TRANSCRIPTION"
                                 (Fields [("audioUrl", Text "u")]) QUEUED 0 None
                                 None None None None]}
                      {["queue:TRANSCRIPTION:HIGH" := ["a"]]} [])
               (mkMetrics 0 0 0)) _ _).
  - intros now s. reflexivity.
  - apply no_id_override_singleton. intros fields [= <-]. reflexivity.
Defined.

(** Where the row of a fetched job ends after the pass, on a table
    where no input carries a [jobId] of its own: the dictionary names
    the row that was QUEUED, and that row is COMPLETED exactly when
    the adapter returned and the COMPLETED write went through; FAILED
    when the FAILED write went through, also for a job whose work
    succeeded and whose COMPLETED write raised, with the text of that
    exception as the error; and RUNNING when the FAILED write raised.
    No later pass of the worker touches the row. *)
Theorem fetched_job_settles (worker_id : string) (names : list string)
    (get_next_job : Z -> sys -> option (option claimed) * sys)
    (process : claimed -> adapter_outcome) (p : pass) (w : worker)
    (job : claimed) (s : sys) (passes : list pass) :
  (forall now s, get_next_job now s = scan worker_id now names s) ->
  no_id_override (db (w_sys w)) ->
  get_next_job (fetched_at p) (w_sys w) = (Some (Some job), s) ->
  exists job_id,
    jobId job = Text job_id /\
    status_of (db (w_sys w)) job_id = Some QUEUED /\
    let w1 := iteration get_next_job process p w in
    let done := (exists output, process job = Returned output) /\
                completed_write p = None in
    (status_of (db (w_sys w1)) job_id = Some COMPLETED <-> done) /\
    (status_of (db (w_sys w1)) job_id = Some FAILED <->
       ~ done /\ failed_write p = None) /\
    (status_of (db (w_sys w1)) job_id = Some RUNNING <->
       ~ done /\ failed_write p <> None) /\
    (forall output e,
       process job = Returned output -> completed_write p = Some e ->
       failed_write p = None ->
       (db (w_sys w1) !! job_id) ≫= errorMessage = Some e) /\
    db (w_sys (run_worker get_next_job process passes w1)) !! job_id
    = db (w_sys w1) !! job_id.
Proof.
  intros Hget Hno Hfetch.
  destruct (fetch_cases worker_id names get_next_job Hget (fetched_at p)
              (w_sys w) Hno)
    as [(s' & Heq & _)
       |(job_id & row & s' & Hrow & Hq & Hdb & [Heq|(job' & Heq & Hid)])];
    rewrite Hfetch in Heq; [done..|].
  injection Heq as <- <-. exists job_id. split; [done|].
  split; [unfold status_of; by rewrite Hrow, <- Hq|]. cbn zeta.
  assert (status_of (db (w_sys (iteration get_next_job process p w))) job_id
          <> Some QUEUED ->
          db (w_sys (run_worker get_next_job process passes
                       (iteration get_next_job process p w))) !! job_id
          = db (w_sys (iteration get_next_job process p w)) !! job_id) as Hkeep.
  { apply (run_worker_keeps worker_id names get_next_job process Hget).
    by apply (iteration_no_override worker_id names). }
  revert Hkeep. unfold iteration. rewrite Hfetch, Hid. unfold status_of.
  assert (db s !! job_id = Some (claimed_row worker_id (fetched_at p) row))
    as Hrun by (by rewrite Hdb, update_running_lookup, Hrow).
  destruct (process job) as [output|e], (completed_write p) as [e'|],
    (failed_write p) as [e''|]; simpl;
    unfold update_completed, update_failed;
    rewrite ?lookup_alter_eq, Hrun; simpl; intros Hkeep;
    (repeat split; try done; try (by intros [? ?]);
     try (by intros [[? ?] ?]); try (by intros [? [? ?]]);
     try (by intros ? ? [= <-] [= <-]); try (by eexists);
     try (by apply Hkeep);
     try (intros [Hn _]; exfalso; apply Hn; split; [by eexists|done])).
Qed.

Lemma fetched_job_settles_witness :
  let get := tts_get_next_job "tts-1-host" in
  let process := tts_process (fun m => m) (fun _ => Returned "{}")
                   (fun _ => Threw "no training data") in
  let p := mkPass 5 6 (Some "connection lost") None in
  let w := mkWorker
             (mkSys {["a" := mkJob "TTS_SYNTHESIS" (Fields [("text", Text "hi")])
                               QUEUED 0 None None None None None]}
                    {["queue:TTS_SYNTHESIS:LOW" := ["a"]]} [])
             (mkMetrics 0 0 0) in
  let job := mkClaimed (Text "a") (Text "TTS_SYNTHESIS") [("text", Text "hi")] in
  exists job_id,
    jobId job = Text job_id /\
    status_of (db (w_sys w)) job_id = Some QUEUED /\
    let w1 := iteration get process p w in
    let done := (exists output, process job = Returned output) /\
                completed_write p = None in
    (status_of (db (w_sys w1)) job_id = Some COMPLETED <-> done) /\
    (status_of (db (w_sys w1)) job_id = Some FAILED <->
       ~ done /\ failed_write p = None) /\
    (status_of (db (w_sys w1)) job_id = Some RUNNING <->
       ~ done /\ failed_write p <> None) /\
    (forall output e,
       process job = Returned output -> completed_write p = Some e ->
       failed_write p = None ->
       (db (w_sys w1) !! job_id) ≫= errorMessage = Some e) /\
    db (w_sys (run_worker get process [mkPass 7 8 None None] w1)) !! job_id
    = db (w_sys w1) !! job_id.
Proof.
  refine (fetched_job_settles "tts-1-host"
            (product_queues tts_job_types priorities)
            (tts_get_next_job "tts-1-host")
            (tts_process (fun m => m) (fun _ => Returned "{}")
               (fun _ => Threw "no training data"))
            (mkPass 5 6 (Some "connection lost") None)
            (mkWorker
               (mkSys {["a" := mkJob "TTS_SYNTHESIS" (Fields [("text", Text "hi")])
                                 QUEUED 0 None None None None None]}
                      {["queue:TTS_SYNTHESIS:LOW" := ["a"]]} [])
               (mkMetrics 0 0 0))
            (mkClaimed (Text "a") (Text "TTS_SYNTHESIS") [("text", Text "hi")]) _
            [mkPass 7 8 None None] _ _ _).
  - intros now s. apply scan_types_flat.
  - apply no_id_override_singleton. intros fields [= <-]. reflexivity.
  - vm_compute. reflexivity.
Defined.

(** The diarization worker takes jobs of the types it does not
    implement off their queues and marks them COMPLETED: a QUEUED row
    that is next in the scan, whose input leaves the id alone and
    whose type, as the dispatch sees it, is not DIARIZATION, ends
    COMPLETED with progress 100 and the note that its type is not yet
    implemented as its output, and is counted as processed, whatever
    the diarization adapter would do. *)
Theorem unimplemented_type_completes (worker_id : string)
    (dumps_message : string -> string)
    (process_diarization_job : claimed -> adapter_outcome)
    (p : pass) (w : worker) (before : list string) (queue : string)
    (after l : list string) (job_id : string) (row : job)
    (fields : list (string * value)) :
  product_queues job_types priorities = (before ++ queue :: after)%list ->
  Forall (is_empty_queue (w_sys w)) before ->
  qs (w_sys w) !! queue = Some (l ++ [job_id])%list ->
  db (w_sys w) !! job_id = Some row -> j_status row = QUEUED ->
  inputData row = Fields fields ->
  lookup_field "jobId" fields = None ->
  is_text (dispatched_type row fields) "DIARIZATION" = false ->
  completed_write p = None ->
  let w' := diarization_run_worker worker_id dumps_message
              process_diarization_job [p] w in
  db (w_sys w') !! job_id
  = Some (mkJob (j_type row) (inputData row) COMPLETED 100 (Some worker_id)
            (Some (fetched_at p)) (Some (written_at p))
            (Some (not_implemented dumps_message (dispatched_type row fields)))
            (errorMessage row)) /\
  JOBS_PROCESSED (w_metrics w') = JOBS_PROCESSED (w_metrics w) + 1.
Proof.
  intros Hnames Hbefore Hq Hrow Hst Hfields Hid Hty Hwrite.
  unfold diarization_run_worker, run_worker. cbn [foldl]. unfold iteration.
  unfold diarization_get_next_job. rewrite scan_types_flat, Hnames.
  destruct (scan_first worker_id (fetched_at p) before queue after (w_sys w)
              l job_id row Hbefore Hq Hrow Hst) as (s' & -> & _ & Hdb).
  unfold build_job. rewrite Hfields. unfold job_dict. rewrite Hid.
  cbn [default jobId where_id]. unfold diarization_process. cbn [c_type].
  fold (dispatched_type row fields). rewrite Hty, Hwrite. cbn. split; [|done].
  unfold update_completed.
  rewrite lookup_alter_eq, Hdb, update_running_lookup, Hrow. simpl.
  by rewrite Hfields.
Qed.

Lemma unimplemented_type_completes_witness :
  let w := mkWorker
             (mkSys {["e" := mkJob "EMBEDDING_EXTRACTION" (Fields []) QUEUED 0 None
                               None None None None]}
                    {["queue:EMBEDDING_EXTRACTION:HIGH" := ["e"]]} [])
             (mkMetrics 0 0 0) in
  let w' := diarization_run_worker "diar-1-host" (fun m => m)
              (fun _ => Threw "no audio") [mkPass 5 6 None None] w in
  db (w_sys w') !! "e"
  = Some (mkJob "EMBEDDING_EXTRACTION" (Fields []) COMPLETED 100
            (Some "diar-1-host") (Some 5) (Some 6)
            (Some (not_implemented (fun m => m) (Text "EMBEDDING_EXTRACTION")))
            None) /\
  JOBS_PROCESSED (w_metrics w') = JOBS_PROCESSED (w_metrics w) + 1.
Proof.
  refine (unimplemented_type_completes "diar-1-host" (fun m => m)
            (fun _ => Threw "no audio") (mkPass 5 6 None None)
            (mkWorker
               (mkSys {["e" := mkJob "EMBEDDING_EXTRACTION" (Fields []) QUEUED 0
                                 None None None None None]}
                      {["queue:EMBEDDING_EXTRACTION:HIGH" := ["e"]]} [])
               (mkMetrics 0 0 0))
            ["queue:DIARIZATION:URGENT"; "queue:DIARIZATION:HIGH";
             "queue:DIARIZATION:NORMAL"; "queue:DIARIZATION:LOW";
             "queue:EMBEDDING_EXTRACTION:URGENT"]
            "queue:EMBEDDING_EXTRACTION:HIGH"
            ["queue:EMBEDDING_EXTRACTION:NORMAL"; "queue:EMBEDDING_EXTRACTION:LOW";
             "queue:SPEAKER_CLUSTERING:URGENT"; "queue:SPEAKER_CLUSTERING:HIGH";
             "queue:SPEAKER_CLUSTERING:NORMAL"; "queue:SPEAKER_CLUSTERING:LOW"]
            [] "e"
            (mkJob "EMBEDDING_EXTRACTION" (Fields []) QUEUED 0 None None None None
                   None)
            [] _ _ _ _ _ _ _ _ _).
  - reflexivity.
  - repeat constructor.
  - reflexivity.
  - reflexivity.
  - reflexivity.
  - reflexivity.
  - reflexivity.
  - reflexivity.
  - reflexivity.
Defined.

(** A job whose input carries a [jobId] of its own is handed to the
    adapter under that id.  Its row is marked RUNNING by the fetch and
    stays so; the COMPLETED write of the pass goes to the row of the
    other id, whatever its status, or to no row when there is none;
    and the job is counted as processed. *)
Theorem overridden_id_misdirects_write (worker_id : string)
    (process : claimed -> adapter_outcome) (p : pass) (w : worker)
    (before : list string) (queue : string) (after l : list string)
    (job_id : string) (row : job) (fields : list (string * value))
    (other output : string) :
  Forall (is_empty_queue (w_sys w)) before ->
  qs (w_sys w) !! queue = Some (l ++ [job_id])%list ->
  db (w_sys w) !! job_id = Some row -> j_status row = QUEUED ->
  inputData row = Fields fields ->
  lookup_field "jobId" fields = Some (Text other) -> other <> job_id ->
  process (mkClaimed (Text other) (dispatched_type row fields) fields)
  = Returned output ->
  completed_write p = None ->
  let w' := run_worker (fun now => scan worker_id now (before ++ queue :: after))
              process [p] w in
  db (w_sys w') !! job_id = Some (claimed_row worker_id (fetched_at p) row) /\
  db (w_sys w') !! other
  = terminated (Returned output) (written_at p) <$> db (w_sys w) !! other /\
  JOBS_PROCESSED (w_metrics w') = JOBS_PROCESSED (w_metrics w) + 1.
Proof.
  intros Hbefore Hq Hrow Hst Hfields Hid Hne Hprocess Hwrite.
  unfold run_worker. cbn [foldl]. unfold iteration.
  destruct (scan_first worker_id (fetched_at p) before queue after (w_sys w)
              l job_id row Hbefore Hq Hrow Hst) as (s' & -> & _ & Hdb).
  unfold build_job. rewrite Hfields.
  assert (job_dict job_id (j_type row) fields
          = mkClaimed (Text other) (dispatched_type row fields) fields) as ->
    by (unfold job_dict, dispatched_type; by rewrite Hid).
  rewrite Hprocess, Hwrite. cbn. unfold update_completed.
  rewrite lookup_alter_ne by done. rewrite lookup_alter_eq, Hdb.
  rewrite update_running_lookup, Hrow, update_running_other by done.
  done.
Qed.

Lemma overridden_id_misdirects_write_witness :
  let w := mkWorker
             (mkSys {["j" := mkJob "TRANSCRIPTION" (Fields [("jobId", Text "k")])
                               QUEUED 0 None None None None None;
                      "k" := mkJob "TRANSCRIPTION" (Fields []) CANCELLED 0 None
                               None None None None]}
                    {["queue:TRANSCRIPTION:LOW" := ["j"]]} [])
             (mkMetrics 0 0 0) in
  let w' := asr_run_worker "asr-1-host" (fun _ => Returned "{}")
              [mkPass 5 6 None None] w in
  db (w_sys w') !! "j"
  = Some (mkJob "TRANSCRIPTION" (Fields [("jobId", Text "k")]) RUNNING 0
            (Some "asr-1-host") (Some 5) None None None) /\
  db (w_sys w') !! "k"
  = Some (mkJob "TRANSCRIPTION" (Fields []) COMPLETED 100 None None (Some 6)
            (Some "{}") None) /\
  JOBS_PROCESSED (w_metrics w') = 1.
Proof.
  refine (overridden_id_misdirects_write "asr-1-host" (fun _ => Returned "{}")
            (mkPass 5 6 None None)
            (mkWorker
               (mkSys {["j" := mkJob "TRANSCRIPTION"
                                 (Fields [("jobId", Text "k")]) QUEUED 0 None None
                                 None None None;
                        "k" := mkJob "TRANSCRIPTION" (Fields []) CANCELLED 0 None
                                 None None None None]}
                      {["queue:TRANSCRIPTION:LOW" := ["j"]]} [])
               (mkMetrics 0 0 0))
            ["queue:TRANSCRIPTION:URGENT"; "queue:TRANSCRIPTION:HIGH";
             "queue:TRANSCRIPTION:NORMAL"]
            "queue:TRANSCRIPTION:LOW" [] [] "j"
            (mkJob "TRANSCRIPTION" (Fields [("jobId", Text "k")]) QUEUED 0 None
                   None None None None)
            [("jobId", Text "k")] "k" "{}" _ _ _ _ _ _ _ _ _).
  - repeat constructor.
  - reflexivity.
  - reflexivity.
  - reflexivity.
  - reflexivity.
  - reflexivity.
  - discriminate.
  - reflexivity.
  - reflexivity.
Defined.

End WorkerLoopFacts.

(** ** What the diarization worker saves *)

Module DiarizationFacts.
Import Diarization.

Section ResultFacts.

Context {time : Type}.
Variable lt : time -> time -> bool.
Variable sub : time -> time -> time.
Variable embed : list (time * time) -> option string.
Variable set_of : list string -> list string.
Variable speaker_db_id : string -> string.

Lemma insert_by_start_perm (x : segment time) (l : list (segment time)) :
  insert_by_start lt x l ≡ₚ x :: l.
Proof.
  induction l as [|y l IH]; [done|]. simpl.
  destruct (lt (startTime y) (startTime x)); [|done].
  rewrite IH. apply Permutation_swap.
Qed.

Lemma sort_by_start_perm (l : list (segment time)) : sort_by_start lt l ≡ₚ l.
Proof.
  induction l as [|x l IH]; [done|]. simpl.
  by rewrite insert_by_start_perm, IH.
Qed.

Lemma insert_by_start_sorted (x : segment time) (l : list (segment time)) :
  (forall a b, lt a b = true -> lt b a = false) ->
  Sorted (in_start_order lt) l ->
  Sorted (in_start_order lt) (insert_by_start lt x l).
Proof.
  intros Hasym. induction l as [|y l IH]; intros Hs; simpl.
  - by repeat constructor.
  - destruct (lt (startTime y) (startTime x)) eqn:Hyx.
    + apply Sorted_inv in Hs as [Hs Hhd]. constructor; [by apply IH|].
      destruct l as [|z l]; simpl.
      * constructor. unfold in_start_order. by apply Hasym.
      * destruct (lt (startTime z) (startTime x)).
        -- constructor. by apply HdRel_inv in Hhd.
        -- constructor. unfold in_start_order. by apply Hasym.
    + constructor; [done|]. by constructor.
Qed.

Lemma sort_by_start_sorted (l : list (segment time)) :
  (forall a b, lt a b = true -> lt b a = false) ->
  Sorted (in_start_order lt) (sort_by_start lt l).
Proof.
  intros Hasym. induction l as [|x l IH]; [constructor|].
  simpl. by apply insert_by_start_sorted.
Qed.

(** *** Rows by speaker *)

Lemma perm_of_eq {A : Type} (l l' : list A) : l = l' -> l ≡ₚ l'.
Proof. by intros ->. Qed.

Lemma filter_split_perm {A : Type} (f : A -> bool) (l : list A) :
  l ≡ₚ (List.filter f l ++ List.filter (fun x => negb (f x)) l)%list.
Proof.
  induction l as [|x l IH]; [done|]. simpl.
  destruct (f x); simpl.
  - by rewrite <- IH.
  - rewrite <- Permutation_middle. by rewrite <- IH.
Qed.

Lemma filter_other {A : Type} (key : A -> string) (k id : string) (l : list A) :
  id <> k ->
  List.filter (fun x => String.eqb (key x) id)
    (List.filter (fun x => negb (String.eqb (key x) k)) l)
  = List.filter (fun x => String.eqb (key x) id) l.
Proof.
  intros Hne. induction l as [|x l IH]; [done|]. simpl.
  destruct (String.eqb_spec (key x) k) as [Hk|Hk]; simpl.
  - destruct (String.eqb_spec (key x) id) as [Hid|_]; [congruence|done].
  - by rewrite IH.
Qed.

Lemma flat_map_ext_elem {A B : Type} (f g : A -> list B) (l : list A) :
  (forall x, x ∈ l -> f x = g x) -> flat_map f l = flat_map g l.
Proof.
  induction l as [|x l IH]; intros H; [done|]. simpl.
  rewrite H by apply list_elem_of_here. rewrite IH; [done|].
  intros y Hy. apply H. by apply list_elem_of_further.
Qed.

(** Going through the keys one by one and picking the items of each
    reaches every item once. *)
Lemma by_key_perm {A B : Type} (key : A -> string) (row : string -> A -> B)
    (ids : list string) (l : list A) :
  NoDup ids -> (forall x, x ∈ l -> key x ∈ ids) ->
  flat_map (fun id => map (row id)
                        (List.filter (fun x => String.eqb (key x) id) l)) ids
  ≡ₚ map (fun x => row (key x) x) l.
Proof.
  intros Hnd. revert l. induction Hnd as [|k ids Hk Hnd IH]; intros l Hl.
  - destruct l as [|x l]; [done|].
    by specialize (Hl x (list_elem_of_here _ _)) as ?%elem_of_nil.
  - cbn [flat_map].
    transitivity
      (map (fun x => row (key x) x)
           (List.filter (fun x => String.eqb (key x) k) l
            ++ List.filter (fun x => negb (String.eqb (key x) k)) l)).
    2: { apply Permutation_map. symmetry.
         apply (filter_split_perm (fun x => String.eqb (key x) k)). }
    rewrite map_app. apply Permutation_app.
    + apply perm_of_eq. clear. induction l as [|x l IH]; [done|]. simpl.
      destruct (String.eqb_spec (key x) k) as [<-|]; simpl; by rewrite ?IH.
    + rewrite <- (IH (List.filter (fun x => negb (String.eqb (key x) k)) l)).
      * apply perm_of_eq. apply flat_map_ext_elem. intros id Hid.
        rewrite filter_other; [done|]. by intros ->.
      * intros x [Hx Hkx]%list_elem_of_In%filter_In.
        apply list_elem_of_In in Hx. specialize (Hl x Hx).
        apply elem_of_cons in Hl as [Heq|Hin]; [|done].
        rewrite Heq, String.eqb_refl in Hkx. done.
Qed.

Lemma segment_rows_app (a b : list (statement time)) :
  segment_rows (a ++ b) = (segment_rows a ++ segment_rows b)%list.
Proof. unfold segment_rows. by rewrite flat_map_app. Qed.

Lemma embedding_rows_app (a b : list (statement time)) :
  embedding_rows (a ++ b) = (embedding_rows a ++ embedding_rows b)%list.
Proof. unfold embedding_rows. by rewrite flat_map_app. Qed.

Lemma segment_rows_segments (ep id : string) (l : list (segment time)) :
  segment_rows (map (fun seg => InsertSegment ep (startTime seg) (endTime seg) id) l)
  = map (fun seg => (startTime seg, endTime seg, id)) l.
Proof. induction l as [|x l IH]; [done|]. simpl. by f_equal. Qed.

Lemma segment_rows_embeddings (ep id : string) (l : list embedding) :
  segment_rows (map (fun emb => @InsertEmbedding time id ep (embeddingHash emb)
                                  (s3Key emb)) l) = [].
Proof. by induction l. Qed.

Lemma embedding_rows_segments (ep id : string) (l : list (segment time)) :
  embedding_rows
    (map (fun seg => InsertSegment ep (startTime seg) (endTime seg) id) l) = [].
Proof. by induction l. Qed.

Lemma segment_rows_flat_map {A : Type} (f : A -> list (statement time))
    (l : list A) :
  segment_rows (flat_map f l) = flat_map (fun x => segment_rows (f x)) l.
Proof.
  induction l as [|x l IH]; [done|]. simpl. by rewrite segment_rows_app, IH.
Qed.

Lemma embedding_rows_flat_map {A : Type} (f : A -> list (statement time))
    (l : list A) :
  embedding_rows (flat_map f l) = flat_map (fun x => embedding_rows (f x)) l.
Proof.
  induction l as [|x l IH]; [done|]. simpl. by rewrite embedding_rows_app, IH.
Qed.

(** *** Labels *)

Lemma add_segment_keys (speaker : string) (span : time * time)
    (groups : list (string * list (time * time))) (g : string * list (time * time)) :
  g ∈ add_segment speaker span groups ->
  fst g = speaker \/ exists g', g' ∈ groups /\ fst g = fst g'.
Proof.
  induction groups as [|[sp spans] groups IH]; simpl.
  - intros ->%list_elem_of_singleton. by left.
  - destruct (String.eqb_spec sp speaker) as [->|Hne].
    + intros [->|Hin]%elem_of_cons; [by left|].
      right. exists g. split; [by apply list_elem_of_further|done].
    + intros [->|Hin]%elem_of_cons.
      * right. exists (sp, spans). split; [apply list_elem_of_here|done].
      * destruct (IH Hin) as [?|(g' & Hg' & Heq)]; [by left|].
        right. exists g'. split; [by apply list_elem_of_further|done].
Qed.

Lemma speaker_segments_keys (tracks : list (track time))
    (acc : list (string * list (time * time))) (g : string * list (time * time)) :
  g ∈ foldl (fun groups tr => add_segment (label tr) (t_start tr, t_end tr) groups)
        acc tracks ->
  (exists g', g' ∈ acc /\ fst g = fst g') \/
  (exists tr, tr ∈ tracks /\ fst g = label tr).
Proof.
  revert acc. induction tracks as [|tr tracks IH]; intros acc; simpl.
  - intros Hg. left. by exists g.
  - intros Hg. destruct (IH _ Hg) as [(g' & Hg' & Heq)|(tr' & Htr' & Heq)].
    + apply add_segment_keys in Hg' as [Hl|(g2 & Hg2 & Heq2)].
      * right. exists tr. split; [apply list_elem_of_here|congruence].
      * left. exists g2. split; [done|congruence].
    + right. exists tr'. split; [by apply list_elem_of_further|done].
Qed.

Lemma embedding_labels (tracks : list (track time)) (ep : string)
    (emb : embedding) :
  emb ∈ extract_speaker_embeddings embed tracks ep ->
  exists tr, tr ∈ tracks /\ e_speakerId emb = label tr.
Proof.
  unfold extract_speaker_embeddings.
  intros (g & Hg & Hemb)%list_elem_of_In%in_flat_map.
  apply list_elem_of_In in Hg.
  destruct (embed (take 10 g.2)) as [h|]; [|done].
  destruct Hemb as [<-|[]]. simpl.
  apply speaker_segments_keys in Hg as [(g' & Hg' & _)|Htr]; [|done].
  by apply elem_of_nil in Hg'.
Qed.

Lemma segment_labels (tracks : list (track time)) (ep : string) (sp : string) :
  sp ∈ map speakerId (process_diarization_result lt sub tracks ep) ->
  exists tr, tr ∈ tracks /\ sp = "spk_" +:+ label tr.
Proof.
  unfold process_diarization_result. rewrite sort_by_start_perm.
  rewrite map_map. intros (tr & Heq & Htr)%list_elem_of_In%in_map_iff.
  exists tr. split; [by apply list_elem_of_In|done].
Qed.

End ResultFacts.

(** The segments come out in the order of their start, and they are
    the tracks of the diarization result, none lost and none added,
    each under its label with [spk_] in front. *)
Theorem diarization_segments_sorted {time : Type} (lt : time -> time -> bool)
    (sub : time -> time -> time) (tracks : list (track time)) (ep : string) :
  (forall a b, lt a b = true -> lt b a = false) ->
  process_diarization_result lt sub tracks ep
    ≡ₚ map (to_segment sub ep) tracks /\
  Sorted (in_start_order lt) (process_diarization_result lt sub tracks ep).
Proof.
  intros Hasym. split.
  - apply sort_by_start_perm.
  - by apply sort_by_start_sorted.
Qed.

Lemma diarization_segments_sorted_witness :
  process_diarization_result Z.ltb Z.sub
      [mkTrack 40 90 "SPEAKER_01"; mkTrack 0 40 "SPEAKER_00"] "ep"
    ≡ₚ map (to_segment Z.sub "ep")
         [mkTrack 40 90 "SPEAKER_01"; mkTrack 0 40 "SPEAKER_00"] /\
  Sorted (in_start_order Z.ltb)
    (process_diarization_result Z.ltb Z.sub
       [mkTrack 40 90 "SPEAKER_01"; mkTrack 0 40 "SPEAKER_00"] "ep").
Proof.
  refine (diarization_segments_sorted Z.ltb Z.sub
            [mkTrack 40 90 "SPEAKER_01"; mkTrack 0 40 "SPEAKER_00"] "ep" _).
  intros a b. lia.
Defined.

(** Every segment is saved exactly once, attached to the row of its
    own speaker: the segment rows inserted are the segments given,
    whatever the order in which the speakers are gone through. *)
Theorem every_segment_saved_once {time : Type}
    (set_of : list string -> list string) (speaker_db_id : string -> string)
    (ep : string) (segments : list (segment time))
    (embeddings_data : list embedding) :
  is_set_order set_of ->
  segment_rows
    (save_diarization_results set_of speaker_db_id ep segments embeddings_data)
  ≡ₚ map (fun seg => (startTime seg, endTime seg, speaker_db_id (speakerId seg)))
       segments.
Proof.
  intros Hset. unfold save_diarization_results.
  rewrite segment_rows_flat_map.
  rewrite <- (by_key_perm speakerId
                (fun id seg => (startTime seg, endTime seg, speaker_db_id id))
                (set_of (map speakerId segments)) segments).
  - apply perm_of_eq. apply flat_map_ext_elem. intros id _.
    cbn zeta. change (?x :: ?a ++ ?b)%list with ([x] ++ a ++ b)%list.
    rewrite !segment_rows_app, segment_rows_segments, segment_rows_embeddings.
    simpl. by rewrite app_nil_r.
  - apply Hset.
  - intros seg Hseg. apply Hset. apply list_elem_of_In, in_map.
    by apply list_elem_of_In.
Qed.

Lemma every_segment_saved_once_witness :
  segment_rows
    (save_diarization_results remove_dups (fun auto_id => "id-" +:+ auto_id) "ep"
       [mkSegment "ep" 0 40 "spk_A" 40; mkSegment "ep" 40 90 "spk_B" 50;
        mkSegment "ep" 90 100 "spk_A" 10] [])
  ≡ₚ map (fun seg : segment Z =>
            (startTime seg, endTime seg, "id-" +:+ speakerId seg))
       [mkSegment "ep" 0 40 "spk_A" 40; mkSegment "ep" 40 90 "spk_B" 50;
        mkSegment "ep" 90 100 "spk_A" 10].
Proof.
  refine (every_segment_saved_once remove_dups (fun auto_id => "id-" +:+ auto_id)
            "ep"
            [mkSegment "ep" 0 40 "spk_A" 40; mkSegment "ep" 40 90 "spk_B" 50;
             mkSegment "ep" 90 100 "spk_A" 10] [] _).
  intros l. split; [apply NoDup_remove_dups|apply elem_of_remove_dups].
Defined.

(** The embeddings are filed under the label of the speaker and the
    segments under [spk_] and the label, and only embeddings filed
    under the name of a speaker of the segments are saved: unless a
    label is another label with [spk_] in front, no embedding row is
    inserted, however many embeddings were extracted. *)
Theorem embeddings_not_saved {time : Type} (lt : time -> time -> bool)
    (sub : time -> time -> time) (embed : list (time * time) -> option string)
    (set_of : list string -> list string) (speaker_db_id : string -> string)
    (tracks : list (track time)) (ep : string) :
  (forall l x, x ∈ set_of l -> x ∈ l) ->
  labels_plain tracks ->
  embedding_rows (saved lt sub embed set_of speaker_db_id tracks ep) = [].
Proof.
  intros Hset Hplain. unfold saved, save_diarization_results.
  rewrite embedding_rows_flat_map.
  rewrite (flat_map_ext_elem _ (fun _ => [])).
  - generalize (set_of (map speakerId (process_diarization_result lt sub tracks ep))).
    intros ids. by induction ids.
  - intros id Hid%Hset. apply segment_labels in Hid as (tr' & Htr' & ->).
    cbn zeta. change (?x :: ?a ++ ?b)%list with ([x] ++ a ++ b)%list.
    rewrite !embedding_rows_app, embedding_rows_segments. simpl.
    assert (List.filter
              (fun emb => String.eqb (e_speakerId emb) ("spk_" +:+ label tr'))
              (extract_speaker_embeddings embed tracks ep) = []) as ->; [|done].
    generalize (embedding_labels embed tracks ep).
    generalize (extract_speaker_embeddings embed tracks ep). intros embs Hembs.
    induction embs as [|emb embs IH]; [done|]. simpl.
    destruct (String.eqb_spec (e_speakerId emb) ("spk_" +:+ label tr')) as [Heq|_].
    + destruct (Hembs emb (list_elem_of_here _ _)) as (tr & Htr & Hl).
      exfalso. apply (Hplain tr tr' Htr Htr'). congruence.
    + apply IH. intros e He. apply Hembs. by apply list_elem_of_further.
Qed.

Lemma embeddings_not_saved_witness :
  embedding_rows
    (saved Z.ltb Z.sub (fun _ => Some "5e1f") remove_dups
       (fun auto_id => "id-" +:+ auto_id)
       [mkTrack 0 40 "SPEAKER_00"; mkTrack 40 90 "SPEAKER_01"] "ep") = [].
Proof.
  refine (embeddings_not_saved Z.ltb Z.sub (fun _ => Some "5e1f") remove_dups
            (fun auto_id => "id-" +:+ auto_id)
            [mkTrack 0 40 "SPEAKER_00"; mkTrack 40 90 "SPEAKER_01"] "ep" _ _).
  - intros l x. apply elem_of_remove_dups.
  - intros tr tr' Htr Htr'.
    apply list_elem_of_In in Htr. apply list_elem_of_In in Htr'.
    simpl in Htr, Htr'.
    destruct Htr as [<-|[<-|[]]]; destruct Htr' as [<-|[<-|[]]]; discriminate.
Defined.

End DiarizationFacts.

(** ** The transcript of the ASR worker *)

Module TranscriptFacts.
Import Transcript.

Section WhisperFacts.

Context {num : Type}.
Variable zero : num.
Variable gt : num -> num -> bool.

Lemma add_segments_spec (l : list (whisper_segment num))
    (acc : list (transcript_segment num) * nat) :
  let out := foldl (add_segment zero) acc l in
  length (fst out) = (length (fst acc) + length l)%nat /\
  (snd acc = sum_list_with (fun seg => length (wordTimestamps seg)) (fst acc) ->
   snd out = sum_list_with (fun seg => length (wordTimestamps seg)) (fst out)).
Proof.
  revert acc. induction l as [|segment l IH]; intros acc.
  - simpl. split; [lia|done].
  - cbn [foldl]. destruct (IH (add_segment zero acc segment)) as [Hlen Hsum].
    cbn zeta. split.
    + rewrite Hlen. unfold add_segment. cbn [fst].
      rewrite length_app. simpl. lia.
    + intros Hacc. apply Hsum. unfold add_segment. cbn [fst snd].
      rewrite sum_list_with_app. cbn [sum_list_with wordTimestamps].
      destruct (words segment); simpl; lia.
Qed.

Lemma py_max_spec (first : num) (rest : list num) :
  (forall a, gt a a = false) ->
  (forall a b c, gt a b = true -> gt b c = true -> gt a c = true) ->
  py_max gt first rest ∈ first :: rest /\
  Forall (fun x => gt x (py_max gt first rest) = false) (first :: rest).
Proof.
  intros Hirr Htrans. unfold py_max.
  assert (forall seen m,
            m ∈ seen -> Forall (fun x => gt x m = false) seen ->
            foldl (fun m item => if gt item m then item else m) m rest
              ∈ (seen ++ rest)%list /\
            Forall (fun x => gt x (foldl (fun m item => if gt item m then item else m)
                                     m rest) = false) (seen ++ rest)%list) as H.
  { induction rest as [|item rest IH]; intros seen m Hm Hseen.
    - rewrite app_nil_r. done.
    - cbn [foldl].
      replace (seen ++ item :: rest)%list with ((seen ++ [item]) ++ rest)%list
        by (by rewrite <- app_assoc).
      apply IH.
      + destruct (gt item m); apply elem_of_app; [right|left]; [|done].
        apply list_elem_of_here.
      + apply Forall_app. destruct (gt item m) eqn:Hgt.
        * split; [|by repeat constructor].
          eapply Forall_impl; [exact Hseen|]. intros x Hx. simpl in Hx.
          destruct (gt x item) eqn:Hxi; [|done].
          by rewrite (Htrans x item m Hxi Hgt) in Hx.
        * split; [done|by repeat constructor]. }
  apply (H [first] first); [apply list_elem_of_here|by repeat constructor].
Qed.

End WhisperFacts.

(** The transcript is consistent with the result it was made from:
    it has one segment per segment of the result, its word count is
    the number of word timestamps its segments hold, and its duration
    is 0 without segments and otherwise the end of a segment that no
    segment ends after. *)
Theorem transcript_consistent {num : Type} (zero : num)
    (gt : num -> num -> bool) (result : whisper_result num) (ep : string) :
  (forall a, gt a a = false) ->
  (forall a b c, gt a b = true -> gt b c = true -> gt a c = true) ->
  let t := process_whisper_result zero gt result ep in
  length (segments t) = length (default [] (r_segments result)) /\
  word_count t
  = sum_list_with (fun seg => length (wordTimestamps seg)) (segments t) /\
  (segments t = [] -> duration t = zero) /\
  (segments t <> [] -> duration t ∈ map endTime (segments t)) /\
  Forall (fun seg => gt (endTime seg) (duration t) = false) (segments t).
Proof.
  intros Hirr Htrans. cbn zeta. unfold process_whisper_result.
  pose proof (add_segments_spec zero (default [] (r_segments result)) ([], 0%nat))
    as Hspec. cbn zeta in Hspec.
  destruct (foldl (add_segment zero) ([], 0%nat) (default [] (r_segments result)))
    as [segs total]. cbn [fst snd length segments word_count duration] in *.
  destruct Hspec as [Hlen Hsum].
  split; [done|]. split; [by apply Hsum|].
  destruct segs as [|seg segs]; [by repeat split|].
  cbn [map]. destruct (py_max_spec gt (endTime seg) (map endTime segs) Hirr Htrans)
    as [Hin Hall].
  split; [done|]. split; [done|].
  change (endTime seg :: map endTime segs) with (endTime <$> seg :: segs) in Hall.
  apply Forall_fmap in Hall. exact Hall.
Qed.

Lemma transcript_consistent_witness :
  let result :=
    mkWhisperResult
      (Some [mkWhisperSegment (Some [mkWhisperWord (Some "hello") (Some 0) (Some 4)
                                       None])
                              (Some 0) (Some 5) (Some " hello ") None;
             mkWhisperSegment None (Some 5) (Some 9) None None])
      (Some "en") in
  let t := process_whisper_result 0 Z.gtb result "ep" in
  length (segments t) = length (default [] (r_segments result)) /\
  word_count t
  = sum_list_with (fun seg => length (wordTimestamps seg)) (segments t) /\
  (segments t = [] -> duration t = 0) /\
  (segments t <> [] -> duration t ∈ map endTime (segments t)) /\
  Forall (fun seg => Z.gtb (endTime seg) (duration t) = false) (segments t).
Proof.
  refine (transcript_consistent 0 Z.gtb
            (mkWhisperResult
               (Some [mkWhisperSegment
                        (Some [mkWhisperWord (Some "hello") (Some 0) (Some 4) None])
                        (Some 0) (Some 5) (Some " hello ") None;
                      mkWhisperSegment None (Some 5) (Some 9) None None])
               (Some "en")) "ep" _ _).
  - intros a. lia.
  - intros a b c. lia.
Defined.

End TranscriptFacts.
